(** * OpenAPI coverage service: path normalisation, hit tracking and reporting

    A shallow embedding of the TypeScript sources
    - [utils/path-normalizer.ts]    ([normalizePath]),
    - [utils/axios-interceptors.ts] (the hit set of the request interceptor,
      the error map of the response error interceptor and
      [endpointMatchesTemplate]),
    - [utils/file-utils.ts]         ([saveHitEndpoints], [saveErrors]),
    - [lib/endpoint-collector.ts]   ([getAllHitEndpoints],
      [getAllServerErrors]),
    - [lib/openapi-processor.ts]    ([extractEndpointsFromSpec],
      [generatePathPatterns], [inferPatternsFromRequests] with
      [groupSimilarPaths], [arePathsCoveredByPatterns] and
      [createPatternFromGroup]),
    - [lib/report-generator.ts]     ([normalizeEndpoints],
      [generateCoverageReport], [generateMethodCoverage],
      [generateServerErrorStats]),
    followed by the properties of these functions.

    Conventions.
    - A JavaScript string is a [string]; the separators the code splits on
      are ASCII, so splitting bytes and splitting UTF-16 units agree.
    - A JavaScript object whose enumeration order the code depends on
      ([Object.entries], [Map] iteration) is an association list in
      enumeration order; one that is only looked up is a [gmap].
    - A [Set<string>] is a duplicate-free list in insertion order.
    - A call that can throw returns an [option]; [None] is the exception.
    - A [RegExp] is a value of the JavaScript runtime, not of this
      repository: it is modelled by what [test] and [String.replace] do
      with it, and [new RegExp] is a parameter of the functions that
      compile patterns.  The regular expressions written out in the source
      are modelled by the string functions they compute.
    - Counts are integers; percentages are binary64 numbers ([float]).
    - A file is what was read from it: the parsed content, or [None] when
      it cannot be read or parsed; what a function writes to a file is its
      result. *)

From Stdlib Require Import String Ascii List ZArith Lia Bool Floats Uint63.
From Stdlib Require Import DecimalString.
From stdpp Require Import gmap strings.

Local Open Scope bool_scope.

(* ===================================================================== *)
(** * Part I: the model                                                   *)
(* ===================================================================== *)

(** ** JavaScript string primitives *)

Module JS.

(** [s.startsWith(pre)] *)
Fixpoint startsWith (pre s : string) : bool :=
  match pre with
  | EmptyString => true
  | String a pre' =>
      match s with
      | EmptyString => false
      | String b s' => Ascii.eqb a b && startsWith pre' s'
      end
  end.

(** [s.slice(n)] for [0 <= n] *)
Fixpoint slice (n : nat) (s : string) : string :=
  match n, s with
  | O, _ => s
  | S _, EmptyString => EmptyString
  | S k, String _ s' => slice k s'
  end.

(** [s.endsWith(suf)] *)
Definition endsWith (suf s : string) : bool :=
  let n := String.length s in
  let k := String.length suf in
  if (k <=? n)%nat then String.eqb (slice (n - k) s) suf else false.

(** [s.includes(sub)] *)
Fixpoint includes (sub s : string) : bool :=
  startsWith sub s
  || match s with
     | EmptyString => false
     | String _ s' => includes sub s'
     end.

(** [s.split(sep)] for a one-character separator: never the empty list,
    [''.split('/')] is [['']]. *)
Fixpoint split (sep : ascii) (s : string) : list string :=
  match s with
  | EmptyString => [EmptyString]
  | String c s' =>
      if Ascii.eqb c sep then EmptyString :: split sep s'
      else match split sep s' with
           | h :: t => String c h :: t
           | [] => [String c EmptyString]
           end
  end.

(** [s.split(sep, limit)] *)
Definition splitLimit (sep : ascii) (limit : nat) (s : string) : list string :=
  firstn limit (split sep s).

(** Truthiness of a string: [Boolean(s)] *)
Definition truthy (s : string) : bool := negb (String.eqb s "").

(** [arr.filter(Boolean)] on an array of strings *)
Definition filterBoolean (l : list string) : list string := List.filter truthy l.

(** [arr.join(sep)] *)
Fixpoint join (sep : string) (l : list string) : string :=
  match l with
  | [] => ""
  | [x] => x
  | x :: rest => x +:+ sep +:+ join sep rest
  end.

Definition lowerAscii (c : ascii) : ascii :=
  let n := nat_of_ascii c in
  if ((65 <=? n) && (n <=? 90))%nat then ascii_of_nat (n + 32) else c.

(** [s.toLowerCase()] and [s.toUpperCase()] are modelled on ASCII text. *)
Fixpoint toLowerCase (s : string) : string :=
  match s with
  | EmptyString => EmptyString
  | String c s' => String (lowerAscii c) (toLowerCase s')
  end.

(** [String(n)] for an integer [n] *)
Definition stringOfZ (n : Z) : string := NilZero.string_of_int (Z.to_int n).

(** A regular expression object, by its behaviour: [re_test r s] is
    [r.test(s)] and [re_replace r s t] is [s.replace(r, t)]; [None] is a
    thrown exception.  The objects are taken to be stateless (no [g] or [y]
    flag on a pattern that is tested). *)
Record RegExp : Type := mkRegExp {
  re_test : string -> option bool;
  re_replace : string -> string -> option string
}.

End JS.

Import JS.

(** The path segments the code compares: [p.split('/').filter(Boolean)]. *)
Definition segments (p : string) : list string :=
  filterBoolean (split "/" p).

(** [seg.startsWith('{') && seg.endsWith('}')] *)
Definition isParamSegment (seg : string) : bool :=
  startsWith "{" seg && endsWith "}" seg.

(** [key.includes('{') && key.includes('}')]: the code's test for a
    templated endpoint key. *)
Definition isTemplate (key : string) : bool :=
  includes "{" key && includes "}" key.

(** ** The OpenAPI document ([types/index.ts]) *)

Inductive EnumValue : Type :=
| EnumString (s : string)
| EnumNumber (n : Z).

Record ISchemaObject : Type := mkSchema {
  schema_type : option string;
  schema_format : option string;
  schema_pattern : option string;
  schema_enum : option (list EnumValue)
}.

Record IParameterObject : Type := mkParameter {
  param_name : option string;
  param_schema : option ISchemaObject;
  param_ref : option string
}.

Record IOperationObject : Type := mkOperation {
  op_parameters : option (list IParameterObject)
}.

(** A path item: its [parameters] and its operations by own key
    (['get'], ['post'], ...). *)
Record IPathItem : Type := mkPathItem {
  item_parameters : option (list IParameterObject);
  item_operations : list (string * IOperationObject)
}.

(** [paths] lists the entries in [Object.entries] order; a [None] item is a
    null (falsy) value.  [components_parameters] is only looked up. *)
Record IOpenAPIDocument : Type := mkDocument {
  paths : option (list (string * option IPathItem));
  components_parameters : option (gmap string IParameterObject)
}.

(** [IPathPattern]: a matcher, its template and an optional priority. *)
Record IPathPattern : Type := mkPathPattern {
  pattern : RegExp;
  template : string;
  priority : option Z
}.

(** Own-property lookup [obj[key]] in an object given by its entries. *)
Fixpoint objGet {A : Type} (entries : list (string * A)) (key : string) : option A :=
  match entries with
  | [] => None
  | (k, v) :: rest => if String.eqb k key then Some v else objGet rest key
  end.

(** ** [normalizePath] ([utils/path-normalizer.ts]) *)

(** [path.startsWith('/') ? path : `/${path}`] *)
Definition slashNormalize (path : string) : string :=
  if startsWith "/" path then path else "/" +:+ path.

(** [apiSpec?.paths && apiSpec.paths[key]], as a truth value.  The keys
    looked up in step 1 start with [/], which no property inherited from
    [Object.prototype] does; in the pattern loop both outcomes of the
    lookup return the same string. *)
Definition specHasPath (apiSpec : option IOpenAPIDocument) (key : string) : bool :=
  match apiSpec with
  | Some doc =>
      match paths doc with
      | Some entries =>
          match objGet entries key with
          | Some (Some _) => true
          | _ => false
          end
      | None => false
      end
  | None => false
  end.

(** The inner loop of step 1.5 over [specSegments], reading
    [pathSegments[i]] (undefined past the end). *)
Fixpoint segmentsMatch (specSegments pathSegments : list string) : bool :=
  match specSegments with
  | [] => true
  | specSegment :: specRest =>
      if isParamSegment specSegment then segmentsMatch specRest (tail pathSegments)
      else
        match pathSegments with
        | pathSegment :: pathRest =>
            if String.eqb specSegment pathSegment
            then segmentsMatch specRest pathRest
            else false
        | [] => false
        end
  end.

(** One spec path against the path's segments: equal segment counts, then
    the segment loop. *)
Definition structuralMatch (specPath : string) (pathSegments : list string) : bool :=
  let specSegments := segments specPath in
  if Nat.eqb (length pathSegments) (length specSegments)
  then segmentsMatch specSegments pathSegments
  else false.

(** The loop over [Object.entries(apiSpec.paths)]: the first entry with a
    truthy item that matches structurally. *)
Fixpoint findStructural (entries : list (string * option IPathItem))
    (pathSegments : list string) : option string :=
  match entries with
  | [] => None
  | (specPath, pathItem) :: rest =>
      match pathItem with
      | None => findStructural rest pathSegments
      | Some _ =>
          if structuralMatch specPath pathSegments then Some specPath
          else findStructural rest pathSegments
      end
  end.

(** Steps 1 and 1.5: the exact match, then the structural match. *)
Definition specResult (normalizedInputPath : string)
    (apiSpec : option IOpenAPIDocument) : option string :=
  if specHasPath apiSpec normalizedInputPath then Some normalizedInputPath
  else
    match apiSpec with
    | Some doc =>
        match paths doc with
        | Some entries => findStructural entries (segments normalizedInputPath)
        | None => None
        end
    | None => None
    end.

(** [p.priority || 0] *)
Definition prio (p : IPathPattern) : Z := default 0%Z (priority p).

(** [[...customPatterns].sort((a, b) => (b.priority || 0) - (a.priority || 0))].
    [Array.prototype.sort] is stable, so the result is the one stable
    arrangement by descending priority; insertion from the right computes
    it (an element goes in front of the later elements that do not have a
    higher priority). *)
Fixpoint insertByPriority (x : IPathPattern) (l : list IPathPattern)
    : list IPathPattern :=
  match l with
  | [] => [x]
  | y :: ys =>
      if (prio y <=? prio x)%Z then x :: y :: ys
      else y :: insertByPriority x ys
  end.

Definition sortByPriority (l : list IPathPattern) : list IPathPattern :=
  foldr insertByPriority [] l.

(** The body of the pattern loop for one pattern: [None] when the loop goes
    on to the next pattern (empty template, no match, or an exception caught
    by the [try]), [Some result] when it returns. *)
Definition tryPattern (normalizedInputPath : string)
    (apiSpec : option IOpenAPIDocument) (patternObj : IPathPattern)
    : option string :=
  if truthy (template patternObj) then
    match re_test (pattern patternObj) normalizedInputPath with
    | Some true =>
        match re_replace (pattern patternObj) normalizedInputPath
                (template patternObj) with
        | Some result =>
            if specHasPath apiSpec result
            then Some result   (* the canonical form of the spec *)
            else Some result   (* only the log level differs *)
        | None => None
        end
    | _ => None
    end
  else None.

Fixpoint tryPatterns (normalizedInputPath : string)
    (apiSpec : option IOpenAPIDocument) (sortedPatterns : list IPathPattern)
    : option string :=
  match sortedPatterns with
  | [] => None
  | patternObj :: rest =>
      match tryPattern normalizedInputPath apiSpec patternObj with
      | Some result => Some result
      | None => tryPatterns normalizedInputPath apiSpec rest
      end
  end.

(** Step 2 of the source: the sorted patterns tried in order. *)
Definition patternResult (normalizedInputPath : string)
    (apiSpec : option IOpenAPIDocument) (customPatterns : list IPathPattern)
    : option string :=
  tryPatterns normalizedInputPath apiSpec (sortByPriority customPatterns).

(** [normalizePath(path, apiSpec, customPatterns)]; an absent
    [customPatterns] is the empty list (both skip step 2). *)
Definition normalizePath (path : string) (apiSpec : option IOpenAPIDocument)
    (customPatterns : list IPathPattern) : string :=
  if negb (truthy path) then ""
  else
    let normalizedInputPath := slashNormalize path in
    match specResult normalizedInputPath apiSpec with
    | Some specPath => specPath
    | None =>
        match patternResult normalizedInputPath apiSpec customPatterns with
        | Some result => result
        | None => normalizedInputPath
        end
    end.

(** *** Sample inputs *)

(** The pattern [/^lit$/] for a literal [lit] without metacharacters, used
    with templates that contain no [$]. *)
Definition literalRegExp (lit : string) : RegExp :=
  {| re_test := fun s => Some (String.eqb s lit);
     re_replace := fun s t => Some (if String.eqb s lit then t else s) |}.

Definition emptyItem : IPathItem :=
  {| item_parameters := None; item_operations := [] |}.

Definition docOfPaths (ps : list string) : IOpenAPIDocument :=
  {| paths := Some (map (fun p => (p, Some emptyItem)) ps);
     components_parameters := None |}.

(** ** The hit set of the request interceptor ([utils/axios-interceptors.ts]) *)

Definition isHexLower (c : ascii) : bool :=
  let n := nat_of_ascii c in
  ((48 <=? n) && (n <=? 57) || (97 <=? n) && (n <=? 102))%nat.

Fixpoint allHexLower (s : string) : bool :=
  match s with
  | EmptyString => true
  | String c s' => isHexLower c && allHexLower s'
  end.

(** [/^[0-9a-f]{24}$/.test(seg)] *)
Definition isObjectId (seg : string) : bool :=
  Nat.eqb (String.length seg) 24 && allHexLower seg.

(** [const [method, path] = endpoint.split(' ', 2)]: the method is always a
    string, the path is undefined when the endpoint has no space. *)
Definition keyParts (endpoint : string) : list string :=
  splitLimit " " 2 endpoint.

Definition methodOf (endpoint : string) : string :=
  match keyParts endpoint with
  | m :: _ => m
  | [] => ""
  end.

Definition pathOf (endpoint : string) : option string :=
  keyParts endpoint !! 1%nat.

(** The segment loop of [endpointMatchesTemplate]; the ObjectId test has
    the same outcome on both of its branches. *)
Fixpoint templateSegmentsMatch (templateSegments concreteSegments : list string)
    : bool :=
  match templateSegments with
  | [] => true
  | templateSegment :: templateRest =>
      if isParamSegment templateSegment then
        if match concreteSegments with
           | concreteSegment :: _ => isObjectId concreteSegment
           | [] => false
           end
        then templateSegmentsMatch templateRest (tail concreteSegments)
        else templateSegmentsMatch templateRest (tail concreteSegments)
      else
        match concreteSegments with
        | concreteSegment :: concreteRest =>
            if String.eqb templateSegment concreteSegment
            then templateSegmentsMatch templateRest concreteRest
            else false
        | [] => false
        end
  end.

(** [endpointMatchesTemplate(concreteEndpoint, templateEndpoint)]; [None]
    is the TypeError of [undefined.split('/')] for an endpoint without a
    path, which is only reached when the methods are equal. *)
Definition endpointMatchesTemplate (concreteEndpoint templateEndpoint : string)
    : option bool :=
  let concreteMethod := methodOf concreteEndpoint in
  let templateMethod := methodOf templateEndpoint in
  if negb (String.eqb concreteMethod templateMethod) then Some false
  else
    match pathOf concreteEndpoint with
    | None => None
    | Some concretePath =>
        match pathOf templateEndpoint with
        | None => None
        | Some templatePath =>
            let concreteSegments := segments concretePath in
            let templateSegments := segments templatePath in
            if negb (Nat.eqb (length concreteSegments) (length templateSegments))
            then Some false
            else Some (templateSegmentsMatch templateSegments concreteSegments)
        end
    end.

(** [Set.prototype.add] and [Set.prototype.delete] on a set kept in
    insertion order. *)
Definition setHas (s : list string) (x : string) : bool :=
  existsb (String.eqb x) s.

Definition setAdd (s : list string) (x : string) : list string :=
  if setHas s x then s else s ++ [x].

Definition setDelete (s : list string) (x : string) : list string :=
  List.filter (fun y => negb (String.eqb y x)) s.

(** The [forEach] that collects [endpointsToRemove] for a templated [key];
    [None] when [endpointMatchesTemplate] throws. *)
Fixpoint collectRemovals (existing : list string) (key : string)
    : option (list string) :=
  match existing with
  | [] => Some []
  | existingEndpoint :: rest =>
      if isTemplate existingEndpoint then collectRemovals rest key
      else
        match endpointMatchesTemplate existingEndpoint key with
        | None => None
        | Some matches =>
            match collectRemovals rest key with
            | None => None
            | Some toRemove =>
                Some (if matches then existingEndpoint :: toRemove else toRemove)
            end
        end
  end.

(** The loop that looks for a template matching a concrete [key]. *)
Fixpoint hasMatchingTemplate (existing : list string) (key : string)
    : option bool :=
  match existing with
  | [] => Some false
  | existingEndpoint :: rest =>
      if negb (isTemplate existingEndpoint) then hasMatchingTemplate rest key
      else
        match endpointMatchesTemplate key existingEndpoint with
        | None => None
        | Some true => Some true
        | Some false => hasMatchingTemplate rest key
        end
  end.

(** The deduplication of the request interceptor on one key.  An exception
    is caught by the interceptor's own [catch]: the set is left as it was
    when the exception was raised. *)
Definition recordHit (hitEndpoints : list string) (key : string) : list string :=
  if isTemplate key then
    let added := setAdd hitEndpoints key in
    match collectRemovals added key with
    | Some endpointsToRemove => fold_left setDelete endpointsToRemove added
    | None => added
    end
  else
    match hasMatchingTemplate hitEndpoints key with
    | Some false => setAdd hitEndpoints key
    | Some true => hitEndpoints
    | None => hitEndpoints
    end.

Definition upperAscii (c : ascii) : ascii :=
  let n := nat_of_ascii c in
  if ((97 <=? n) && (n <=? 122))%nat then ascii_of_nat (n - 32) else c.

Fixpoint toUpperCase (s : string) : string :=
  match s with
  | EmptyString => EmptyString
  | String c s' => String (upperAscii c) (toUpperCase s')
  end.

(** One observed request: [`${method} ${normalizedPath}`] for the method
    [(config.method || 'GET').toUpperCase()]. *)
Record Observation : Type := mkObservation {
  obs_method : option string;
  obs_normalizedPath : string
}.

Definition endpointKey (o : Observation) : string :=
  let method :=
    toUpperCase (match obs_method o with
                 | Some m => if truthy m then m else "GET"
                 | None => "GET"
                 end) in
  method +:+ " " +:+ obs_normalizedPath o.

(** The request interceptor from the parsed URL on: normalise, form the
    key, deduplicate. *)
Definition trackRequest (apiSpec : option IOpenAPIDocument)
    (customPatterns : list IPathPattern) (hitEndpoints : list string)
    (method : option string) (pathname : string) : list string :=
  let normalizedPath := normalizePath pathname apiSpec customPatterns in
  recordHit hitEndpoints
    (endpointKey {| obs_method := method; obs_normalizedPath := normalizedPath |}).

(** The hit set after a sequence of observations, from the empty set. *)
Definition recordAll (observations : list Observation) : list string :=
  fold_left (fun hit o => recordHit hit (endpointKey o)) observations [].

(** ** [extractEndpointsFromSpec] ([lib/openapi-processor.ts]) *)

Definition operationKeys : list string :=
  ["get"; "put"; "post"; "delete"; "options"; "head"; "patch"; "trace"].

(** The endpoints of one path item: its own keys that name an operation,
    each as [`${method.toUpperCase()} ${pathKey}`]. *)
Definition endpointsOfItem (pathKey : string) (pathItem : IPathItem) : list string :=
  map (fun method => toUpperCase method +:+ " " +:+ pathKey)
    (List.filter (fun key => setHas operationKeys (toLowerCase key))
       (map fst (item_operations pathItem))).

Definition extractEndpointsFromSpec (apiSpec : option IOpenAPIDocument)
    : list string :=
  match apiSpec with
  | Some doc =>
      match paths doc with
      | Some entries =>
          fold_left
            (fun specEndpoints entry =>
               match snd entry with
               | None => specEndpoints
               | Some pathItem =>
                   fold_left setAdd (endpointsOfItem (fst entry) pathItem) specEndpoints
               end)
            entries []
      | None => []
      end
  | None => []
  end.

(** ** Fixed regular expressions of the report generator

    The regular expressions written in the source are modelled by the
    string functions they compute. *)

(** [s.replace(/\/+/g, '/')] *)
Fixpoint collapseSlashes (s : string) : string :=
  match s with
  | EmptyString => EmptyString
  | String c s' =>
      if Ascii.eqb c "/" && startsWith "/" s' then collapseSlashes s'
      else String c (collapseSlashes s')
  end.

(** The index of the first [}] of [s]. *)
Fixpoint closingAt (s : string) : option nat :=
  match s with
  | EmptyString => None
  | String c s' => if Ascii.eqb c "}" then Some O else option_map S (closingAt s')
  end.

(** A match of [[^}]+\}] at the head of [s] (the text behind a [{]): the
    number of characters it takes, the closing brace included. *)
Definition paramMatchLength (s : string) : option nat :=
  match closingAt s with
  | Some (S n) => Some (S (S n))
  | _ => None
  end.

(** [s.replace(/\{[^}]+\}/g, '{PARAM}')]; [skip] counts the characters of
    the current match that are still to be passed over. *)
Fixpoint replaceParamsFrom (skip : nat) (s : string) : string :=
  match s with
  | EmptyString => EmptyString
  | String c s' =>
      match skip with
      | S k => replaceParamsFrom k s'
      | O =>
          if Ascii.eqb c "{" then
            match paramMatchLength s' with
            | Some n => "{PARAM}" +:+ replaceParamsFrom n s'
            | None => String c (replaceParamsFrom O s')
            end
          else String c (replaceParamsFrom O s')
      end
  end.

Definition replaceParams (s : string) : string := replaceParamsFrom O s.

(** [n] characters of [[0-9a-f]] at the head of [s]: the rest of [s]. *)
Fixpoint hexRun (n : nat) (s : string) : option string :=
  match n with
  | O => Some s
  | S k =>
      match s with
      | String c s' => if isHexLower c then hexRun k s' else None
      | EmptyString => None
      end
  end.

(** A match of [[0-9a-f]{24}(?:\/|$)] at the head of [s] (the text behind
    a [/]): the number of characters it takes. *)
Definition objectIdMatchLength (s : string) : option nat :=
  match hexRun 24 s with
  | Some EmptyString => Some 24
  | Some (String c _) => if Ascii.eqb c "/" then Some 25 else None
  | None => None
  end.

(** [s.replace(/\/[0-9a-f]{24}(?:\/|$)/g, '/{id}/')] *)
Fixpoint replaceObjectIdsFrom (skip : nat) (s : string) : string :=
  match s with
  | EmptyString => EmptyString
  | String c s' =>
      match skip with
      | S k => replaceObjectIdsFrom k s'
      | O =>
          if Ascii.eqb c "/" then
            match objectIdMatchLength s' with
            | Some n => "/{id}/" +:+ replaceObjectIdsFrom n s'
            | None => String c (replaceObjectIdsFrom O s')
            end
          else String c (replaceObjectIdsFrom O s')
      end
  end.

Definition replaceObjectIds (s : string) : string := replaceObjectIdsFrom O s.

(** [[...s.matchAll(/{([^}]+)}/g)].map((match) => match[1])] *)
Fixpoint paramNamesFrom (skip : nat) (s : string) : list string :=
  match s with
  | EmptyString => []
  | String c s' =>
      match skip with
      | S k => paramNamesFrom k s'
      | O =>
          if Ascii.eqb c "{" then
            match paramMatchLength s' with
            | Some n => substring 0 (n - 1) s' :: paramNamesFrom n s'
            | None => paramNamesFrom O s'
            end
          else paramNamesFrom O s'
      end
  end.

Definition paramNames (templatePath : string) : list string :=
  paramNamesFrom O templatePath.

(** [s.replace(/\//g, '\\/')] *)
Fixpoint escapeSlashes (s : string) : string :=
  match s with
  | EmptyString => EmptyString
  | String c s' =>
      if Ascii.eqb c "/" then String "\" (String "/" (escapeSlashes s'))
      else String c (escapeSlashes s')
  end.

(** ** Insertion-ordered maps ([Map], and objects that are enumerated) *)

Fixpoint mapSet {A : Type} (m : list (string * A)) (k : string) (v : A)
    : list (string * A) :=
  match m with
  | [] => [(k, v)]
  | (k', v') :: rest =>
      if String.eqb k' k then (k', v) :: rest else (k', v') :: mapSet rest k v
  end.

Definition mapHas {A : Type} (m : list (string * A)) (k : string) : bool :=
  match objGet m k with
  | Some _ => true
  | None => false
  end.

Definition mapValues {A : Type} (m : list (string * A)) : list A := map snd m.

(** ** [generatePathPatterns] ([lib/openapi-processor.ts]) *)

(** What [paramInfoMap] keeps of a parameter's schema. *)
Record ParamInfo : Type := mkParamInfo {
  info_type : option string;
  info_format : option string;
  info_pattern : option string;
  info_enum : option (list EnumValue)
}.

Definition infoOfSchema (schema : ISchemaObject) : ParamInfo :=
  {| info_type := schema_type schema;
     info_format := schema_format schema;
     info_pattern := schema_pattern schema;
     info_enum := schema_enum schema |}.

Definition parameterMethods : list string :=
  ["get"; "post"; "put"; "delete"; "patch"; "options"; "head"].

(** [allParameters]: the path-level parameters, then those of the
    operations in the order of [parameterMethods]. *)
Definition allParametersOf (pathItem : IPathItem) : list IParameterObject :=
  default [] (item_parameters pathItem)
  ++ flat_map
       (fun method =>
          match objGet (item_operations pathItem) method with
          | Some operation => default [] (op_parameters operation)
          | None => []
          end)
       parameterMethods.

(** [paramInfoMap.get(paramName)]: the schema of the parameter's own
    definition, or of the component its [$ref] names; [None] when the
    parameter is not resolved. *)
Definition paramInfoFor (parameterDefinitions : gmap string IParameterObject)
    (allParameters : list IParameterObject) (paramName : string)
    : option ParamInfo :=
  match List.find (fun p => bool_decide (param_name p = Some paramName)) allParameters with
  | None => None
  | Some paramDef =>
      match param_schema paramDef with
      | Some schema => Some (infoOfSchema schema)
      | None =>
          match param_ref paramDef with
          | Some ref =>
              if truthy ref then
                let refName := List.last (split "/" ref) "" in
                if truthy refName then
                  match parameterDefinitions !! refName with
                  | Some refParamDef => option_map infoOfSchema (param_schema refParamDef)
                  | None => None
                  end
                else None
              else None
          | None => None
          end
      end
  end.

Definition enumString (v : EnumValue) : string :=
  match v with
  | EnumString s => s
  | EnumNumber n => stringOfZ n
  end.

(** The conditions of the [if] chain that picks a parameter's matcher. *)
Definition hasPattern (info : ParamInfo) : bool :=
  match info_pattern info with
  | Some p => truthy p
  | None => false
  end.

Definition hasEnum (info : ParamInfo) : bool :=
  match info_enum info with
  | Some (_ :: _) => true
  | _ => false
  end.

Definition typeIs (t : string) (info : ParamInfo) : bool :=
  bool_decide (info_type info = Some t).

Definition formatIs (f : string) (info : ParamInfo) : bool :=
  bool_decide (info_format info = Some f).

Definition genericMatcher : string := "([^/]+)".
Definition digitsMatcher : string := "(\d+)".
Definition uuidMatcher : string :=
  "([0-9a-f]{8}-[0-9a-f]{4}-[0-9a-f]{4}-[0-9a-f]{4}-[0-9a-f]{12})".
Definition dateMatcher : string := "(\d{4}-\d{2}-\d{2})".
Definition dateTimeMatcher : string :=
  "(\d{4}-\d{2}-\d{2}T\d{2}:\d{2}:\d{2}(\.\d+)?(Z|[+-]\d{2}:\d{2}))".
Definition idMatcher : string :=
  "([0-9a-f]{24}|[0-9a-f]{8}-[0-9a-f]{4}-[0-9a-f]{4}-[0-9a-f]{4}-[0-9a-f]{12}|\d+)".

(** [paramPattern] for one parameter of the template. *)
Definition paramPatternFor (paramName : string) (paramInfo : option ParamInfo)
    : string :=
  match paramInfo with
  | None => genericMatcher
  | Some info =>
      if hasPattern info then "(" +:+ default "" (info_pattern info) +:+ ")"
      else if hasEnum info
      then "(" +:+ join "|" (map enumString (default [] (info_enum info))) +:+ ")"
      else if typeIs "integer" info || typeIs "number" info then digitsMatcher
      else if formatIs "uuid" info then uuidMatcher
      else if formatIs "date" info then dateMatcher
      else if formatIs "date-time" info then dateTimeMatcher
      else if typeIs "string" info && includes "id" (toLowerCase paramName)
      then idMatcher
      else genericMatcher
  end.

Section WithRegExpEnginePatterns.

Variable newRegExp : string -> string -> option RegExp.

(** [patternString.replace(new RegExp(`\\{${paramName}\\}`, 'g'),
    paramPattern)]; [None] when the expression does not compile or the
    replacement throws. *)
Definition substituteParam (patternString paramName paramPattern : string)
    : option string :=
  match newRegExp ("\{" +:+ paramName +:+ "\}") "g" with
  | None => None
  | Some regex => re_replace regex patternString paramPattern
  end.

Fixpoint substituteParams (infoFor : string -> option ParamInfo)
    (names : list string) (patternString : string) : option string :=
  match names with
  | [] => Some patternString
  | paramName :: rest =>
      match substituteParam patternString paramName
              (paramPatternFor paramName (infoFor paramName)) with
      | None => None
      | Some next => substituteParams infoFor rest next
      end
  end.

(** The source of the pattern of one templated path:
    [`^${patternString.replace(/\//g, '\\/')}$`]. *)
Definition patternStringFor (doc : IOpenAPIDocument) (pathItem : IPathItem)
    (templatePath : string) : option string :=
  let parameterDefinitions := default ∅ (components_parameters doc) in
  let allParameters := allParametersOf pathItem in
  match substituteParams (paramInfoFor parameterDefinitions allParameters)
          (paramNames templatePath) templatePath with
  | None => None
  | Some patternString => Some ("^" +:+ escapeSlashes patternString +:+ "$")
  end.

(** The body of the [try] for one templated path; [None] is an exception,
    which the [catch] logs. *)
Definition patternForPath (doc : IOpenAPIDocument) (pathItem : IPathItem)
    (templatePath : string) : option IPathPattern :=
  match patternStringFor doc pathItem templatePath with
  | None => None
  | Some patternString =>
      match newRegExp patternString "" with
      | None => None
      | Some regex =>
          Some {| pattern := regex; template := templatePath;
                  priority := Some 50%Z |}
      end
  end.

(** What one key of [apiSpec.paths] adds to [patterns]. *)
Definition patternsOfPath (doc : IOpenAPIDocument)
    (entries : list (string * option IPathItem)) (templatePath : string)
    : list IPathPattern :=
  if negb (includes "{" templatePath) then []
  else
    match objGet entries templatePath with
    | Some (Some pathItem) =>
        match patternForPath doc pathItem templatePath with
        | Some p => [p]
        | None => []
        end
    | _ => []
    end.

Definition generatePathPatterns (apiSpec : option IOpenAPIDocument)
    : list IPathPattern :=
  match apiSpec with
  | Some doc =>
      match paths doc with
      | Some entries => flat_map (patternsOfPath doc entries) (map fst entries)
      | None => []
      end
  | None => []
  end.

End WithRegExpEnginePatterns.

(** ** [normalizeEndpoints] ([lib/report-generator.ts]) *)

Record IEndpointPattern : Type := mkEndpointPattern {
  ep_pattern : string;
  ep_replace : string
}.

(** [s.includes('}{') || s.includes('}}') || s.includes('{{')] *)
Definition malformed (s : string) : bool :=
  includes "}{" s || includes "}}" s || includes "{{" s.

(** [`${method} ${path.replace(/\{[^}]+\}/g, '{PARAM}')}`] from the two
    parts of an endpoint. *)
Definition structureKey (method path : string) : string :=
  method +:+ " " +:+ replaceParams path.

Section WithRegExpEngine.

(** [new RegExp(source, flags)] of the JavaScript runtime; [None] is the
    SyntaxError of a source that does not compile. *)
Variable newRegExp : string -> string -> option RegExp.

(** One turn of the loop over the patterns; an exception leaves
    [normalizedPath] as it was. *)
Definition applyEndpointPattern (normalizedPath : string) (p : IEndpointPattern)
    : string :=
  match newRegExp (ep_pattern p) "" with
  | None => normalizedPath
  | Some regex =>
      match re_test regex normalizedPath with
      | Some true =>
          match re_replace regex normalizedPath ("{" +:+ ep_replace p +:+ "}") with
          | Some replaced => collapseSlashes replaced
          | None => normalizedPath
          end
      | _ => normalizedPath
      end
  end.

Definition applyEndpointPatterns (path : string) (patterns : list IEndpointPattern)
    : string :=
  fold_left applyEndpointPattern patterns path.

(** The normalised endpoint of one hit: [None] when the first pass skips
    it (a malformed endpoint, or one without a path). *)
Definition normalizedEndpointOf (patterns : list IEndpointPattern)
    (endpoint : string) : option (string * string) :=
  if malformed endpoint then None
  else
    match pathOf endpoint with
    | None => None
    | Some path =>
        if negb (truthy path) then None
        else
          let method := methodOf endpoint in
          let substituted := applyEndpointPatterns path patterns in
          let normalizedPath := if malformed substituted then path else substituted in
          Some (structureKey method normalizedPath, method +:+ " " +:+ normalizedPath)
    end.

(** The body of the first pass on the map of normalised endpoints. *)
Definition normalizeEndpointStep (patterns : list IEndpointPattern)
    (normalizedEndpoints : list (string * string)) (endpoint : string)
    : list (string * string) :=
  match normalizedEndpointOf patterns endpoint with
  | None => normalizedEndpoints
  | Some (key, normalizedEndpoint) =>
      if isTemplate normalizedEndpoint
      then mapSet normalizedEndpoints key normalizedEndpoint
      else if negb (mapHas normalizedEndpoints key)
           then mapSet normalizedEndpoints key normalizedEndpoint
           else normalizedEndpoints
  end.

Definition normalizeEndpoints (endpoints : list string)
    (patterns : list IEndpointPattern) : list string :=
  match patterns with
  | [] => endpoints
  | _ :: _ => mapValues (fold_left (normalizeEndpointStep patterns) endpoints [])
  end.

End WithRegExpEngine.

(** ** Numbers of the report

    Counts are integers; a percentage is a JavaScript number, an IEEE 754
    binary64 value, as [float] is. *)

Definition numberOfNat (n : nat) : float :=
  PrimFloat.of_uint63 (Uint63.of_Z (Z.of_nat n)).

(** The integer [n] for which [n / 100] is closest to [x], the larger one
    of two: the digits [x.toFixed(2)] prints ([x] finite). *)
Definition hundredths (x : float) : Z :=
  match Prim2SF x with
  | S754_finite negative m e =>
      let mantissa := if negative then Z.neg m else Z.pos m in
      if (0 <=? e)%Z then (100 * mantissa * 2 ^ e)%Z
      else ((200 * mantissa + 2 ^ (- e)) / 2 ^ (1 - e))%Z
  | _ => 0%Z
  end.

(** [parseFloat(x.toFixed(2))] for a finite [x] below [1e21]: the double
    closest to the printed decimal, which the correctly rounded quotient of
    the two integers is. *)
Definition roundToTwoDecimals (x : float) : float :=
  match Prim2SF x with
  | S754_finite _ _ _ | S754_zero _ =>
      let n := hundredths x in
      if (n <? 0)%Z
      then (- (PrimFloat.of_uint63 (Uint63.of_Z (- n))) / 100)%float
      else (PrimFloat.of_uint63 (Uint63.of_Z n) / 100)%float
  | _ => x
  end.

(** [(tested / total) * 100] *)
Definition percentOf (tested total : nat) : float :=
  ((numberOfNat tested / numberOfNat total) * 100)%float.

(** ** [generateMethodCoverage] ([lib/report-generator.ts]) *)

Record IMethodCoverage : Type := mkMethodCoverage {
  mc_total : nat;
  mc_tested : nat;
  mc_percentage : float
}.

Definition standardMethods : list string :=
  ["GET"; "POST"; "PUT"; "DELETE"; "PATCH"; "OPTIONS"; "HEAD"].

(** The counters after the initialising [forEach]. *)
Definition initialMethodCoverage : gmap string IMethodCoverage :=
  fold_left (fun mc method => <[method := mkMethodCoverage 0 0 0%float]> mc)
    standardMethods ∅.

(** The body of the counting [forEach]; [const [method] =
    endpoint.split(' ')] is the first part of the endpoint.  A method
    without a counter leaves the counters as they are (a name that is only
    found on [Object.prototype] adds no key to [methodCoverage]). *)
Definition countEndpoint (tested : list string)
    (methodCoverage : gmap string IMethodCoverage) (endpoint : string)
    : gmap string IMethodCoverage :=
  let method := methodOf endpoint in
  match methodCoverage !! method with
  | Some c =>
      <[method := {| mc_total := mc_total c + 1;
                     mc_tested := if setHas tested endpoint
                                  then mc_tested c + 1 else mc_tested c;
                     mc_percentage := mc_percentage c |}]> methodCoverage
  | None => methodCoverage
  end.

(** The body of the [forEach] that fills in the percentages. *)
Definition withPercentage (c : IMethodCoverage) : IMethodCoverage :=
  if (0 <? mc_total c)%nat
  then {| mc_total := mc_total c; mc_tested := mc_tested c;
          mc_percentage := roundToTwoDecimals (percentOf (mc_tested c) (mc_total c)) |}
  else c.

Definition generateMethodCoverage (specEndpoints tested : list string)
    : gmap string IMethodCoverage :=
  withPercentage <$> fold_left (countEndpoint tested) specEndpoints initialMethodCoverage.

(** ** [generateServerErrorStats] ([lib/report-generator.ts]) *)

Record IServerErrorRecord : Type := mkServerErrorRecord {
  err_count : Z;
  err_statusCodes : gmap string Z;
  err_lastError : option string
}.

Record IServerErrorStats : Type := mkServerErrorStats {
  totalServerErrors : Z;
  statusCodeCounts : gmap string Z;
  errorsByEndpoint : list (string * Z)
}.

(** The group of one structure key: [{ endpoints, records }]. *)
Record ErrorGroup : Type := mkErrorGroup {
  group_endpoints : list string;
  group_records : list IServerErrorRecord
}.

(** [`${method} ${path.replace(/\/[0-9a-f]{24}(?:\/|$)/g, '/{id}/')}`];
    [None] is the TypeError for an endpoint without a path. *)
Definition errorStructureKey (endpoint : string) : option string :=
  match pathOf endpoint with
  | None => None
  | Some path => Some (methodOf endpoint +:+ " " +:+ replaceObjectIds path)
  end.

(** The body of the grouping loop on [errorsByStructure]. *)
Definition groupErrorStep (errorsByStructure : list (string * ErrorGroup))
    (key endpoint : string) (record : IServerErrorRecord)
    : list (string * ErrorGroup) :=
  let group :=
    match objGet errorsByStructure key with
    | Some g => g
    | None => {| group_endpoints := []; group_records := [] |}
    end in
  mapSet errorsByStructure key
    {| group_endpoints := group_endpoints group ++ [endpoint];
       group_records := group_records group ++ [record] |}.

Fixpoint groupErrorsFrom (errorsByStructure : list (string * ErrorGroup))
    (entries : list (string * IServerErrorRecord))
    : option (list (string * ErrorGroup)) :=
  match entries with
  | [] => Some errorsByStructure
  | (endpoint, record) :: rest =>
      match errorStructureKey endpoint with
      | None => None
      | Some key =>
          groupErrorsFrom (groupErrorStep errorsByStructure key endpoint record) rest
      end
  end.

Definition groupErrors (allServerErrors : list (string * IServerErrorRecord))
    : option (list (string * ErrorGroup)) :=
  groupErrorsFrom [] allServerErrors.

(** [merged[status] = (merged[status] || 0) + count] over the entries of
    one histogram. *)
Definition mergeStatusCodes (merged codes : gmap string Z) : gmap string Z :=
  map_fold (fun status count acc => <[status := (default 0 (acc !! status) + count)%Z]> acc)
    merged codes.

(** The loop over the records of a group on [mergedRecord]. *)
Definition mergeRecord (mergedRecord record : IServerErrorRecord)
    : IServerErrorRecord :=
  {| err_count := (err_count mergedRecord + err_count record)%Z;
     err_statusCodes :=
       mergeStatusCodes (err_statusCodes mergedRecord) (err_statusCodes record);
     err_lastError := err_lastError mergedRecord |}.

(** [group.records[0]?.lastError || ''] *)
Definition firstLastError (records : list IServerErrorRecord) : string :=
  match records with
  | record :: _ =>
      match err_lastError record with
      | Some message => if truthy message then message else ""
      | None => ""
      end
  | [] => ""
  end.

Definition mergedRecordOf (group : ErrorGroup) : IServerErrorRecord :=
  fold_left mergeRecord (group_records group)
    {| err_count := 0; err_statusCodes := ∅;
       err_lastError := Some (firstLastError (group_records group)) |}.

(** [templatedEndpoint || group.endpoints[0]] *)
Definition targetEndpointOf (group : ErrorGroup) : string :=
  match List.find isTemplate (group_endpoints group) with
  | Some templatedEndpoint => templatedEndpoint
  | None =>
      match group_endpoints group with
      | first :: _ => first
      | [] => "undefined"
      end
  end.

(** [normalizedErrors], the object filled by the loop over the groups. *)
Definition normalizedErrorsOf (groups : list (string * ErrorGroup))
    : list (string * IServerErrorRecord) :=
  fold_left (fun normalizedErrors g =>
               mapSet normalizedErrors (targetEndpointOf (snd g)) (mergedRecordOf (snd g)))
    groups [].

Definition normalizedErrors (allServerErrors : list (string * IServerErrorRecord))
    : option (list (string * IServerErrorRecord)) :=
  option_map normalizedErrorsOf (groupErrors allServerErrors).

Definition generateServerErrorStats
    (allServerErrors : list (string * IServerErrorRecord))
    : option IServerErrorStats :=
  match normalizedErrors allServerErrors with
  | None => None
  | Some normalized =>
      Some {| totalServerErrors :=
                fold_left (fun sum r => (sum + err_count r)%Z) (mapValues normalized) 0%Z;
              statusCodeCounts :=
                fold_left (fun counts r => mergeStatusCodes counts (err_statusCodes r))
                  (mapValues normalized) ∅;
              errorsByEndpoint := map (fun e => (fst e, err_count (snd e))) normalized |}
  end.

(** ** [generateCoverageReport] ([lib/report-generator.ts]) *)

(** [`${method} ${path.replace(/\{[^}]+\}/g, '{PARAM}')}`] of an endpoint;
    [None] is the TypeError for an endpoint without a path. *)
Definition structureKeyOf (endpoint : string) : option string :=
  match pathOf endpoint with
  | None => None
  | Some path => Some (structureKey (methodOf endpoint) path)
  end.

(** [specEndpointsStructures]: a later spec endpoint of the same structure
    replaces an earlier one. *)
Fixpoint specStructuresFrom (structures : gmap string string)
    (specEndpoints : list string) : option (gmap string string) :=
  match specEndpoints with
  | [] => Some structures
  | endpoint :: rest =>
      match structureKeyOf endpoint with
      | None => None
      | Some key => specStructuresFrom (<[key := endpoint]> structures) rest
      end
  end.

(** The [forEach] over the hits: [(additionalTested, realExtraEndpoints)]. *)
Fixpoint classifyHits (specEndpoints : list string)
    (structures : gmap string string) (hits : list string)
    : option (list string * list string) :=
  match hits with
  | [] => Some ([], [])
  | endpoint :: rest =>
      if setHas specEndpoints endpoint
      then classifyHits specEndpoints structures rest
      else
        match structureKeyOf endpoint with
        | None => None
        | Some key =>
            match classifyHits specEndpoints structures rest with
            | None => None
            | Some (additionalTested, realExtraEndpoints) =>
                match structures !! key with
                | Some specEndpoint =>
                    Some (if truthy specEndpoint
                          then specEndpoint :: additionalTested
                          else additionalTested,
                          realExtraEndpoints)
                | None => Some (additionalTested, endpoint :: realExtraEndpoints)
                end
            end
        end
  end.

(** [[...new Set(l)]] *)
Definition uniq (l : list string) : list string := fold_left setAdd l [].

(** The deduplication of the extra endpoints by structure key. *)
Fixpoint extraByStructureFrom (byStructure : list (string * string))
    (realExtraEndpoints : list string) : option (list (string * string)) :=
  match realExtraEndpoints with
  | [] => Some byStructure
  | endpoint :: rest =>
      match structureKeyOf endpoint with
      | None => None
      | Some key =>
          extraByStructureFrom
            (if isTemplate endpoint then mapSet byStructure key endpoint
             else if negb (mapHas byStructure key)
                  then mapSet byStructure key endpoint
                  else byStructure)
            rest
      end
  end.

Record ReportSummary : Type := mkSummary {
  totalEndpoints : nat;
  testedEndpoints : nat;
  untestedEndpoints : nat;
  coveragePercentage : float
}.

(** The report object, the timestamp apart. *)
Record ICoverageReport : Type := mkReport {
  summary : ReportSummary;
  methodCoverage : gmap string IMethodCoverage;
  serverErrorStats : IServerErrorStats;
  endpoints_tested : list string;
  endpoints_untested : list string;
  extraEndpoints : list string;
  serverErrors : list (string * IServerErrorRecord)
}.

Section WithRegExpEngineReport.

Variable newRegExp : string -> string -> option RegExp.

(** The report [generateCoverageReport] writes, from the endpoint patterns
    that [loadEndpointPatterns] read; [None] when the function throws. *)
Definition generateCoverageReport (specEndpoints hitEndpoints : list string)
    (allServerErrors : list (string * IServerErrorRecord))
    (patterns : list IEndpointPattern) : option ICoverageReport :=
  let normalizedHitEndpoints :=
    match patterns with
    | _ :: _ => normalizeEndpoints newRegExp hitEndpoints patterns
    | [] => hitEndpoints
    end in
  let tested := List.filter (setHas normalizedHitEndpoints) specEndpoints in
  match specStructuresFrom ∅ specEndpoints with
  | None => None
  | Some specEndpointsStructures =>
      match classifyHits specEndpoints specEndpointsStructures normalizedHitEndpoints with
      | None => None
      | Some (additionalTested, realExtraEndpoints) =>
          let allTested := uniq (tested ++ additionalTested) in
          let allUntested :=
            List.filter (fun e => negb (setHas allTested e)) specEndpoints in
          match extraByStructureFrom [] realExtraEndpoints with
          | None => None
          | Some extraEndpointsByStructure =>
              let totalEndpoints := length specEndpoints in
              let testedCount := length allTested in
              let untestedCount := length allUntested in
              let coveragePercentage :=
                if (0 <? totalEndpoints)%nat
                then percentOf testedCount totalEndpoints
                else 0%float in
              match generateServerErrorStats allServerErrors with
              | None => None
              | Some stats =>
                  Some {| summary :=
                            {| totalEndpoints := totalEndpoints;
                               testedEndpoints := testedCount;
                               untestedEndpoints := untestedCount;
                               coveragePercentage :=
                                 roundToTwoDecimals coveragePercentage |};
                          methodCoverage :=
                            generateMethodCoverage specEndpoints allTested;
                          serverErrorStats := stats;
                          endpoints_tested := allTested;
                          endpoints_untested := allUntested;
                          extraEndpoints := mapValues extraEndpointsByStructure;
                          serverErrors := allServerErrors |}
              end
          end
      end
  end.

End WithRegExpEngineReport.

(** *** Sample patterns and documents *)

(** [/^\/users\/([^/]+)$/], the matcher derived from [/users/{id}], used
    with templates that contain no [$]. *)
Definition usersIdRegExp : RegExp :=
  let accepts := fun s =>
    startsWith "/users/" s && truthy (slice 7 s) && negb (includes "/" (slice 7 s)) in
  {| re_test := fun s => Some (accepts s);
     re_replace := fun s t => Some (if accepts s then t else s) |}.

Definition customMePattern : IPathPattern :=
  {| pattern := literalRegExp "/users/me"; template := "/profile";
     priority := Some 100%Z |}.

Definition specUsersIdPattern : IPathPattern :=
  {| pattern := usersIdRegExp; template := "/users/{id}";
     priority := Some 50%Z |}.

Definition chainPatterns : list IPathPattern :=
  [ {| pattern := literalRegExp "/a"; template := "/b"; priority := Some 100%Z |};
    {| pattern := literalRegExp "/b"; template := "/c"; priority := Some 100%Z |} ].

(** [/\/x$/], used with replacements that contain no [$]. *)
Definition slashXRegExp : RegExp :=
  {| re_test := fun s => Some (endsWith "/x" s);
     re_replace := fun s t =>
       Some (if endsWith "/x" s
             then substring 0 (String.length s - 2) s +:+ t
             else s) |}.

(** [new RegExp] on the one source the sample endpoint patterns use. *)
Definition sampleEngine (source flags : string) : option RegExp :=
  if String.eqb source "/x$" then Some slashXRegExp else None.

Definition sampleEndpointPatterns : list IEndpointPattern :=
  [ {| ep_pattern := "/x$"; ep_replace := "a" |} ].

(** The scenario of the specification: GET and POST [/users], GET, PUT
    and DELETE [/users/{id}]; the requests GET [/users], GET [/users/1]
    and GET [/users/2]. *)
Definition operation : IOperationObject := {| op_parameters := None |}.

Definition scenarioDoc : IOpenAPIDocument :=
  {| paths := Some
       [ ("/users", Some {| item_parameters := None;
                            item_operations := [("get", operation); ("post", operation)] |});
         ("/users/{id}", Some {| item_parameters := None;
                                 item_operations := [("get", operation); ("put", operation);
                                                     ("delete", operation)] |}) ];
     components_parameters := None |}.

Definition scenarioHits : list string :=
  fold_left
    (fun hit request =>
       trackRequest (Some scenarioDoc) [] hit (Some (fst request)) (snd request))
    [("get", "/users"); ("get", "/users/1"); ("get", "/users/2")] [].

(** Server errors of two requests to one endpoint that the spec does not
    declare, with different ObjectIds: one structure,
    [GET /items/{id}/comments]. *)
Definition sampleErrors : list (string * IServerErrorRecord) :=
  [ ("GET /items/507f1f77bcf86cd799439011/comments",
     {| err_count := 1; err_statusCodes := {["500" := 1%Z]};
        err_lastError := Some "first failure" |});
    ("GET /items/507f191e810c19729de860ea/comments",
     {| err_count := 2; err_statusCodes := {["503" := 2%Z]};
        err_lastError := Some "latest failure" |}) ].

(** The same structure with a templated key among the endpoints. *)
Definition sampleTemplatedErrors : list (string * IServerErrorRecord) :=
  [ ("GET /items/507f1f77bcf86cd799439011/comments",
     {| err_count := 1; err_statusCodes := {["500" := 1%Z]};
        err_lastError := Some "first failure" |});
    ("GET /items/{id}/comments",
     {| err_count := 2; err_statusCodes := {["503" := 2%Z]};
        err_lastError := Some "latest failure" |}) ].

(** [text.replace(/\{id\}/g, by)] for a replacement [by] without [$]. *)
Fixpoint replaceIdParamFrom (skip : nat) (by_ text : string) : string :=
  match text with
  | EmptyString => EmptyString
  | String c text' =>
      match skip with
      | S k => replaceIdParamFrom k by_ text'
      | O =>
          if startsWith "{id}" text
          then by_ +:+ replaceIdParamFrom 3 by_ text'
          else String c (replaceIdParamFrom O by_ text')
      end
  end.

(** [new RegExp] on the one source the sample document needs,
    [new RegExp('\\{id\\}', 'g')]. *)
Definition sampleParamEngine (source flags : string) : option RegExp :=
  if String.eqb source "\{id\}" && String.eqb flags "g"
  then Some {| re_test := fun s => Some (includes "{id}" s);
               re_replace := fun s t => Some (replaceIdParamFrom O t s) |}
  else None.

(** [/users/{id}] with a path parameter [id] whose schema is a reference
    to a component schema, so that it states no type of its own. *)
Definition untypedIdItem : IPathItem :=
  {| item_parameters :=
       Some [ {| param_name := Some "id";
                 param_schema := Some {| schema_type := None; schema_format := None;
                                         schema_pattern := None; schema_enum := None |};
                 param_ref := None |} ];
     item_operations := [("get", operation)] |}.

Definition untypedIdDoc : IOpenAPIDocument :=
  {| paths := Some [("/users/{id}", Some untypedIdItem)];
     components_parameters := None |}.

(** ** The error map of the response interceptor
       ([utils/axios-interceptors.ts]) *)

(** [error.response], from the parsed URL on: the status, the method of
    the request configuration and the path name of its URL. *)
Record ErrorResponse : Type := mkErrorResponse {
  resp_status : Z;
  resp_method : option string;
  resp_pathname : string
}.

(** The [AxiosError] the interceptor is called with. *)
Record AxiosError : Type := mkAxiosError {
  ae_response : option ErrorResponse;
  ae_message : string
}.

(** [!key.includes('{') && !key.includes('}')] *)
Definition noBraces (key : string) : bool :=
  negb (includes "{" key) && negb (includes "}" key).

(** The loop over [Object.keys(endpointErrors)] that looks for a templated
    key matching the concrete [key]: the first one found, [key] itself
    when there is none; [None] when [endpointMatchesTemplate] throws. *)
Fixpoint findTemplateKey (existingKeys : list string) (key : string)
    : option string :=
  match existingKeys with
  | [] => Some key
  | existingKey :: rest =>
      if isTemplate existingKey then
        match endpointMatchesTemplate key existingKey with
        | None => None
        | Some true => Some existingKey
        | Some false => findTemplateKey rest key
        end
      else findTemplateKey rest key
  end.

(** The update of the record of [templateKey]: created with count 0 when
    it is missing, then [count++], [statusCodes[statusStr]] incremented,
    and the message, cut to 200 characters, stored when it is not empty. *)
Definition recordError (endpointErrors : list (string * IServerErrorRecord))
    (templateKey statusStr message : string)
    : list (string * IServerErrorRecord) :=
  let record :=
    match objGet endpointErrors templateKey with
    | Some r => r
    | None => {| err_count := 0; err_statusCodes := ∅; err_lastError := None |}
    end in
  mapSet endpointErrors templateKey
    {| err_count := (err_count record + 1)%Z;
       err_statusCodes :=
         <[statusStr := (default 0 (err_statusCodes record !! statusStr) + 1)%Z]>
           (err_statusCodes record);
       err_lastError :=
         if truthy message then Some (String.substring 0 200 message)
         else err_lastError record |}.

(** [status >= 500 && status < 600] on an error that has a response. *)
Definition isServerError (error : AxiosError) : bool :=
  match ae_response error with
  | Some response => (500 <=? resp_status response)%Z && (resp_status response <? 600)%Z
  | None => false
  end.

(** The response error interceptor from the parsed URL on; an exception is
    caught by the interceptor's own [catch], and the only call that can
    throw comes before the map is touched. *)
Definition trackError (apiSpec : option IOpenAPIDocument)
    (customPatterns : list IPathPattern)
    (endpointErrors : list (string * IServerErrorRecord)) (error : AxiosError)
    : list (string * IServerErrorRecord) :=
  match ae_response error with
  | None => endpointErrors
  | Some response =>
      let status := resp_status response in
      if (500 <=? status)%Z && (status <? 600)%Z then
        let normalizedPath :=
          normalizePath (resp_pathname response) apiSpec customPatterns in
        let key :=
          endpointKey {| obs_method := resp_method response;
                         obs_normalizedPath := normalizedPath |} in
        match (if noBraces key
               then findTemplateKey (map fst endpointErrors) key
               else Some key) with
        | Some templateKey =>
            recordError endpointErrors templateKey (stringOfZ status)
              (ae_message error)
        | None => endpointErrors
        end
      else endpointErrors
  end.

(** The error map after a sequence of failed responses, from the empty
    map. *)
Definition trackErrors (apiSpec : option IOpenAPIDocument)
    (customPatterns : list IPathPattern) (errors : list AxiosError)
    : list (string * IServerErrorRecord) :=
  fold_left (trackError apiSpec customPatterns) errors [].

(** ** [saveHitEndpoints] and [saveErrors] ([utils/file-utils.ts]) *)

(** [path] of [endpoint.split(' ', 2)] is neither undefined nor empty. *)
Definition hasTruthyPath (endpoint : string) : bool :=
  match pathOf endpoint with
  | Some path => truthy path
  | None => false
  end.

(** The first pass of [saveHitEndpoints]: an endpoint with a path is
    pushed on the array of its method in the [Map] [endpointsByMethod]. *)
Definition groupByMethodStep (endpointsByMethod : list (string * list string))
    (endpoint : string) : list (string * list string) :=
  if negb (hasTruthyPath endpoint) then endpointsByMethod
  else
    let method := methodOf endpoint in
    mapSet endpointsByMethod method
      (match objGet endpointsByMethod method with
       | Some methodEndpoints => methodEndpoints
       | None => []
       end ++ [endpoint]).

(** The inner loop of the second pass: the concrete endpoints of the group
    that match [templateEndpoint] are added to [handledConcreteEndpoints]. *)
Fixpoint markHandled (handledConcreteEndpoints methodEndpoints : list string)
    (templateEndpoint : string) : option (list string) :=
  match methodEndpoints with
  | [] => Some handledConcreteEndpoints
  | concreteEndpoint :: rest =>
      if isTemplate concreteEndpoint
      then markHandled handledConcreteEndpoints rest templateEndpoint
      else
        match endpointMatchesTemplate concreteEndpoint templateEndpoint with
        | None => None
        | Some matches =>
            markHandled
              (if matches then setAdd handledConcreteEndpoints concreteEndpoint
               else handledConcreteEndpoints)
              rest templateEndpoint
        end
  end.

(** The loop over the template endpoints of a group, on
    [(dedupedEndpoints, handledConcreteEndpoints)]. *)
Fixpoint addTemplateEndpoints (methodEndpoints templateEndpoints : list string)
    (state : list string * list string) : option (list string * list string) :=
  match templateEndpoints with
  | [] => Some state
  | templateEndpoint :: rest =>
      match markHandled (snd state) methodEndpoints templateEndpoint with
      | None => None
      | Some handled =>
          addTemplateEndpoints methodEndpoints rest
            (setAdd (fst state) templateEndpoint, handled)
      end
  end.

(** The last loop of the second pass: the concrete endpoints that are not
    handled and contain neither brace. *)
Definition addRemainingEndpoints (handledConcreteEndpoints methodEndpoints
    dedupedEndpoints : list string) : list string :=
  fold_left
    (fun deduped concreteEndpoint =>
       if negb (setHas handledConcreteEndpoints concreteEndpoint)
          && negb (includes "{" concreteEndpoint)
          && negb (includes "}" concreteEndpoint)
       then setAdd deduped concreteEndpoint
       else deduped)
    methodEndpoints dedupedEndpoints.

(** The second pass on one method group. *)
Definition dedupMethodGroup (dedupedEndpoints methodEndpoints : list string)
    : option (list string) :=
  match addTemplateEndpoints methodEndpoints
          (List.filter isTemplate methodEndpoints) (dedupedEndpoints, []) with
  | None => None
  | Some (deduped, handled) =>
      Some (addRemainingEndpoints handled methodEndpoints deduped)
  end.

Fixpoint dedupMethodGroups (dedupedEndpoints : list string)
    (groups : list (string * list string)) : option (list string) :=
  match groups with
  | [] => Some dedupedEndpoints
  | (_, methodEndpoints) :: rest =>
      match dedupMethodGroup dedupedEndpoints methodEndpoints with
      | None => None
      | Some deduped => dedupMethodGroups deduped rest
      end
  end.

(** The array [saveHitEndpoints] writes to the file; [None] when an
    exception reaches its [catch] and nothing is written. *)
Definition saveHitEndpoints (endpoints : list string) : option (list string) :=
  dedupMethodGroups [] (fold_left groupByMethodStep endpoints []).

(** The loop over [templateKeys] for one concrete key of [saveErrors]. *)
Fixpoint anyTemplateMatches (templateKeys : list string) (key : string)
    : option bool :=
  match templateKeys with
  | [] => Some false
  | templateKey :: rest =>
      match endpointMatchesTemplate key templateKey with
      | None => None
      | Some true => Some true
      | Some false => anyTemplateMatches rest key
      end
  end.

(** The second loop of [saveErrors] on [dedupedErrors]; [errors[key]] for
    a key of [Object.keys(errors)] is the record of that entry. *)
Fixpoint addConcreteErrors (templateKeys : list string)
    (entries dedupedErrors : list (string * IServerErrorRecord))
    : option (list (string * IServerErrorRecord)) :=
  match entries with
  | [] => Some dedupedErrors
  | (key, record) :: rest =>
      if isTemplate key then addConcreteErrors templateKeys rest dedupedErrors
      else
        match anyTemplateMatches templateKeys key with
        | None => None
        | Some hasMatching =>
            addConcreteErrors templateKeys rest
              (if hasMatching then dedupedErrors
               else mapSet dedupedErrors key record)
        end
  end.

(** The object [saveErrors] writes to the file; [None] when an exception
    reaches its [catch] and nothing is written. *)
Definition saveErrors (errors : list (string * IServerErrorRecord))
    : option (list (string * IServerErrorRecord)) :=
  let templateKeys := List.filter isTemplate (map fst errors) in
  let templateErrors :=
    fold_left (fun deduped entry =>
                 if isTemplate (fst entry)
                 then mapSet deduped (fst entry) (snd entry) else deduped)
      errors [] in
  addConcreteErrors templateKeys errors templateErrors.

(** ** [getAllHitEndpoints] and [getAllServerErrors]
       ([lib/endpoint-collector.ts]) *)

(** The union of the in-memory set and the arrays of the endpoint files, in
    the order of the directory listing; a file that cannot be read or
    parsed, or that holds no array, is [None] and adds nothing. *)
Definition collectHitEndpoints (hitEndpoints : list string)
    (files : list (option (list string))) : list string :=
  fold_left
    (fun allHitEndpoints file =>
       match file with
       | Some fileEndpoints => fold_left setAdd fileEndpoints allHitEndpoints
       | None => allHitEndpoints
       end)
    files (fold_left setAdd hitEndpoints []).

(** The body of the grouping loop on the [Map] [endpointsByPath]. *)
Definition groupByStructureStep (endpointsByPath : list (string * list string))
    (key endpoint : string) : list (string * list string) :=
  mapSet endpointsByPath key
    (setAdd (match objGet endpointsByPath key with
             | Some endpoints => endpoints
             | None => []
             end) endpoint).

(** The grouping loop; [None] is the TypeError of [path.replace] for an
    endpoint without a path, which nothing catches. *)
Fixpoint groupByStructureFrom (endpointsByPath : list (string * list string))
    (allHitEndpoints : list string) : option (list (string * list string)) :=
  match allHitEndpoints with
  | [] => Some endpointsByPath
  | endpoint :: rest =>
      match errorStructureKey endpoint with
      | None => None
      | Some key =>
          groupByStructureFrom (groupByStructureStep endpointsByPath key endpoint) rest
      end
  end.

(** The body of the loop over the groups: the templated endpoints of a
    group that has one, all its endpoints otherwise. *)
Definition preferTemplates (dedupedEndpoints endpoints : list string)
    : list string :=
  if existsb isTemplate endpoints
  then fold_left (fun deduped endpoint =>
                    if isTemplate endpoint then setAdd deduped endpoint else deduped)
         endpoints dedupedEndpoints
  else fold_left setAdd endpoints dedupedEndpoints.

Definition getAllHitEndpoints (hitEndpoints : list string)
    (files : list (option (list string))) : option (list string) :=
  match groupByStructureFrom [] (collectHitEndpoints hitEndpoints files) with
  | None => None
  | Some endpointsByPath =>
      Some (fold_left preferTemplates (mapValues endpointsByPath) [])
  end.

(** A record of an error file ([IErrorFileRecord]): every field is
    optional. *)
Record IErrorFileRecord : Type := mkErrorFileRecord {
  file_count : option Z;
  file_statusCodes : option (gmap string Z);
  file_lastError : option string
}.

(** The merge of one entry of an error file into [allServerErrors]. *)
Definition mergeFileRecord (allServerErrors : list (string * IServerErrorRecord))
    (endpoint : string) (errorRecord : IErrorFileRecord)
    : list (string * IServerErrorRecord) :=
  let current :=
    match objGet allServerErrors endpoint with
    | Some r => r
    | None => {| err_count := 0; err_statusCodes := ∅; err_lastError := None |}
    end in
  mapSet allServerErrors endpoint
    {| err_count := (err_count current + default 0 (file_count errorRecord))%Z;
       err_statusCodes :=
         match file_statusCodes errorRecord with
         | Some codes => mergeStatusCodes (err_statusCodes current) codes
         | None => err_statusCodes current
         end;
       err_lastError :=
         match file_lastError errorRecord with
         | Some message =>
             if truthy message then Some message else err_lastError current
         | None => err_lastError current
         end |}.

(** The merge of one error file; a file that cannot be read or parsed is
    [None] and changes nothing. *)
Definition mergeErrorFile (allServerErrors : list (string * IServerErrorRecord))
    (file : option (list (string * IErrorFileRecord)))
    : list (string * IServerErrorRecord) :=
  match file with
  | Some fileErrors =>
      fold_left (fun all entry => mergeFileRecord all (fst entry) (snd entry))
        fileErrors allServerErrors
  | None => allServerErrors
  end.

(** The records of the worker, copied key by key, then the error files in
    the order of the directory listing. *)
Definition getAllServerErrors (endpointErrors : list (string * IServerErrorRecord))
    (files : list (option (list (string * IErrorFileRecord))))
    : list (string * IServerErrorRecord) :=
  fold_left mergeErrorFile files
    (fold_left (fun all entry => mapSet all (fst entry) (snd entry))
       endpointErrors []).

(** ** [getAllServerErrors] on objects: the shared histograms *)

(** A record as an object: its histogram [statusCodes] is an object of
    its own, and the record holds its address in the heap. *)
Record ErrorObject : Type := mkErrorObject {
  obj_count : Z;
  obj_statusCodes : nat;
  obj_lastError : option string
}.

(** The heap of histogram objects, by address, is a
    [list (gmap string Z)]. *)

(** The record an object stands for in a heap. *)
Definition recordOf (heap : list (gmap string Z)) (o : ErrorObject) : IServerErrorRecord :=
  {| err_count := obj_count o;
     err_statusCodes := default ∅ (heap !! obj_statusCodes o);
     err_lastError := obj_lastError o |}.

Definition recordsOf (heap : list (gmap string Z)) (objects : list (string * ErrorObject))
    : list (string * IServerErrorRecord) :=
  map (fun entry => (fst entry, recordOf heap (snd entry))) objects.

(** The merge of one entry of an error file: a missing record is created
    with a new histogram object; the count and the message are fields of
    the record object of [allServerErrors], the status codes are written
    into the histogram object the record points to. *)
Definition mergeFileObject (state : list (string * ErrorObject) * list (gmap string Z))
    (endpoint : string) (errorRecord : IErrorFileRecord)
    : list (string * ErrorObject) * list (gmap string Z) :=
  let allServerErrors := fst state in
  let heap := snd state in
  let created :=
    match objGet allServerErrors endpoint with
    | Some o => (o, heap)
    | None =>
        ({| obj_count := 0; obj_statusCodes := length heap; obj_lastError := None |},
         heap ++ [∅])
    end in
  let current := fst created in
  let heap1 := snd created in
  (mapSet allServerErrors endpoint
     {| obj_count := (obj_count current + default 0 (file_count errorRecord))%Z;
        obj_statusCodes := obj_statusCodes current;
        obj_lastError :=
          match file_lastError errorRecord with
          | Some message =>
              if truthy message then Some message else obj_lastError current
          | None => obj_lastError current
          end |},
   match file_statusCodes errorRecord with
   | Some codes =>
       <[obj_statusCodes current :=
           mergeStatusCodes (default ∅ (heap1 !! obj_statusCodes current)) codes]>
         heap1
   | None => heap1
   end).

Definition mergeErrorFileObjects (state : list (string * ErrorObject) * list (gmap string Z))
    (file : option (list (string * IErrorFileRecord)))
    : list (string * ErrorObject) * list (gmap string Z) :=
  match file with
  | Some fileErrors =>
      fold_left (fun st entry => mergeFileObject st (fst entry) (snd entry))
        fileErrors state
  | None => state
  end.

(** [getAllServerErrors] on the objects of the worker: [{ ...record }]
    copies the fields of a record, so the copy points to the histogram of
    the worker's record.  The result is [allServerErrors] and the heap
    after the call. *)
Definition getAllServerErrorsObjects (endpointErrors : list (string * ErrorObject))
    (heap : list (gmap string Z)) (files : list (option (list (string * IErrorFileRecord))))
    : list (string * ErrorObject) * list (gmap string Z) :=
  fold_left mergeErrorFileObjects files
    (fold_left (fun all entry => mapSet all (fst entry) (snd entry))
       endpointErrors [],
     heap).

(** ** [inferPatternsFromRequests] ([lib/openapi-processor.ts]) *)

Definition isDigit (c : ascii) : bool :=
  let n := nat_of_ascii c in ((48 <=? n) && (n <=? 57))%nat.

(** [[0-9a-f]] with the flag [i] *)
Definition isHexAnyCase (c : ascii) : bool :=
  let n := nat_of_ascii c in
  ((48 <=? n) && (n <=? 57) || (97 <=? n) && (n <=? 102)
   || (65 <=? n) && (n <=? 70))%nat.

(** [[A-F0-9]] *)
Definition isUpperHex (c : ascii) : bool :=
  let n := nat_of_ascii c in
  ((48 <=? n) && (n <=? 57) || (65 <=? n) && (n <=? 70))%nat.

Fixpoint allChars (f : ascii -> bool) (s : string) : bool :=
  match s with
  | EmptyString => true
  | String c s' => f c && allChars f s'
  end.

(** [/^\d+$/.test(s)] *)
Definition isNumber (s : string) : bool := truthy s && allChars isDigit s.

(** [/^[0-9a-f]{24}$/i.test(s)] *)
Definition isObjectIdAnyCase (s : string) : bool :=
  Nat.eqb (String.length s) 24 && allChars isHexAnyCase s.

(** [/^[0-9a-f]{8}-[0-9a-f]{4}-[0-9a-f]{4}-[0-9a-f]{4}-[0-9a-f]{12}$/i.test(s)]:
    five runs of hexadecimal digits of these lengths, separated by dashes. *)
Definition isUuid (s : string) : bool :=
  match split "-" s with
  | [a; b; c; d; e] =>
      Nat.eqb (String.length a) 8 && Nat.eqb (String.length b) 4
      && Nat.eqb (String.length c) 4 && Nat.eqb (String.length d) 4
      && Nat.eqb (String.length e) 12
      && allChars isHexAnyCase a && allChars isHexAnyCase b
      && allChars isHexAnyCase c && allChars isHexAnyCase d
      && allChars isHexAnyCase e
  | _ => false
  end.

(** [/^[0-9a-f]{12,40}$/i.test(s)] *)
Definition isHash (s : string) : bool :=
  (12 <=? String.length s)%nat && (String.length s <=? 40)%nat
  && allChars isHexAnyCase s.

(** [/^v\d+$/.test(s)] *)
Definition isVersion (s : string) : bool :=
  match s with
  | String "v" rest => isNumber rest
  | _ => false
  end.

Definition resourceNames : list string :=
  ["users"; "products"; "orders"; "items"; "posts"; "comments"; "auth"; "login";
   "categories"; "tags"; "api"].

(** [/^(users|products|...|api)$/i.test(s)] *)
Definition isResourceName (s : string) : bool :=
  setHas resourceNames (toLowerCase s).

(** [/[A-F0-9]{8,}/.test(s)], with the length of the run that ends before
    [s]. *)
Fixpoint hasUpperHexRun (run : nat) (s : string) : bool :=
  match s with
  | EmptyString => false
  | String c s' =>
      if isUpperHex c
      then if (8 <=? S run)%nat then true else hasUpperHexRun (S run) s'
      else hasUpperHexRun O s'
  end.

(** [segment.length > 20 || /[A-F0-9]{8,}|[-_]/.test(segment)] *)
Definition looksLikeToken (segment : string) : bool :=
  (20 <? String.length segment)%nat
  || (hasUpperHexRun O segment || includes "-" segment || includes "_" segment).

(** The function mapped over the segments of a path by
    [groupSimilarPaths]. *)
Definition signatureOfSegment (segment : string) : string :=
  if isNumber segment then "{number}"
  else if isObjectIdAnyCase segment then "{objectId}"
  else if isUuid segment then "{uuid}"
  else if isHash segment then "{hash}"
  else if isVersion segment then segment
  else if isResourceName segment then toLowerCase segment
  else if looksLikeToken segment then "{token}"
  else segment.

Definition signatureOf (path : string) : string :=
  let segments :=
    if startsWith "/" path then split "/" (slice 1 path) else split "/" path in
  let nonEmptySegments := filterBoolean segments in
  join "/" (map signatureOfSegment nonEmptySegments).

(** The body of the loop of [groupSimilarPaths] on the [Map]. *)
Definition groupSimilarPathsStep (pathGroups : list (string * list string))
    (path : string) : list (string * list string) :=
  let signature := signatureOf path in
  mapSet pathGroups signature
    (match objGet pathGroups signature with
     | Some groupPaths => groupPaths
     | None => []
     end ++ [path]).

Definition groupSimilarPaths (paths : list string) : list (string * list string) :=
  fold_left groupSimilarPathsStep paths [].

(** [pattern.pattern.test(path)], false when it throws. *)
Definition patternTests (path : string) (patternObj : IPathPattern) : bool :=
  match re_test (pattern patternObj) path with
  | Some b => b
  | None => false
  end.

Definition arePathsCoveredByPatterns (paths : list string)
    (patterns : list IPathPattern) : bool :=
  match patterns with
  | [] => false
  | _ :: _ => forallb (fun path => existsb (patternTests path) patterns) paths
  end.

(** [p.split('/').filter(Boolean)[index]], undefined past the end. *)
Definition segmentAt (index : nat) (path : string) : option string :=
  segments path !! index.

(** A test of a regular expression on a value that may be undefined:
    [undefined] is tested as the string ["undefined"]. *)
Definition testOn (test : string -> bool) (value : option string) : bool :=
  test (default "undefined" value).

(** [new Set(paths.map(...)).size > 1] *)
Definition isVariableSegment (paths : list string) (index : nat) : bool :=
  (1 <? length (remove_dups (map (segmentAt index) paths)))%nat.

Definition patternSegmentFor (paths : list string) (index : nat)
    (segment : string) : string :=
  if isVariableSegment paths index then
    let allSegments := map (segmentAt index) paths in
    if forallb (testOn isNumber) allSegments then "(\d+)"
    else if forallb (testOn isUuid) allSegments
    then "([0-9a-f]{8}-[0-9a-f]{4}-[0-9a-f]{4}-[0-9a-f]{4}-[0-9a-f]{12})"
    else if forallb (testOn isObjectIdAnyCase) allSegments then "([0-9a-f]{24})"
    else "([^/]+)"
  else segment.

Definition singularResources : list string :=
  ["user"; "product"; "order"; "item"; "post"; "comment"; "category"; "tag"].

(** [/^(user|product|...|tag)s?$/.test(s)] *)
Definition isResourceNoun (s : string) : bool :=
  setHas singularResources s
  || existsb (fun name => String.eqb s (name +:+ "s")) singularResources.

(** [s.replace(/s$/, '')] *)
Fixpoint dropFinalS (s : string) : string :=
  match s with
  | EmptyString => EmptyString
  | String "s" EmptyString => EmptyString
  | String c s' => String c (dropFinalS s')
  end.

Definition templateSegmentFor (paths segments : list string) (index : nat)
    (segment : string) : string :=
  if isVariableSegment paths index then
    let sampleValues := map (segmentAt index) (firstn 3 paths) in
    if forallb (testOn isNumber) sampleValues then "{id}"
    else if forallb (testOn isUuid) sampleValues then "{uuid}"
    else if forallb (testOn isObjectIdAnyCase) sampleValues then "{id}"
    else
      match index with
      | S previous =>
          let prevSegment := toLowerCase (default "" (segments !! previous)) in
          if isResourceNoun prevSegment
          then "{" +:+ dropFinalS prevSegment +:+ "_id}"
          else "{param}"
      | O => "{param}"
      end
  else segment.

Section WithRegExpEngineInference.

Variable newRegExp : string -> string -> option RegExp.

(** [createPatternFromGroup(groupKey, paths)]; [None] is [null]. *)
Definition createPatternFromGroup (groupKey : string) (paths : list string)
    : option IPathPattern :=
  if (length paths <? 2)%nat then None
  else
    let segments := segments (default "" (head paths)) in
    let patternSegments := imap (patternSegmentFor paths) segments in
    let templateSegments := imap (templateSegmentFor paths segments) segments in
    let patternString := "^/" +:+ join "/" patternSegments +:+ "$" in
    let template := "/" +:+ join "/" templateSegments in
    match newRegExp patternString "" with
    | Some pattern =>
        Some {| pattern := pattern; template := template; priority := Some 30%Z |}
    | None => None
    end.

(** The body of the loop of [inferPatternsFromRequests] over the groups. *)
Definition inferFromGroup (existingPatterns inferredPatterns : list IPathPattern)
    (group : string * list string) : list IPathPattern :=
  let groupPaths := snd group in
  if (length groupPaths <? 2)%nat then inferredPatterns
  else if arePathsCoveredByPatterns groupPaths existingPatterns then inferredPatterns
  else
    match createPatternFromGroup (fst group) groupPaths with
    | Some pattern => inferredPatterns ++ [pattern]
    | None => inferredPatterns
    end.

Definition inferPatternsFromRequests (paths : list string)
    (existingPatterns : list IPathPattern) : list IPathPattern :=
  if (length paths <? 2)%nat then []
  else fold_left (inferFromGroup existingPatterns) (groupSimilarPaths paths) [].

End WithRegExpEngineInference.

(** [/^\/users\/(\d+)$/], used with templates that contain no [$], and
    [new RegExp] on its source. *)
Definition usersNumberRegExp : RegExp :=
  {| re_test := fun s => Some (startsWith "/users/" s && isNumber (slice 7 s));
     re_replace := fun s t =>
       Some (if startsWith "/users/" s && isNumber (slice 7 s) then t else s) |}.

Definition usersNumberEngine (source flags : string) : option RegExp :=
  if String.eqb source "^/users/(\d+)$" then Some usersNumberRegExp else None.

(** ** Notions used in the statements *)

(** [c] stands in the arrangement behind patterns that do not accept the
    path and are not of lower priority. *)
Definition leads (x : string) (apiSpec : option IOpenAPIDocument)
    (c : IPathPattern) (l : list IPathPattern) : Prop :=
  exists l1 l2, l = l1 ++ c :: l2 /\
    forall q, In q l1 -> tryPattern x apiSpec q = None /\ (prio c <= prio q)%Z.

(** Every key of the hit set has its two parts. *)
Definition wellFormedKeys (hit : list string) : Prop :=
  forall e, In e hit -> is_Some (pathOf e).

(** No templated key of the hit set is matched by a concrete key of it. *)
Definition deduplicated (hit : list string) : Prop :=
  forall t c, In t hit -> In c hit ->
    isTemplate t = true -> isTemplate c = false ->
    endpointMatchesTemplate c t = Some false.

(** Every entry of the map is a normalised endpoint under its structure
    key. *)
Definition entriesKeyed (m : list (string * string)) : Prop :=
  forall k v, objGet m k = Some v ->
    exists method path, v = method +:+ " " +:+ path /\ k = structureKey method path.

(** Every spec endpoint of the map stands under its structure key. *)
Definition structuresKeyed (m : gmap string string) : Prop :=
  forall k e, m !! k = Some e -> structureKeyOf e = Some k.

(** An endpoint key with its two parts, [METHOD path]. *)
Definition hasPath (endpoint : string) : Prop := is_Some (pathOf endpoint).

(** The printed hundredths of [percentOf tested total] are within one half
    of the exact quotient [10000 * tested / total]. *)
Definition hundredthsAccurate (tested total : nat) : bool :=
  (2 * Z.abs (hundredths (percentOf tested total) * Z.of_nat total
              - 10000 * Z.of_nat tested) <=? Z.of_nat total)%Z.

(** The same for every [tested <= total] with [0 < total <= bound]. *)
Definition hundredthsAccurateUpTo (bound : nat) : bool :=
  forallb (fun total =>
             forallb (fun tested => hundredthsAccurate tested total) (seq 0 (S total)))
    (seq 1 bound).

(** The sum of the counts of the records. *)
Definition sumCounts (records : list IServerErrorRecord) : Z :=
  fold_right (fun r sum => (err_count r + sum)%Z) 0%Z records.

(** The count of a status code in a histogram, 0 when it has no entry. *)
Definition codeCount (codes : gmap string Z) (status : string) : Z :=
  default 0%Z (codes !! status).

(** The sum of the counts of one status code over the records. *)
Definition sumStatus (status : string) (records : list IServerErrorRecord) : Z :=
  fold_right (fun r sum => (codeCount (err_statusCodes r) status + sum)%Z) 0%Z records.

(** The entries of [allServerErrors] with the structure key [key]. *)
Definition entriesWithKey (key : string)
    (entries : list (string * IServerErrorRecord))
    : list (string * IServerErrorRecord) :=
  List.filter (fun e => bool_decide (errorStructureKey (fst e) = Some key)) entries.

(** The groups built from the entries [processed]. *)
Definition groupsOf (groups : list (string * ErrorGroup))
    (processed : list (string * IServerErrorRecord)) : Prop :=
  List.NoDup (map fst groups) /\
  (forall key g, objGet groups key = Some g ->
     group_endpoints g = map fst (entriesWithKey key processed) /\
     group_records g = map snd (entriesWithKey key processed) /\
     group_endpoints g <> []) /\
  (forall key, objGet groups key = None -> entriesWithKey key processed = []).

(** The key is in the hit set, or a templated key of the set matches it. *)
Definition represented (hit : list string) (key : string) : Prop :=
  In key hit \/
  exists t, In t hit /\ isTemplate t = true /\
    endpointMatchesTemplate key t = Some true.

(** The groups of the first pass of [saveHitEndpoints] after the
    endpoints [processed]: one group per method, with the endpoints of
    that method that have a path. *)
Definition groupedByMethod (groups : list (string * list string))
    (processed : list string) : Prop :=
  List.NoDup (map fst groups) /\
  (forall m l, objGet groups m = Some l ->
     forall e, In e l <->
       In e processed /\ hasTruthyPath e = true /\ methodOf e = m) /\
  (forall e, In e processed -> hasTruthyPath e = true ->
     is_Some (objGet groups (methodOf e))).

(** What [saveHitEndpoints] keeps of [endpoints]: the templated endpoints,
    and the endpoints without a brace that no templated endpoint of
    [endpoints] matches; an endpoint without a path is never kept. *)
Definition keptOnSave (endpoints : list string) (e : string) : Prop :=
  In e endpoints /\ hasTruthyPath e = true /\
  (isTemplate e = true \/
   noBraces e = true /\
   forall t, In t endpoints -> isTemplate t = true -> hasTruthyPath t = true ->
     endpointMatchesTemplate e t = Some false).

(** What [saveErrors] keeps of the keys of [errors]: the templated keys,
    and the keys that no templated key of [errors] matches. *)
Definition keptErrorOnSave (errors : list (string * IServerErrorRecord))
    (key : string) : Prop :=
  isTemplate key = true \/
  forall t, In t (map fst errors) -> isTemplate t = true ->
    endpointMatchesTemplate key t = Some false.

(** The sum of the counts of a status-code histogram. *)
Definition histogramTotal (codes : gmap string Z) : Z :=
  map_fold (fun _ count sum => (count + sum)%Z) 0%Z codes.

(** A record as the error interceptor leaves it: its count is positive and
    is the sum of its histogram, the histogram counts 5xx statuses only,
    and the message is at most 200 characters long. *)
Definition interceptorRecord (r : IServerErrorRecord) : Prop :=
  (0 < err_count r)%Z /\
  err_count r = histogramTotal (err_statusCodes r) /\
  (forall statusStr n, err_statusCodes r !! statusStr = Some n ->
     (0 < n)%Z /\
     exists status, statusStr = stringOfZ status /\ (500 <= status < 600)%Z) /\
  (forall message, err_lastError r = Some message ->
     String.length message <= 200).

(** The groups of [getAllHitEndpoints] after the endpoints [processed]:
    one duplicate-free group per structure key. *)
Definition groupedByStructure (groups : list (string * list string))
    (processed : list string) : Prop :=
  List.NoDup (map fst groups) /\
  (forall key l, objGet groups key = Some l ->
     List.NoDup l /\
     forall e, In e l <-> In e processed /\ errorStructureKey e = Some key) /\
  (forall e key, In e processed -> errorStructureKey e = Some key ->
     is_Some (objGet groups key)).

(** What [getAllHitEndpoints] keeps of the collected endpoints: the
    templated endpoints, and the endpoints whose structure key is the key
    of no templated endpoint. *)
Definition keptOnCollect (allHitEndpoints : list string) (e : string) : Prop :=
  In e allHitEndpoints /\
  (isTemplate e = true \/
   forall t, In t allHitEndpoints -> isTemplate t = true ->
     errorStructureKey t <> errorStructureKey e).

(** A quantity of the record of [endpoint] in an error map, 0 when the
    map has no such record. *)
Definition measureAt (mu : IServerErrorRecord -> Z)
    (m : list (string * IServerErrorRecord)) (endpoint : string) : Z :=
  match objGet m endpoint with
  | Some r => mu r
  | None => 0%Z
  end.

(** The sum of a quantity of the entries of [endpoint] over the error
    files that could be read. *)
Definition fileMeasure (nu : IErrorFileRecord -> Z) (endpoint : string)
    (files : list (option (list (string * IErrorFileRecord)))) : Z :=
  fold_right
    (fun file sum =>
       (match file with
        | Some fileErrors =>
            fold_right (fun entry s =>
                          ((if String.eqb (fst entry) endpoint
                            then nu (snd entry) else 0) + s)%Z)
              0%Z fileErrors
        | None => 0%Z
        end + sum)%Z)
    0%Z files.

(** [errorRecord.count || 0] *)
Definition fileCount (errorRecord : IErrorFileRecord) : Z :=
  default 0%Z (file_count errorRecord).

(** The count of one status code in the histogram of a file record. *)
Definition fileCodeCount (status : string) (errorRecord : IErrorFileRecord) : Z :=
  match file_statusCodes errorRecord with
  | Some codes => codeCount codes status
  | None => 0%Z
  end.

(** [normalizedHitEndpoints] of [generateCoverageReport]. *)
Definition normalizedHitsOf (newRegExp : string -> string -> option RegExp)
    (hitEndpoints : list string) (patterns : list IEndpointPattern)
    : list string :=
  match patterns with
  | _ :: _ => normalizeEndpoints newRegExp hitEndpoints patterns
  | [] => hitEndpoints
  end.

(** The sum of a quantity over records, and over the records of groups. *)
Definition sumOver (f : IServerErrorRecord -> Z)
    (records : list IServerErrorRecord) : Z :=
  fold_right (fun r sum => (f r + sum)%Z) 0%Z records.

Definition groupsTotal (f : IServerErrorRecord -> Z)
    (groups : list (string * ErrorGroup)) : Z :=
  fold_right (fun g sum => (sumOver f (group_records (snd g)) + sum)%Z) 0%Z groups.

(** A segment of a path fits a segment of a template: the template
    segment is a parameter, or the two are equal. *)
Definition segmentFits (templateSegment pathSegment : string) : Prop :=
  isParamSegment templateSegment = true \/ templateSegment = pathSegment.

(** The path [t] is declared in the spec, with a path item. *)
Definition declaredPath (apiSpec : option IOpenAPIDocument) (t : string) : Prop :=
  exists doc entries item,
    apiSpec = Some doc /\ paths doc = Some entries /\ In (t, Some item) entries.

(** Every entry of the map is [METHOD path] under its structure key, for
    a method without a space. *)
Definition entriesOfMethods (m : list (string * string)) : Prop :=
  forall k v, objGet m k = Some v ->
    exists method path,
      includes " " method = false /\
      v = method +:+ " " +:+ path /\ k = structureKey method path.

(** The groups of [groupSimilarPaths] after the paths [processed]: one
    non-empty group per signature. *)
Definition groupedBySignature (groups : list (string * list string))
    (processed : list string) : Prop :=
  List.NoDup (map fst groups) /\
  (forall signature l, objGet groups signature = Some l ->
     l <> [] /\
     forall p, In p l <-> In p processed /\ signatureOf p = signature) /\
  (forall p, In p processed -> is_Some (objGet groups (signatureOf p))).

(** The objects of a map point to histograms of the heap, no two to the
    same one. *)
Definition separateHistograms (objects : list (string * ErrorObject))
    (heap : list (gmap string Z)) : Prop :=
  List.NoDup (map fst objects) /\
  List.NoDup (map (fun entry => obj_statusCodes (snd entry)) objects) /\
  forall k o, In (k, o) objects -> obj_statusCodes o < length heap.

(* ===================================================================== *)
(** * Part II: properties                                                 *)
(* ===================================================================== *)

Example normalizePath_users_42 :
  normalizePath "/users/42" (Some (docOfPaths ["/users"; "/users/{id}"])) []
  = "/users/{id}".
Proof. reflexivity. Qed.

Example recordAll_template_then_concrete :
  recordAll [mkObservation (Some "get") "/users/{id}";
             mkObservation (Some "get") "/users/42"] = ["GET /users/{id}"].
Proof. reflexivity. Qed.

Example recordAll_concrete_then_template :
  recordAll [mkObservation (Some "get") "/users/42";
             mkObservation (Some "get") "/users/{id}"] = ["GET /users/{id}"].
Proof. reflexivity. Qed.

(** ** Strings *)

Lemma truthy_true (s : string) : truthy s = true <-> s <> "".
Proof.
  unfold truthy. rewrite negb_true_iff. apply String.eqb_neq.
Qed.

Lemma truthy_false (s : string) : truthy s = false <-> s = "".
Proof.
  unfold truthy. rewrite negb_false_iff. apply String.eqb_eq.
Qed.

Lemma startsWith_slashNormalize (p : string) :
  startsWith "/" (slashNormalize p) = true.
Proof.
  unfold slashNormalize. destruct (startsWith "/" p) eqn:E; [exact E|].
  reflexivity.
Qed.

Lemma slashNormalize_fixed (p : string) :
  startsWith "/" p = true -> slashNormalize p = p.
Proof. unfold slashNormalize. intros ->. reflexivity. Qed.

Lemma startsWith_slash_truthy (p : string) :
  startsWith "/" p = true -> truthy p = true.
Proof. destruct p; [discriminate|reflexivity]. Qed.

Lemma segments_slashNormalize (p : string) :
  segments (slashNormalize p) = segments p.
Proof.
  unfold slashNormalize. destruct (startsWith "/" p); reflexivity.
Qed.

(** ** [normalizePath]: the spec match *)

Lemma objGet_In {A : Type} (entries : list (string * A)) (key : string) (v : A) :
  objGet entries key = Some v -> In (key, v) entries.
Proof.
  induction entries as [|[k w] rest IH]; simpl; [discriminate|].
  destruct (String.eqb k key) eqn:E.
  - apply String.eqb_eq in E. intros [= ->]. subst. now left.
  - intros H. right. now apply IH.
Qed.

Lemma findStructural_first (before after : list (string * option IPathItem))
    (t : string) (item : IPathItem) (segs : list string) :
  (forall k it, In (k, Some it) before -> structuralMatch k segs = false) ->
  structuralMatch t segs = true ->
  findStructural (before ++ (t, Some item) :: after) segs = Some t.
Proof.
  intros Hbefore Ht. induction before as [|[k [it|]] before IH]; simpl.
  - now rewrite Ht.
  - rewrite (Hbefore k it) by now left.
    apply IH. intros k' it' Hin. apply (Hbefore k' it'). now right.
  - apply IH. intros k' it' Hin. apply (Hbefore k' it'). now right.
Qed.

Lemma findStructural_Some (entries : list (string * option IPathItem))
    (segs : list string) (t : string) :
  findStructural entries segs = Some t ->
  exists before item after,
    entries = before ++ (t, Some item) :: after /\
    (forall k it, In (k, Some it) before -> structuralMatch k segs = false) /\
    structuralMatch t segs = true.
Proof.
  induction entries as [|[k [it|]] rest IH]; simpl; [discriminate| |].
  - destruct (structuralMatch k segs) eqn:E.
    + intros [= ->]. exists [], it, rest. repeat split; [|exact E].
      intros ? ? [].
    + intros H. destruct (IH H) as (before & item & after & -> & Hb & Ht).
      exists ((k, Some it) :: before), item, after. repeat split; [|exact Ht].
      intros k' it' [Heq|Hin]; [congruence|now apply (Hb k' it')].
  - intros H. destruct (IH H) as (before & item & after & -> & Hb & Ht).
    exists ((k, None) :: before), item, after. repeat split; [|exact Ht].
    intros k' it' [Heq|Hin]; [congruence|now apply (Hb k' it')].
Qed.

(** C1, as the code has it: the exact match of step 1 comes first, and of
    several declared paths that match structurally the first one in the
    document's key order is returned.  So [normalizePath] returns the
    template [t] when the path is not itself a declared path and no path
    declared before [t] matches it structurally. *)
Theorem normalizePath_structural_first
    (p : string) (doc : IOpenAPIDocument) (customPatterns : list IPathPattern)
    (before after : list (string * option IPathItem))
    (t : string) (item : IPathItem) :
  p <> "" ->
  paths doc = Some (before ++ (t, Some item) :: after) ->
  specHasPath (Some doc) (slashNormalize p) = false ->
  (forall k it, In (k, Some it) before -> structuralMatch k (segments p) = false) ->
  structuralMatch t (segments p) = true ->
  normalizePath p (Some doc) customPatterns = t.
Proof.
  intros Hp Hpaths Hexact Hbefore Ht.
  unfold normalizePath. apply truthy_true in Hp. rewrite Hp. simpl.
  unfold specResult. rewrite Hexact, Hpaths, segments_slashNormalize.
  now rewrite (findStructural_first before after t item (segments p)).
Qed.

Lemma normalizePath_structural_first_witness :
  normalizePath "users/42"
    (Some (docOfPaths ["/users"; "/users/{id}"; "/{any}/{id}"])) []
  = "/users/{id}".
Proof.
  apply (normalizePath_structural_first "users/42"
           (docOfPaths ["/users"; "/users/{id}"; "/{any}/{id}"]) []
           [("/users", Some emptyItem)] [("/{any}/{id}", Some emptyItem)]
           "/users/{id}" emptyItem).
  - discriminate.
  - reflexivity.
  - reflexivity.
  - intros k it [H|[]]. injection H as <- _. reflexivity.
  - reflexivity.
Defined.

(** C1 as stated fails: [/users/me] matches the declared template
    [/users/{id}] structurally, and the result is the declared literal path
    [/users/me] of the exact match. *)
Lemma normalizePath_exact_beats_template :
  structuralMatch "/users/{id}" (segments "/users/me") = true /\
  normalizePath "/users/me" (Some (docOfPaths ["/users/me"; "/users/{id}"])) []
  = "/users/me" /\
  "/users/me" <> "/users/{id}".
Proof. repeat split. discriminate. Qed.

(** ** [normalizePath]: the pattern loop *)

Lemma In_insertByPriority (x y : IPathPattern) (l : list IPathPattern) :
  In x (insertByPriority y l) <-> x = y \/ In x l.
Proof.
  induction l as [|z l IH]; simpl.
  - intuition.
  - destruct (prio z <=? prio y)%Z; simpl; rewrite ?IH; intuition.
Qed.

Lemma In_sortByPriority (x : IPathPattern) (l : list IPathPattern) :
  In x (sortByPriority l) <-> In x l.
Proof.
  induction l as [|y l IH]; simpl; [tauto|].
  rewrite In_insertByPriority, IH. intuition.
Qed.

Lemma tryPattern_Some (x : string) (apiSpec : option IOpenAPIDocument)
    (q : IPathPattern) (r : string) :
  tryPattern x apiSpec q = Some r <->
  template q <> "" /\ re_test (pattern q) x = Some true /\
  re_replace (pattern q) x (template q) = Some r.
Proof.
  unfold tryPattern. destruct (truthy (template q)) eqn:Et.
  - apply truthy_true in Et.
    destruct (re_test (pattern q) x) as [[|]|];
      [|split; [discriminate|intros (_ & ? & _); discriminate]..].
    destruct (re_replace (pattern q) x (template q)) as [res|].
    + destruct (specHasPath apiSpec res); split;
        solve [ intros [= ->]; auto | intros (_ & _ & [= ->]); reflexivity ].
    + split; [discriminate|intros (_ & _ & ?); discriminate].
  - apply truthy_false in Et. split; [discriminate|]. intros (? & _). contradiction.
Qed.

Lemma tryPatterns_Some_In (x : string) (apiSpec : option IOpenAPIDocument)
    (l : list IPathPattern) (r : string) :
  tryPatterns x apiSpec l = Some r ->
  exists q, In q l /\ tryPattern x apiSpec q = Some r.
Proof.
  induction l as [|q l IH]; simpl; [discriminate|].
  destruct (tryPattern x apiSpec q) as [res|] eqn:E.
  - intros [= ->]. exists q. auto.
  - intros H. destruct (IH H) as (q' & Hin & Hq'). exists q'. auto.
Qed.

Section FirstAccepted.

Variable x : string.
Variable apiSpec : option IOpenAPIDocument.
Variable c : IPathPattern.

Lemma leads_insert_self (l : list IPathPattern) :
  (forall q, In q l -> tryPattern x apiSpec q = None \/ (prio q <= prio c)%Z) ->
  leads x apiSpec c (insertByPriority c l).
Proof.
  induction l as [|y l IH]; intros Hl; simpl.
  - exists [], []. split; [reflexivity|]. intros ? [].
  - destruct (prio y <=? prio c)%Z eqn:E.
    + exists [], (y :: l). split; [reflexivity|]. intros ? [].
    + apply Z.leb_gt in E.
      destruct IH as (l1 & l2 & Heq & Hl1).
      { intros q Hq. apply Hl. now right. }
      exists (y :: l1), l2. split; [simpl; now rewrite Heq|].
      intros q [<-|Hq]; [|now apply Hl1].
      destruct (Hl y (or_introl eq_refl)) as [Hn|Hle]; [split; [exact Hn|lia]|lia].
Qed.

Lemma leads_insert_other (b : IPathPattern) (l : list IPathPattern) :
  tryPattern x apiSpec b = None \/ (prio b < prio c)%Z ->
  leads x apiSpec c l -> leads x apiSpec c (insertByPriority b l).
Proof.
  intros Hb (l1 & l2 & -> & Hl1). induction l1 as [|y l1 IH]; simpl.
  - destruct (prio c <=? prio b)%Z eqn:E.
    + apply Z.leb_le in E. exists [b], l2. split; [reflexivity|].
      intros q [<-|[]]. split; [|exact E]. destruct Hb as [Hb|Hb]; [exact Hb|lia].
    + exists [], (insertByPriority b l2). split; [reflexivity|]. intros ? [].
  - destruct (prio y <=? prio b)%Z eqn:E.
    + apply Z.leb_le in E.
      destruct (Hl1 y (or_introl eq_refl)) as [Hy Hcy].
      exists (b :: y :: l1), l2. split; [reflexivity|].
      intros q [<-|Hq]; [|now apply Hl1].
      split; [|lia]. destruct Hb as [Hb|Hb]; [exact Hb|lia].
    + destruct IH as (l1' & l2' & Heq & Hl1').
      { intros q Hq. apply Hl1. now right. }
      exists (y :: l1'), l2'. split; [simpl; now rewrite Heq|].
      intros q [<-|Hq]; [|now apply Hl1'].
      apply Hl1. now left.
Qed.

Lemma leads_sortByPriority (before after : list IPathPattern) :
  (forall q, In q before ->
     tryPattern x apiSpec q = None \/ (prio q < prio c)%Z) ->
  (forall q, In q after ->
     tryPattern x apiSpec q = None \/ (prio q <= prio c)%Z) ->
  leads x apiSpec c (sortByPriority (before ++ c :: after)).
Proof.
  intros Hb Ha. induction before as [|b before IH]; simpl.
  - apply leads_insert_self. intros q Hq. apply Ha.
    now apply In_sortByPriority.
  - apply leads_insert_other; [apply Hb; now left|].
    apply IH. intros q Hq. apply Hb. now right.
Qed.

Lemma tryPatterns_leads (l : list IPathPattern) (r : string) :
  leads x apiSpec c l -> tryPattern x apiSpec c = Some r -> tryPatterns x apiSpec l = Some r.
Proof.
  intros (l1 & l2 & -> & Hl1) Hc. induction l1 as [|y l1 IH]; simpl.
  - now rewrite Hc.
  - destruct (Hl1 y (or_introl eq_refl)) as [-> _].
    apply IH. intros q Hq. apply Hl1. now right.
Qed.

End FirstAccepted.

(** C4, as the code has it: the exact and the structural spec match of
    steps 1 and 1.5 come before every pattern.  When they do not resolve
    the path, the patterns are tried by descending priority, patterns of
    equal priority in declaration order, and the first one that accepts
    the path gives the result: the substitution of a pattern [c] is
    returned when every other accepting pattern has a lower priority, or
    the same priority and a later place in the declaration.  A custom
    pattern (100) so wins over a spec-derived one (50), and both over a
    learned one (30). *)
Theorem normalizePath_priority_order
    (p : string) (apiSpec : option IOpenAPIDocument)
    (before after : list IPathPattern) (c : IPathPattern) (r : string) :
  p <> "" ->
  specResult (slashNormalize p) apiSpec = None ->
  template c <> "" ->
  re_test (pattern c) (slashNormalize p) = Some true ->
  re_replace (pattern c) (slashNormalize p) (template c) = Some r ->
  (forall q, In q before ->
     tryPattern (slashNormalize p) apiSpec q = None \/ (prio q < prio c)%Z) ->
  (forall q, In q after ->
     tryPattern (slashNormalize p) apiSpec q = None \/ (prio q <= prio c)%Z) ->
  normalizePath p apiSpec (before ++ c :: after) = r.
Proof.
  intros Hp Hspec Ht Htest Hrep Hb Ha.
  unfold normalizePath. apply truthy_true in Hp. rewrite Hp. simpl.
  rewrite Hspec. unfold patternResult.
  rewrite (tryPatterns_leads (slashNormalize p) apiSpec c _ r); [reflexivity| |].
  - now apply leads_sortByPriority.
  - apply tryPattern_Some. auto.
Qed.

Lemma normalizePath_priority_order_witness :
  normalizePath "/users/me" None [specUsersIdPattern; customMePattern]
  = "/profile".
Proof.
  apply (normalizePath_priority_order "/users/me" None
           [specUsersIdPattern] [] customMePattern "/profile").
  - discriminate.
  - reflexivity.
  - discriminate.
  - reflexivity.
  - reflexivity.
  - intros q [<-|[]]. right. reflexivity.
  - intros q [].
Defined.

(** C4 as stated fails: the custom pattern (100) and the spec-derived
    pattern (50) both accept [/users/me], and the result is the spec
    template of the structural match, not the custom substitution. *)
Lemma normalizePath_spec_beats_custom :
  re_test (pattern customMePattern) "/users/me" = Some true /\
  re_test (pattern specUsersIdPattern) "/users/me" = Some true /\
  re_replace (pattern customMePattern) "/users/me" (template customMePattern)
  = Some "/profile" /\
  normalizePath "/users/me" (Some (docOfPaths ["/users/{id}"]))
    [customMePattern; specUsersIdPattern] = "/users/{id}".
Proof. repeat split. Qed.

(** ** [normalizePath]: totality and the shape of the result *)

Lemma specResult_Some (x : string) (apiSpec : option IOpenAPIDocument) (r : string) :
  specResult x apiSpec = Some r ->
  (r = x /\ specHasPath apiSpec x = true) \/
  (specHasPath apiSpec x = false /\
   exists doc entries, apiSpec = Some doc /\ paths doc = Some entries /\
     findStructural entries (segments x) = Some r).
Proof.
  unfold specResult. destruct (specHasPath apiSpec x) eqn:E.
  - intros [= <-]. now left.
  - destruct apiSpec as [doc|]; [|discriminate].
    destruct (paths doc) as [entries|] eqn:Ep; [|discriminate].
    intros H. right. split; [reflexivity|]. now exists doc, entries.
Qed.

Lemma specHasPath_In (apiSpec : option IOpenAPIDocument) (k : string) :
  specHasPath apiSpec k = true ->
  exists doc entries item,
    apiSpec = Some doc /\ paths doc = Some entries /\ In (k, Some item) entries.
Proof.
  unfold specHasPath. destruct apiSpec as [doc|]; [|discriminate].
  destruct (paths doc) as [entries|] eqn:Ep; [|discriminate].
  destruct (objGet entries k) as [[item|]|] eqn:Eg; try discriminate.
  intros _. exists doc, entries, item. repeat split; [exact Ep|].
  now apply objGet_In.
Qed.

Lemma specResult_In (x : string) (apiSpec : option IOpenAPIDocument) (r : string) :
  specResult x apiSpec = Some r ->
  exists doc entries item,
    apiSpec = Some doc /\ paths doc = Some entries /\ In (r, Some item) entries.
Proof.
  intros H. destruct (specResult_Some _ _ _ H) as [[-> Hx]|(_ & doc & entries & -> & Hp & Hf)].
  - now apply specHasPath_In.
  - destruct (findStructural_Some _ _ _ Hf) as (before & item & after & -> & _).
    exists doc, (before ++ (r, Some item) :: after), item.
    repeat split; [exact Hp|]. apply in_or_app. right. now left.
Qed.

(** C3, as the code has it: [normalizePath] is a total function (an
    exception of a pattern's [test] or [replace] is caught and the pattern
    skipped).  The empty path gives the empty string.  For a non-empty
    path the slash-normalised input starts with [/], it is the result when
    neither the spec nor a pattern resolves the path, and every result is
    the slash-normalised input, a path declared in the spec, or the
    substitution made by one of the patterns that accept the input. *)
Theorem normalizePath_total_and_fallback
    (path : string) (apiSpec : option IOpenAPIDocument)
    (customPatterns : list IPathPattern) :
  (path = "" -> normalizePath path apiSpec customPatterns = "") /\
  (path <> "" ->
   startsWith "/" (slashNormalize path) = true /\
   (specResult (slashNormalize path) apiSpec = None ->
    patternResult (slashNormalize path) apiSpec customPatterns = None ->
    normalizePath path apiSpec customPatterns = slashNormalize path) /\
   (normalizePath path apiSpec customPatterns = slashNormalize path
    \/ (exists doc entries item,
          apiSpec = Some doc /\ paths doc = Some entries /\
          In (normalizePath path apiSpec customPatterns, Some item) entries)
    \/ (exists q,
          In q customPatterns /\
          re_test (pattern q) (slashNormalize path) = Some true /\
          re_replace (pattern q) (slashNormalize path) (template q)
          = Some (normalizePath path apiSpec customPatterns)))).
Proof.
  split.
  - intros ->. reflexivity.
  - intros Hp. apply truthy_true in Hp.
    split; [apply startsWith_slashNormalize|].
    unfold normalizePath. rewrite Hp. simpl. split.
    + intros -> ->. reflexivity.
    + destruct (specResult (slashNormalize path) apiSpec) as [r|] eqn:Es.
      * right. left. now apply specResult_In with (x := slashNormalize path).
      * destruct (patternResult (slashNormalize path) apiSpec customPatterns)
          as [r|] eqn:Er; [|now left].
        right. right. unfold patternResult in Er.
        destruct (tryPatterns_Some_In _ _ _ _ Er) as (q & Hin & Hq).
        rewrite In_sortByPriority in Hin. apply tryPattern_Some in Hq.
        exists q. tauto.
Qed.

Lemma normalizePath_total_and_fallback_witness :
  startsWith "/" (slashNormalize "health") = true /\
  normalizePath "health" (Some (docOfPaths ["/users/{id}"])) [customMePattern]
  = "/health".
Proof.
  destruct (normalizePath_total_and_fallback "health"
              (Some (docOfPaths ["/users/{id}"])) [customMePattern])
    as [_ H].
  destruct H as (H1 & H2 & _); [discriminate|].
  split; [exact H1|]. apply H2; reflexivity.
Defined.

(** C3 as stated fails on the empty path, which the guard at the head of
    the function answers with the empty string; and a substitution result
    is returned as the pattern makes it, with or without a leading [/]. *)
Lemma normalizePath_empty_not_slash_prefixed :
  normalizePath "" None [] = "" /\
  startsWith "/" (normalizePath "" None []) = false /\
  normalizePath "/users/me" None
    [ {| pattern := literalRegExp "/users/me"; template := "profile";
         priority := Some 100%Z |} ] = "profile".
Proof. repeat split. Qed.

(** ** [normalizePath]: idempotence *)

Lemma segmentsMatch_refl (l : list string) : segmentsMatch l l = true.
Proof.
  induction l as [|s l IH]; simpl; [reflexivity|].
  destruct (isParamSegment s); [exact IH|]. now rewrite String.eqb_refl.
Qed.

Lemma segmentsMatch_trans (ks rs segs : list string) :
  segmentsMatch ks rs = true -> segmentsMatch rs segs = true ->
  length ks = length rs ->
  segmentsMatch ks segs = true.
Proof.
  revert rs segs. induction ks as [|k ks IH]; intros rs segs; simpl; [reflexivity|].
  destruct rs as [|r rs]; [discriminate|]. simpl.
  intros H1 H2 [= Hlen]. destruct (isParamSegment k) eqn:Ek.
  - destruct (isParamSegment r) eqn:Er.
    + now apply IH with (rs := rs).
    + destruct segs as [|s segs]; [discriminate|].
      destruct (String.eqb r s); [|discriminate]. now apply IH with (rs := rs).
  - destruct (String.eqb k r) eqn:Ekr; [|discriminate].
    apply String.eqb_eq in Ekr. subst r. rewrite Ek in H2.
    destruct segs as [|s segs]; [discriminate|].
    destruct (String.eqb k s); [|discriminate]. now apply IH with (rs := rs).
Qed.

Lemma structuralMatch_refl (t : string) : structuralMatch t (segments t) = true.
Proof.
  unfold structuralMatch. rewrite Nat.eqb_refl. apply segmentsMatch_refl.
Qed.

Lemma structuralMatch_trans (k r : string) (segs : list string) :
  structuralMatch k (segments r) = true -> structuralMatch r segs = true ->
  structuralMatch k segs = true.
Proof.
  unfold structuralMatch.
  destruct (Nat.eqb (length (segments r)) (length (segments k))) eqn:E1; [|discriminate].
  destruct (Nat.eqb (length segs) (length (segments r))) eqn:E2; [|discriminate].
  apply Nat.eqb_eq in E1, E2. intros H1 H2.
  replace (Nat.eqb (length segs) (length (segments k))) with true
    by (symmetry; apply Nat.eqb_eq; congruence).
  now apply segmentsMatch_trans with (rs := segments r).
Qed.

(** The spec path found for a request is the one found for itself. *)
Lemma findStructural_fixed (entries : list (string * option IPathItem))
    (segs : list string) (r : string) :
  findStructural entries segs = Some r ->
  findStructural entries (segments r) = Some r.
Proof.
  intros H. destruct (findStructural_Some _ _ _ H) as (before & item & after & -> & Hb & Hr).
  apply findStructural_first; [|apply structuralMatch_refl].
  intros k it Hin. destruct (structuralMatch k (segments r)) eqn:E; [|reflexivity].
  rewrite <- (Hb k it Hin). symmetry. now apply structuralMatch_trans with (r := r).
Qed.

Lemma normalizePath_slash_prefixed (x : string) (apiSpec : option IOpenAPIDocument)
    (customPatterns : list IPathPattern) :
  startsWith "/" x = true ->
  normalizePath x apiSpec customPatterns =
  match specResult x apiSpec with
  | Some specPath => specPath
  | None =>
      match patternResult x apiSpec customPatterns with
      | Some result => result
      | None => x
      end
  end.
Proof.
  intros Hx. unfold normalizePath.
  rewrite (startsWith_slash_truthy x Hx), (slashNormalize_fixed x Hx). reflexivity.
Qed.

(** C5, as the code has it: a substitution result is returned as the
    pattern makes it and need not be a fixed point.  With the declared
    paths starting with [/], [normalizePath] is idempotent at [p] whenever
    its result is not such a substitution: when the spec match resolves
    [p], when no pattern accepts it, or when the result is a path declared
    in the spec. *)
Theorem normalizePath_idempotent_on_canonical
    (p : string) (apiSpec : option IOpenAPIDocument)
    (customPatterns : list IPathPattern) :
  (forall doc entries k item,
     apiSpec = Some doc -> paths doc = Some entries ->
     In (k, Some item) entries -> startsWith "/" k = true) ->
  (specResult (slashNormalize p) apiSpec <> None
   \/ patternResult (slashNormalize p) apiSpec customPatterns = None
   \/ specHasPath apiSpec (normalizePath p apiSpec customPatterns) = true) ->
  normalizePath (normalizePath p apiSpec customPatterns) apiSpec customPatterns
  = normalizePath p apiSpec customPatterns.
Proof.
  intros Hkeys Hcanon.
  assert (Hdeclared : forall r, specHasPath apiSpec r = true ->
            normalizePath r apiSpec customPatterns = r).
  { intros r Hr. destruct (specHasPath_In _ _ Hr) as (doc & entries & item & Hd & Hp & Hin).
    rewrite normalizePath_slash_prefixed by now apply (Hkeys doc entries r item).
    unfold specResult. now rewrite Hr. }
  destruct (truthy p) eqn:Hp; [|unfold normalizePath; rewrite Hp; reflexivity].
  destruct Hcanon as [Hs|[Hn|Hd]]; [| |now apply Hdeclared].
  - destruct (specResult (slashNormalize p) apiSpec) as [r|] eqn:Es; [|contradiction].
    replace (normalizePath p apiSpec customPatterns) with r
      by (unfold normalizePath; now rewrite Hp, Es).
    destruct (specResult_In _ _ _ Es) as (doc & entries & item & Hdoc & Hpaths & Hin).
    pose proof (Hkeys doc entries r item Hdoc Hpaths Hin) as Hslash.
    rewrite normalizePath_slash_prefixed by exact Hslash.
    destruct (specResult_Some _ _ _ Es) as [[-> Hx]|(_ & doc' & entries' & Hdoc' & Hpaths' & Hf)].
    + unfold specResult. now rewrite Hx.
    + unfold specResult. destruct (specHasPath apiSpec r); [reflexivity|].
      rewrite Hdoc', Hpaths'. now rewrite (findStructural_fixed _ _ _ Hf).
  - unfold normalizePath at 2 3. rewrite Hp. simpl.
    destruct (specResult (slashNormalize p) apiSpec) as [r|] eqn:Es.
    + destruct (specResult_In _ _ _ Es) as (doc & entries & item & Hdoc & Hpaths & Hin).
      pose proof (Hkeys doc entries r item Hdoc Hpaths Hin) as Hslash.
      rewrite normalizePath_slash_prefixed by exact Hslash.
      destruct (specResult_Some _ _ _ Es) as [[-> Hx]|(_ & doc' & entries' & Hdoc' & Hpaths' & Hf)].
      * unfold specResult. now rewrite Hx.
      * unfold specResult. destruct (specHasPath apiSpec r); [reflexivity|].
        rewrite Hdoc', Hpaths'. now rewrite (findStructural_fixed _ _ _ Hf).
    + rewrite Hn. rewrite normalizePath_slash_prefixed by apply startsWith_slashNormalize.
      now rewrite Es, Hn.
Qed.

Lemma normalizePath_idempotent_on_canonical_witness :
  normalizePath
    (normalizePath "/users/42" (Some (docOfPaths ["/users/{id}"])) chainPatterns)
    (Some (docOfPaths ["/users/{id}"])) chainPatterns
  = normalizePath "/users/42" (Some (docOfPaths ["/users/{id}"])) chainPatterns.
Proof.
  apply normalizePath_idempotent_on_canonical.
  - intros doc entries k item [= <-] [= <-] [H|[]]. injection H as <- _. reflexivity.
  - left. discriminate.
Defined.

(** C5 as stated fails: with the patterns [/^\/a$/ -> /b] and
    [/^\/b$/ -> /c], [/a] is normalised to [/b] and [/b] to [/c]. *)
Lemma normalizePath_not_idempotent :
  normalizePath "/a" None chainPatterns = "/b" /\
  normalizePath (normalizePath "/a" None chainPatterns) None chainPatterns = "/c".
Proof. split; reflexivity. Qed.

(** ** Endpoint keys *)

Lemma split_not_nil (sep : ascii) (s : string) : split sep s <> [].
Proof.
  induction s as [|c s IH]; simpl; [discriminate|].
  destruct (Ascii.eqb c sep); [discriminate|].
  destruct (split sep s); [contradiction|discriminate].
Qed.

Lemma split_append_length (sep : ascii) (m p : string) :
  2 <= length (split sep (m +:+ String sep p)).
Proof.
  induction m as [|c m IH]; simpl.
  - rewrite Ascii.eqb_refl. simpl.
    pose proof (split_not_nil sep p). destruct (split sep p); [contradiction|simpl; lia].
  - destruct (Ascii.eqb c sep).
    + simpl. pose proof (split_not_nil sep (m +:+ String sep p)).
      destruct (split sep (m +:+ String sep p)); [contradiction|simpl; lia].
    + destruct (split sep (m +:+ String sep p)); simpl in *; lia.
Qed.

Lemma pathOf_defined (m p : string) : is_Some (pathOf (m +:+ " " +:+ p)).
Proof.
  unfold pathOf, keyParts, splitLimit.
  pose proof (split_append_length " " m p) as H. simpl in H.
  change (" " +:+ p) with (String " " p).
  destruct (split " " (m +:+ String " " p)) as [|a [|b l]]; simpl in H; try lia.
  now exists b.
Qed.

Lemma pathOf_endpointKey (o : Observation) : is_Some (pathOf (endpointKey o)).
Proof. apply pathOf_defined. Qed.

Lemma endpointMatchesTemplate_defined (c t : string) :
  is_Some (pathOf c) -> is_Some (pathOf t) ->
  exists b, endpointMatchesTemplate c t = Some b.
Proof.
  intros [pc Hc] [pt Ht]. unfold endpointMatchesTemplate. rewrite Hc, Ht.
  destruct (negb (String.eqb (methodOf c) (methodOf t))); [now exists false|].
  destruct (negb (Nat.eqb (length (segments pc)) (length (segments pt)))); eauto.
Qed.

(** The method test comes before every use of the paths. *)
Lemma endpointMatchesTemplate_other_method (c t : string) :
  methodOf c <> methodOf t -> endpointMatchesTemplate c t = Some false.
Proof.
  intros H. unfold endpointMatchesTemplate.
  apply String.eqb_neq in H. now rewrite H.
Qed.

(** ** The hit set *)

Lemma In_setAdd (s : list string) (x y : string) :
  In x (setAdd s y) <-> In x s \/ x = y.
Proof.
  unfold setAdd, setHas. destruct (existsb (String.eqb y) s) eqn:E.
  - split; [now left|]. intros [H| ->]; [exact H|].
    apply existsb_exists in E. destruct E as (z & Hz & Heq).
    apply String.eqb_eq in Heq. now subst.
  - rewrite in_app_iff. simpl. intuition.
Qed.

Lemma In_setDelete (s : list string) (x y : string) :
  In x (setDelete s y) <-> In x s /\ x <> y.
Proof.
  unfold setDelete. rewrite filter_In, negb_true_iff. now rewrite String.eqb_neq.
Qed.

Lemma In_fold_setDelete (rem s : list string) (x : string) :
  In x (fold_left setDelete rem s) <-> In x s /\ ~ In x rem.
Proof.
  revert s. induction rem as [|y rem IH]; intros s; simpl; [tauto|].
  rewrite IH, In_setDelete. intuition.
Qed.

Lemma collectRemovals_defined (l : list string) (key : string) :
  wellFormedKeys l -> is_Some (pathOf key) ->
  exists rem, collectRemovals l key = Some rem /\
    forall e, In e rem <->
      In e l /\ isTemplate e = false /\ endpointMatchesTemplate e key = Some true.
Proof.
  intros Hl Hkey. induction l as [|e l IH]; simpl.
  - exists []. split; [reflexivity|]. simpl. tauto.
  - destruct IH as (rem & -> & Hrem).
    { intros x Hx. apply Hl. now right. }
    destruct (isTemplate e) eqn:Et.
    + exists rem. split; [reflexivity|]. intros x. rewrite Hrem.
      split; [tauto|]. intros ([<-|Hx] & Hc & Hm); [congruence|tauto].
    + destruct (endpointMatchesTemplate_defined e key) as [b Hb];
        [apply Hl; now left|exact Hkey|].
      rewrite Hb. destruct b.
      * exists (e :: rem). split; [reflexivity|]. intros x. simpl. rewrite Hrem.
        split; [intros [<-|?]; tauto|tauto].
      * exists rem. split; [reflexivity|]. intros x. rewrite Hrem.
        split; [tauto|]. intros ([<-|Hx] & Hc & Hm); [congruence|tauto].
Qed.

Lemma hasMatchingTemplate_false (l : list string) (key : string) :
  hasMatchingTemplate l key = Some false ->
  forall t, In t l -> isTemplate t = true ->
    endpointMatchesTemplate key t = Some false.
Proof.
  induction l as [|e l IH]; simpl; [intros _ ? []|].
  destruct (isTemplate e) eqn:Et; simpl.
  - destruct (endpointMatchesTemplate key e) as [[|]|] eqn:Em; try discriminate.
    intros H t [<-|Ht] Htt; [exact Em|now apply IH].
  - intros H t [<-|Ht] Htt; [congruence|now apply IH].
Qed.

Lemma recordHit_invariant (hit : list string) (key : string) :
  is_Some (pathOf key) ->
  wellFormedKeys hit /\ deduplicated hit ->
  wellFormedKeys (recordHit hit key) /\ deduplicated (recordHit hit key).
Proof.
  intros Hkey [Hwf Hdd]. unfold recordHit.
  destruct (isTemplate key) eqn:Ek.
  - assert (Hwf' : wellFormedKeys (setAdd hit key)).
    { intros e He. apply In_setAdd in He. destruct He as [He| ->]; auto. }
    destruct (collectRemovals_defined _ key Hwf' Hkey) as (rem & -> & Hrem).
    split.
    + intros e He. apply In_fold_setDelete in He. apply Hwf'. tauto.
    + intros t c Ht Hc Htt Hct.
      apply In_fold_setDelete in Ht, Hc. destruct Ht as [Ht _], Hc as [Hc Hnc].
      apply In_setAdd in Ht, Hc.
      destruct Hc as [Hc| ->]; [|congruence].
      destruct Ht as [Ht| ->]; [now apply Hdd|].
      destruct (endpointMatchesTemplate_defined c key) as [[|] Hb];
        [now apply Hwf|exact Hkey| |exact Hb].
      exfalso. apply Hnc. apply Hrem. rewrite In_setAdd. tauto.
  - destruct (hasMatchingTemplate hit key) as [[|]|] eqn:Eh; [tauto| |tauto].
    split.
    + intros e He. apply In_setAdd in He. destruct He as [He| ->]; auto.
    + intros t c Ht Hc Htt Hct. apply In_setAdd in Ht, Hc.
      destruct Ht as [Ht| ->]; [|congruence].
      destruct Hc as [Hc| ->]; [now apply Hdd|].
      now apply (hasMatchingTemplate_false hit key Eh).
Qed.

Lemma fold_recordHit_invariant (observations : list Observation) (hit : list string) :
  wellFormedKeys hit /\ deduplicated hit ->
  let hit' := fold_left (fun h o => recordHit h (endpointKey o)) observations hit in
  wellFormedKeys hit' /\ deduplicated hit'.
Proof.
  revert hit. induction observations as [|o observations IH]; intros hit H; simpl.
  - exact H.
  - apply IH. apply recordHit_invariant; [apply pathOf_endpointKey|exact H].
Qed.

(** C2: after any sequence of recorded observations, no templated key of
    the hit set is matched by a concrete key of the set (templated and
    concrete as the interceptor tells them apart, a match as
    [endpointMatchesTemplate] decides it: equal methods, equal segment
    counts, equal literal segments); [GET /users/{id}] then
    [GET /users/42], and the two in the other order, both leave the set
    with the one key [GET /users/{id}]. *)
Theorem recordAll_deduplicated :
  (forall (observations : list Observation) (t c : string),
     In t (recordAll observations) -> In c (recordAll observations) ->
     isTemplate t = true -> isTemplate c = false ->
     endpointMatchesTemplate c t = Some false) /\
  recordAll [mkObservation (Some "GET") "/users/{id}";
             mkObservation (Some "GET") "/users/42"] = ["GET /users/{id}"] /\
  recordAll [mkObservation (Some "GET") "/users/42";
             mkObservation (Some "GET") "/users/{id}"] = ["GET /users/{id}"].
Proof.
  split; [|split; reflexivity].
  intros observations.
  destruct (fold_recordHit_invariant observations []) as [_ H].
  - split; [intros ? []|intros ? ? []].
  - exact H.
Qed.

Lemma recordAll_deduplicated_witness :
  endpointMatchesTemplate "POST /users/42" "GET /users/{id}" = Some false.
Proof.
  destruct recordAll_deduplicated as [H _].
  apply (H [mkObservation (Some "get") "/users/{id}";
            mkObservation (Some "post") "/users/42";
            mkObservation None "/users/7"]).
  - left. reflexivity.
  - right. left. reflexivity.
  - reflexivity.
  - reflexivity.
Defined.

(** ** Braces and [replaceParams] *)

Lemma includes_char_cons (ch c : ascii) (s : string) :
  includes (String ch "") (String c s) = Ascii.eqb ch c || includes (String ch "") s.
Proof. simpl. now rewrite andb_true_r. Qed.

Lemma includes_char_app (ch : ascii) (a b : string) :
  includes (String ch "") (a +:+ b)
  = includes (String ch "") a || includes (String ch "") b.
Proof.
  induction a as [|c a IH].
  - reflexivity.
  - change (String c a +:+ b) with (String c (a +:+ b)).
    rewrite !includes_char_cons, IH. now rewrite orb_assoc.
Qed.

Lemma closingAt_includes (s : string) (n : nat) :
  closingAt s = Some n -> includes "}" s = true.
Proof.
  revert n. induction s as [|c s IH]; intros n; simpl; [discriminate|].
  destruct (Ascii.eqb c "}") eqn:E.
  - intros _. apply Ascii.eqb_eq in E. subst c. reflexivity.
  - destruct (closingAt s) as [k|]; [|discriminate].
    intros _. rewrite (IH k eq_refl). now rewrite orb_true_r.
Qed.

Lemma replaceParams_without_braces (s : string) :
  includes "{" s = false \/ includes "}" s = false -> replaceParams s = s.
Proof.
  unfold replaceParams. induction s as [|c s IH]; [reflexivity|].
  rewrite !includes_char_cons. intros H. simpl.
  destruct (Ascii.eqb c "{") eqn:Ec.
  - apply Ascii.eqb_eq in Ec. subst c. simpl in H.
    destruct H as [H|H]; [discriminate|].
    unfold paramMatchLength. destruct (closingAt s) as [n|] eqn:En.
    + rewrite (closingAt_includes s n En) in H. discriminate.
    + rewrite IH; [reflexivity|now right].
  - rewrite IH; [reflexivity|].
    destruct H as [H|H]; apply orb_false_iff in H; tauto.
Qed.

Lemma replaceParamsFrom_keeps_brace (ch : ascii) (s : string) :
  ch = "{"%char \/ ch = "}"%char ->
  forall skip, includes (String ch "") (slice skip s) = true ->
    includes (String ch "") (replaceParamsFrom skip s) = true.
Proof.
  intros Hch. induction s as [|c s IH]; intros skip.
  - destruct skip; simpl; discriminate.
  - destruct skip as [|k]; [|simpl; apply IH].
    change (slice 0 (String c s)) with (String c s).
    rewrite includes_char_cons. intros H. simpl.
    destruct (Ascii.eqb c "{") eqn:Ec.
    + destruct (paramMatchLength s) as [n|].
      * rewrite includes_char_app. destruct Hch as [-> | ->]; reflexivity.
      * rewrite includes_char_cons. apply orb_true_iff in H.
        destruct H as [->|H]; [reflexivity|].
        rewrite (IH O); [now rewrite orb_true_r|exact H].
    + rewrite includes_char_cons. apply orb_true_iff in H.
      destruct H as [->|H]; [reflexivity|].
      rewrite (IH O); [now rewrite orb_true_r|exact H].
Qed.

Lemma isTemplate_key (method path : string) :
  isTemplate (method +:+ " " +:+ path)
  = (includes "{" method || includes "{" path)
    && (includes "}" method || includes "}" path).
Proof.
  unfold isTemplate. rewrite !includes_char_app. simpl. reflexivity.
Qed.

Lemma structureKey_concrete (method path : string) :
  isTemplate (method +:+ " " +:+ path) = false ->
  structureKey method path = method +:+ " " +:+ path.
Proof.
  rewrite isTemplate_key. intros H. unfold structureKey.
  rewrite replaceParams_without_braces; [reflexivity|].
  apply andb_false_iff in H. destruct H as [H|H]; apply orb_false_iff in H; tauto.
Qed.

Lemma structureKey_template (method path : string) :
  isTemplate (method +:+ " " +:+ path) = true ->
  isTemplate (structureKey method path) = true.
Proof.
  unfold structureKey. rewrite !isTemplate_key. intros H.
  apply andb_true_iff in H. destruct H as [H1 H2].
  apply andb_true_iff. split.
  - apply orb_true_iff in H1. destruct H1 as [->|H1]; [reflexivity|].
    unfold replaceParams.
    rewrite (replaceParamsFrom_keeps_brace "{" path (or_introl eq_refl) O H1).
    now rewrite orb_true_r.
  - apply orb_true_iff in H2. destruct H2 as [->|H2]; [reflexivity|].
    unfold replaceParams.
    rewrite (replaceParamsFrom_keeps_brace "}" path (or_intror eq_refl) O H2).
    now rewrite orb_true_r.
Qed.

(** ** Insertion-ordered maps *)

Lemma objGet_mapSet_eq {A : Type} (m : list (string * A)) (k : string) (v : A) :
  objGet (mapSet m k v) k = Some v.
Proof.
  induction m as [|[k' v'] m IH]; simpl.
  - now rewrite String.eqb_refl.
  - destruct (String.eqb k' k) eqn:E; simpl; rewrite E; [reflexivity|exact IH].
Qed.

Lemma objGet_mapSet_ne {A : Type} (m : list (string * A)) (k k0 : string) (v : A) :
  k <> k0 -> objGet (mapSet m k v) k0 = objGet m k0.
Proof.
  intros Hne. induction m as [|[k' v'] m IH]; simpl.
  - apply String.eqb_neq in Hne. now rewrite Hne.
  - destruct (String.eqb k' k) eqn:E; simpl.
    + apply String.eqb_eq in E. subst k'.
      apply String.eqb_neq in Hne. now rewrite Hne.
    + destruct (String.eqb k' k0); [reflexivity|exact IH].
Qed.

(** ** [normalizeEndpoints] *)

Section NormalizeEndpointsProperties.

Variable newRegExp : string -> string -> option RegExp.
Variable patterns : list IEndpointPattern.

Lemma normalizedEndpointOf_keyed (endpoint k v : string) :
  normalizedEndpointOf newRegExp patterns endpoint = Some (k, v) ->
  exists method path, v = method +:+ " " +:+ path /\ k = structureKey method path.
Proof.
  unfold normalizedEndpointOf. destruct (malformed endpoint); [discriminate|].
  destruct (pathOf endpoint) as [path|]; [|discriminate].
  destruct (negb (truthy path)); [discriminate|].
  intros [= <- <-]. eauto.
Qed.

Lemma normalizeEndpointStep_keyed (m : list (string * string)) (endpoint : string) :
  entriesKeyed m -> entriesKeyed (normalizeEndpointStep newRegExp patterns m endpoint).
Proof.
  intros Hm. unfold normalizeEndpointStep.
  destruct (normalizedEndpointOf newRegExp patterns endpoint) as [[k v]|] eqn:E;
    [|exact Hm].
  assert (Hset : entriesKeyed (mapSet m k v)).
  { intros k0 v0. destruct (String.eqb_spec k k0) as [<-|Hne].
    - rewrite objGet_mapSet_eq. intros [= <-]. now apply normalizedEndpointOf_keyed with endpoint.
    - rewrite objGet_mapSet_ne by exact Hne. apply Hm. }
  destruct (isTemplate v); [exact Hset|].
  destruct (negb (mapHas m k)); [exact Hset|exact Hm].
Qed.

Lemma fold_normalizeEndpointStep_keyed (endpoints : list string)
    (m : list (string * string)) :
  entriesKeyed m ->
  entriesKeyed (fold_left (normalizeEndpointStep newRegExp patterns) endpoints m).
Proof.
  revert m. induction endpoints as [|e endpoints IH]; intros m Hm; simpl; [exact Hm|].
  apply IH. now apply normalizeEndpointStep_keyed.
Qed.

(** The step stores the endpoint under its key, or finds it there. *)
Lemma normalizeEndpointStep_stores (m : list (string * string))
    (endpoint method path : string) :
  entriesKeyed m ->
  normalizedEndpointOf newRegExp patterns endpoint
  = Some (structureKey method path, method +:+ " " +:+ path) ->
  objGet (normalizeEndpointStep newRegExp patterns m endpoint) (structureKey method path)
  = Some (method +:+ " " +:+ path).
Proof.
  intros Hm E. unfold normalizeEndpointStep. rewrite E.
  destruct (isTemplate (method +:+ " " +:+ path)) eqn:Et; [apply objGet_mapSet_eq|].
  unfold mapHas.
  destruct (objGet m (structureKey method path)) as [v|] eqn:Eg; simpl;
    [|apply objGet_mapSet_eq].
  rewrite Eg. f_equal.
  destruct (Hm _ _ Eg) as (method' & path' & -> & Hk).
  rewrite (structureKey_concrete method path Et) in Hk.
  destruct (isTemplate (method' +:+ " " +:+ path')) eqn:Et'.
  - apply structureKey_template in Et'. rewrite <- Hk in Et'. congruence.
  - now rewrite (structureKey_concrete method' path' Et') in Hk.
Qed.

(** A later step leaves the entry alone unless it stores a templated
    endpoint under the same key. *)
Lemma normalizeEndpointStep_keeps (m : list (string * string))
    (endpoint k v : string) :
  objGet m k = Some v ->
  (forall k' v', normalizedEndpointOf newRegExp patterns endpoint = Some (k', v') ->
     isTemplate v' = true -> k' <> k) ->
  objGet (normalizeEndpointStep newRegExp patterns m endpoint) k = Some v.
Proof.
  intros Hg Hother. unfold normalizeEndpointStep.
  destruct (normalizedEndpointOf newRegExp patterns endpoint) as [[k' v']|]; [|exact Hg].
  destruct (isTemplate v') eqn:Et.
  - rewrite objGet_mapSet_ne; [exact Hg|]. now apply (Hother k' v').
  - unfold mapHas. destruct (objGet m k') as [w|] eqn:Eg'; simpl; [exact Hg|].
    rewrite objGet_mapSet_ne; [exact Hg|]. intros ->. congruence.
Qed.

Lemma fold_normalizeEndpointStep_keeps (after : list string)
    (m : list (string * string)) (k v : string) :
  objGet m k = Some v ->
  (forall e' k' v', In e' after ->
     normalizedEndpointOf newRegExp patterns e' = Some (k', v') ->
     isTemplate v' = true -> k' <> k) ->
  objGet (fold_left (normalizeEndpointStep newRegExp patterns) after m) k = Some v.
Proof.
  revert m. induction after as [|e after IH]; intros m Hg Hother; simpl; [exact Hg|].
  apply IH.
  - apply normalizeEndpointStep_keeps; [exact Hg|].
    intros k' v'. apply (Hother e). now left.
  - intros e' k' v' Hin. apply (Hother e'). now right.
Qed.

(** C7, as the code has it: a substitution result that contains [}{],
    [}}] or [{{] is dropped and the endpoint goes on with its path as it
    was before the substitutions; the second pass then keeps one endpoint
    per structure key, so this endpoint is in the output unless a later
    endpoint of the same structure key is normalised to a templated
    endpoint, which takes its place. *)
Theorem normalizeEndpoints_rejects_malformed
    (before after : list string) (endpoint path : string) :
  patterns <> [] ->
  malformed endpoint = false ->
  pathOf endpoint = Some path ->
  path <> "" ->
  malformed (applyEndpointPatterns newRegExp path patterns) = true ->
  normalizedEndpointOf newRegExp patterns endpoint
  = Some (structureKey (methodOf endpoint) path, methodOf endpoint +:+ " " +:+ path)
  /\ ((forall e' k' v', In e' after ->
         normalizedEndpointOf newRegExp patterns e' = Some (k', v') ->
         isTemplate v' = true -> k' <> structureKey (methodOf endpoint) path) ->
      In (methodOf endpoint +:+ " " +:+ path)
         (normalizeEndpoints newRegExp (before ++ endpoint :: after) patterns)).
Proof.
  intros Hpat Hwell Hpath Hne Hbad.
  assert (E : normalizedEndpointOf newRegExp patterns endpoint
              = Some (structureKey (methodOf endpoint) path,
                      methodOf endpoint +:+ " " +:+ path)).
  { unfold normalizedEndpointOf. rewrite Hwell, Hpath.
    apply truthy_true in Hne. rewrite Hne. simpl. now rewrite Hbad. }
  split; [exact E|]. intros Hafter.
  unfold normalizeEndpoints. destruct patterns as [|p0 ps] eqn:Ep; [contradiction|].
  rewrite <- Ep in *. rewrite fold_left_app. simpl.
  unfold mapValues.
  apply (in_map snd _ (structureKey (methodOf endpoint) path,
                       methodOf endpoint +:+ " " +:+ path)).
  apply objGet_In. apply fold_normalizeEndpointStep_keeps; [|exact Hafter].
  apply normalizeEndpointStep_stores; [|exact E].
  apply fold_normalizeEndpointStep_keyed. intros k v. discriminate.
Qed.

End NormalizeEndpointsProperties.

Lemma normalizeEndpoints_rejects_malformed_witness :
  In "GET /users/{id}/x"
     (normalizeEndpoints sampleEngine
        ["GET /health"; "GET /users/{id}/x"; "GET /orders/7"]
        sampleEndpointPatterns).
Proof.
  apply (normalizeEndpoints_rejects_malformed sampleEngine sampleEndpointPatterns
           ["GET /health"] ["GET /orders/7"] "GET /users/{id}/x" "/users/{id}/x").
  - discriminate.
  - reflexivity.
  - reflexivity.
  - discriminate.
  - reflexivity.
  - intros e' k' v' [<-|[]]. vm_compute. intros [= <- <-]. discriminate.
Defined.

(** C7 as stated fails: both endpoints have their substitution rejected
    ([/users/{id}{a}], [/users/{uid}{a}]) and keep their paths, which
    share the structure key [GET /users/{PARAM}/x]; the output holds the
    later one only. *)
Lemma normalizeEndpoints_drops_rejected_path :
  applyEndpointPatterns sampleEngine "/users/{id}/x" sampleEndpointPatterns
  = "/users/{id}{a}" /\
  malformed "/users/{id}{a}" = true /\
  normalizeEndpoints sampleEngine
    ["GET /users/{id}/x"; "GET /users/{uid}/x"] sampleEndpointPatterns
  = ["GET /users/{uid}/x"].
Proof. repeat split. Qed.

(** ** Methods of endpoint keys *)

Lemma split_head_no_sep (sep : ascii) (s h : string) (t : list string) :
  split sep s = h :: t -> includes (String sep "") h = false.
Proof.
  revert h t. induction s as [|c s IH]; intros h t; simpl.
  - intros [= <- _]. reflexivity.
  - destruct (Ascii.eqb c sep) eqn:E.
    + intros [= <- _]. reflexivity.
    + destruct (split sep s) as [|h' t'] eqn:Es.
      * intros [= <- _]. rewrite includes_char_cons.
        rewrite Ascii.eqb_sym, E. reflexivity.
      * intros [= <- _]. rewrite includes_char_cons.
        rewrite Ascii.eqb_sym, E. simpl. now apply (IH h' t').
Qed.

Lemma methodOf_no_space (e : string) : includes " " (methodOf e) = false.
Proof.
  unfold methodOf, keyParts, splitLimit.
  destruct (split " " e) as [|h t] eqn:Es; [reflexivity|].
  simpl. now apply (split_head_no_sep " " e h t).
Qed.

Lemma split_append_sep (sep : ascii) (m x : string) :
  includes (String sep "") m = false ->
  split sep (m +:+ String sep x) = m :: split sep x.
Proof.
  induction m as [|c m IH]; simpl.
  - intros _. now rewrite Ascii.eqb_refl.
  - rewrite andb_true_r. intros H. apply orb_false_iff in H. destruct H as [Hc Hm].
    rewrite Ascii.eqb_sym, Hc. change (includes (String sep "") m = false) in Hm.
    now rewrite (IH Hm).
Qed.

Lemma methodOf_key (m x : string) :
  includes " " m = false -> methodOf (m +:+ " " +:+ x) = m.
Proof.
  intros H. unfold methodOf, keyParts, splitLimit.
  change (" " +:+ x) with (String " " x).
  now rewrite (split_append_sep " " m x H).
Qed.

Lemma structureKeyOf_method (e k : string) :
  structureKeyOf e = Some k -> methodOf k = methodOf e.
Proof.
  unfold structureKeyOf, structureKey. destruct (pathOf e) as [path|]; [|discriminate].
  intros [= <-]. apply methodOf_key, methodOf_no_space.
Qed.

Lemma setHas_In (s : list string) (x : string) : setHas s x = true <-> In x s.
Proof.
  unfold setHas. rewrite existsb_exists. split.
  - intros (y & Hy & E). apply String.eqb_eq in E. now subst.
  - intros H. exists x. split; [exact H|apply String.eqb_refl].
Qed.

Lemma In_fold_setAdd (l acc : list string) (x : string) :
  In x (fold_left setAdd l acc) <-> In x acc \/ In x l.
Proof.
  revert acc. induction l as [|y l IH]; intros acc; simpl; [tauto|].
  rewrite IH, In_setAdd. intuition.
Qed.

Lemma In_uniq (l : list string) (x : string) : In x (uniq l) <-> In x l.
Proof. unfold uniq. rewrite In_fold_setAdd. simpl. tauto. Qed.

(** ** The hit set and the method *)

Lemma collectRemovals_In (l : list string) (key : string) (rem : list string) :
  collectRemovals l key = Some rem ->
  forall e, In e rem -> endpointMatchesTemplate e key = Some true.
Proof.
  revert rem. induction l as [|x l IH]; intros rem; simpl.
  - intros [= <-] e [].
  - destruct (isTemplate x); [apply IH|].
    destruct (endpointMatchesTemplate x key) as [b|] eqn:Em; [|discriminate].
    destruct (collectRemovals l key) as [rem'|]; [|discriminate].
    intros [= <-] e. destruct b; [|now apply IH].
    intros [<-|He]; [exact Em|now apply (IH rem')].
Qed.

Lemma recordHit_keeps_other_method (hit : list string) (key e : string) :
  In e hit -> methodOf e <> methodOf key -> In e (recordHit hit key).
Proof.
  intros He Hm. unfold recordHit. destruct (isTemplate key).
  - destruct (collectRemovals (setAdd hit key) key) as [rem|] eqn:Er.
    + apply In_fold_setDelete. split; [apply In_setAdd; now left|].
      intros Hin. pose proof (collectRemovals_In _ _ _ Er e Hin) as Ht.
      rewrite (endpointMatchesTemplate_other_method e key Hm) in Ht. discriminate.
    + apply In_setAdd. now left.
  - destruct (hasMatchingTemplate hit key) as [[|]|]; try exact He.
    apply In_setAdd. now left.
Qed.

Lemma hasMatchingTemplate_other_methods (hit : list string) (key : string) :
  (forall t, In t hit -> isTemplate t = true -> methodOf t <> methodOf key) ->
  hasMatchingTemplate hit key = Some false.
Proof.
  induction hit as [|x hit IH]; intros H; simpl; [reflexivity|].
  destruct (isTemplate x) eqn:Et; simpl.
  - rewrite endpointMatchesTemplate_other_method.
    + apply IH. intros t Ht. apply H. now right.
    + intros Heq. apply (H x); [now left|exact Et|now symmetry].
  - apply IH. intros t Ht. apply H. now right.
Qed.

(** ** The partition of the hits against the spec *)

Lemma specStructuresFrom_keyed (specEndpoints : list string)
    (m0 m : gmap string string) :
  specStructuresFrom m0 specEndpoints = Some m ->
  structuresKeyed m0 -> structuresKeyed m.
Proof.
  revert m0. induction specEndpoints as [|e rest IH]; intros m0; simpl.
  - intros [= <-]. auto.
  - destruct (structureKeyOf e) as [key|] eqn:Ek; [|discriminate].
    intros H Hm0. apply (IH _ H). intros k e'.
    destruct (decide (key = k)) as [<-|Hne].
    + rewrite lookup_insert_eq. intros [= <-]. exact Ek.
    + rewrite lookup_insert_ne by exact Hne. apply Hm0.
Qed.

Lemma classifyHits_method (specEndpoints : list string)
    (m : gmap string string) (hits additional extra : list string) :
  structuresKeyed m ->
  classifyHits specEndpoints m hits = Some (additional, extra) ->
  forall s, In s additional -> exists h, In h hits /\ methodOf h = methodOf s.
Proof.
  intros Hm. revert additional extra.
  induction hits as [|h hits IH]; intros additional extra; simpl.
  - intros [= <- _] s [].
  - destruct (setHas specEndpoints h).
    + intros H s Hs. destruct (IH _ _ H s Hs) as (h' & Hin & Heq). eauto.
    + destruct (structureKeyOf h) as [key|] eqn:Ek; [|discriminate].
      destruct (classifyHits specEndpoints m hits) as [[add' extra']|]; [|discriminate].
      assert (Hrest : forall s, In s add' ->
                exists h', In h' (h :: hits) /\ methodOf h' = methodOf s).
      { intros s Hs. destruct (IH _ _ eq_refl s Hs) as (h' & Hin & Heq).
        exists h'. split; [now right|exact Heq]. }
      destruct (m !! key) as [specEndpoint|] eqn:El.
      * intros [= <- _] s. destruct (truthy specEndpoint); [|apply Hrest].
        intros [<-|Hs]; [|now apply Hrest].
        exists h. split; [now left|].
        rewrite <- (structureKeyOf_method h key Ek).
        now rewrite <- (structureKeyOf_method specEndpoint key (Hm _ _ El)).
      * intros [= <- _]. apply Hrest.
Qed.

Lemma In_mapSet {A : Type} (m : list (string * A)) (k k0 : string) (v v0 : A) :
  In (k0, v0) (mapSet m k v) -> (k0, v0) = (k, v) \/ In (k0, v0) m.
Proof.
  induction m as [|[k' v'] m IH]; simpl.
  - intros [H|[]]. left. now symmetry.
  - destruct (String.eqb k' k) eqn:E; simpl.
    + apply String.eqb_eq in E. subst k'. intros [H|H]; [left; now symmetry|tauto].
    + intros [H|H]; [tauto|]. destruct (IH H); tauto.
Qed.

Section NormalizedHitsMethod.

Variable newRegExp : string -> string -> option RegExp.
Variable patterns : list IEndpointPattern.

Lemma normalizedEndpointOf_method (endpoint k v : string) :
  normalizedEndpointOf newRegExp patterns endpoint = Some (k, v) ->
  methodOf v = methodOf endpoint.
Proof.
  unfold normalizedEndpointOf. destruct (malformed endpoint); [discriminate|].
  destruct (pathOf endpoint) as [path|]; [|discriminate].
  destruct (negb (truthy path)); [discriminate|].
  intros [= _ <-]. apply methodOf_key, methodOf_no_space.
Qed.

Lemma fold_normalizeEndpointStep_method (endpoints : list string)
    (m : list (string * string)) :
  (forall k v, In (k, v) m -> exists e, In e endpoints /\ methodOf e = methodOf v) ->
  forall processed,
    (forall e, In e processed -> In e endpoints) ->
    forall k v,
      In (k, v) (fold_left (normalizeEndpointStep newRegExp patterns) processed m) ->
      exists e, In e endpoints /\ methodOf e = methodOf v.
Proof.
  intros Hm processed. revert m Hm.
  induction processed as [|e processed IH]; intros m Hm Hsub k v; simpl; [apply Hm|].
  apply IH; [|intros e' He'; apply Hsub; now right].
  intros k' v'. unfold normalizeEndpointStep.
  destruct (normalizedEndpointOf newRegExp patterns e) as [[ke ve]|] eqn:E; [|apply Hm].
  assert (Hset : In (k', v') (mapSet m ke ve) ->
                 exists e0, In e0 endpoints /\ methodOf e0 = methodOf v').
  { intros Hin. destruct (In_mapSet _ _ _ _ _ Hin) as [[= -> ->]|Hold]; [|now apply (Hm k')].
    exists e. split; [apply Hsub; now left|].
    symmetry. now apply normalizedEndpointOf_method with ke. }
  destruct (isTemplate ve); [exact Hset|].
  destruct (negb (mapHas m ke)); [exact Hset|apply Hm].
Qed.

Lemma normalizeEndpoints_method (endpoints : list string) (v : string) :
  In v (normalizeEndpoints newRegExp endpoints patterns) ->
  exists e, In e endpoints /\ methodOf e = methodOf v.
Proof.
  unfold normalizeEndpoints. destruct patterns as [|p0 ps] eqn:Ep.
  - intros H. now exists v.
  - rewrite <- Ep. unfold mapValues. rewrite in_map_iff.
    intros ([k v'] & Hv & Hin). simpl in Hv. subst v'.
    apply (fold_normalizeEndpointStep_method endpoints [] (fun _ _ H => match H with end)
             endpoints (fun _ H => H) k v Hin).
Qed.

End NormalizedHitsMethod.



(** ** The report is produced *)

Lemma structureKeyOf_defined (e : string) :
  hasPath e -> exists k, structureKeyOf e = Some k.
Proof. intros [path H]. unfold structureKeyOf. rewrite H. eauto. Qed.

Lemma specStructuresFrom_defined (specEndpoints : list string)
    (m0 : gmap string string) :
  Forall hasPath specEndpoints ->
  exists m, specStructuresFrom m0 specEndpoints = Some m.
Proof.
  intros H. revert m0. induction H as [|e rest He _ IH]; intros m0; simpl; [eauto|].
  destruct (structureKeyOf_defined e He) as [k ->]. apply IH.
Qed.

Lemma classifyHits_defined (specEndpoints : list string)
    (m : gmap string string) (hits : list string) :
  Forall hasPath hits ->
  exists additional extra,
    classifyHits specEndpoints m hits = Some (additional, extra) /\
    Forall hasPath extra.
Proof.
  induction 1 as [|h hits Hh _ IH]; simpl; [eauto|].
  destruct IH as (additional & extra & -> & Hextra).
  destruct (setHas specEndpoints h); [eauto|].
  destruct (structureKeyOf_defined h Hh) as [k ->].
  destruct (m !! k); eauto.
Qed.

Lemma extraByStructureFrom_defined (extra : list string)
    (m0 : list (string * string)) :
  Forall hasPath extra -> exists m, extraByStructureFrom m0 extra = Some m.
Proof.
  intros H. revert m0. induction H as [|e rest He _ IH]; intros m0; simpl; [eauto|].
  destruct (structureKeyOf_defined e He) as [k ->]. apply IH.
Qed.

Lemma groupErrorsFrom_defined (entries : list (string * IServerErrorRecord))
    (groups0 : list (string * ErrorGroup)) :
  Forall (fun e => hasPath (fst e)) entries ->
  exists groups, groupErrorsFrom groups0 entries = Some groups.
Proof.
  intros H. revert groups0.
  induction H as [|[e r] rest He _ IH]; intros groups0; simpl; [eauto|].
  destruct He as [path Hp]. unfold errorStructureKey. simpl in Hp. rewrite Hp.
  apply IH.
Qed.

Lemma generateServerErrorStats_defined
    (allServerErrors : list (string * IServerErrorRecord)) :
  Forall (fun e => hasPath (fst e)) allServerErrors ->
  exists stats, generateServerErrorStats allServerErrors = Some stats.
Proof.
  intros H. unfold generateServerErrorStats, normalizedErrors, groupErrors.
  destruct (groupErrorsFrom_defined allServerErrors [] H) as [groups ->]. simpl. eauto.
Qed.

Lemma normalizeEndpoints_hasPath newRegExp (endpoints : list string)
    (patterns : list IEndpointPattern) :
  Forall hasPath endpoints ->
  Forall hasPath (normalizeEndpoints newRegExp endpoints patterns).
Proof.
  intros H. unfold normalizeEndpoints. destruct patterns as [|p0 ps] eqn:Ep; [exact H|].
  rewrite <- Ep. clear H Ep.
  assert (Hgen : forall (m : list (string * string)),
            (forall k0 v0, In (k0, v0) m -> hasPath v0) ->
            forall k0 v0,
              In (k0, v0) (fold_left (normalizeEndpointStep newRegExp patterns) endpoints m) ->
              hasPath v0).
  { induction endpoints as [|e rest IH]; intros m Hm k0 v0; simpl; [apply Hm|].
    apply IH. intros k1 v1. unfold normalizeEndpointStep.
    destruct (normalizedEndpointOf newRegExp patterns e) as [[ke ve]|] eqn:E; [|apply Hm].
    assert (Hset : In (k1, v1) (mapSet m ke ve) -> hasPath v1).
    { intros Hin1. destruct (In_mapSet _ _ _ _ _ Hin1) as [[= -> ->]|Hold]; [|now apply (Hm k1)].
      destruct (normalizedEndpointOf_keyed _ _ _ _ _ E) as (method & path & -> & _).
      apply pathOf_defined. }
    destruct (isTemplate ve); [exact Hset|].
    destruct (negb (mapHas m ke)); [exact Hset|apply Hm]. }
  unfold mapValues. apply List.Forall_forall. intros v.
  rewrite in_map_iff. intros ([k v'] & <- & Hin). simpl.
  apply (Hgen [] (fun _ _ H => match H with end) k v' Hin).
Qed.

(** ** [generateMethodCoverage] *)

Lemma countEndpoint_dom (tested : list string)
    (mc : gmap string IMethodCoverage) (endpoint : string) :
  dom (countEndpoint tested mc endpoint) = dom mc.
Proof.
  unfold countEndpoint. destruct (mc !! methodOf endpoint) as [c|] eqn:E; [|reflexivity].
  rewrite dom_insert_L. apply elem_of_dom_2 in E.
  apply subseteq_union_1_L. now apply singleton_subseteq_l.
Qed.

Lemma fold_countEndpoint_dom (tested specEndpoints : list string)
    (mc : gmap string IMethodCoverage) :
  dom (fold_left (countEndpoint tested) specEndpoints mc) = dom mc.
Proof.
  revert mc. induction specEndpoints as [|e rest IH]; intros mc; simpl; [reflexivity|].
  now rewrite IH, countEndpoint_dom.
Qed.

Lemma fold_countEndpoint_percentage (tested specEndpoints : list string)
    (mc : gmap string IMethodCoverage) :
  (forall m c, mc !! m = Some c -> mc_percentage c = 0%float) ->
  forall m c, fold_left (countEndpoint tested) specEndpoints mc !! m = Some c ->
    mc_percentage c = 0%float.
Proof.
  revert mc. induction specEndpoints as [|e rest IH]; intros mc Hmc; simpl; [exact Hmc|].
  apply IH. intros m c. unfold countEndpoint.
  destruct (mc !! methodOf e) as [c0|] eqn:E; [|apply Hmc].
  destruct (decide (methodOf e = m)) as [<-|Hne].
  - rewrite lookup_insert_eq. intros [= <-]. simpl. now apply (Hmc (methodOf e)).
  - rewrite lookup_insert_ne by exact Hne. apply Hmc.
Qed.

Lemma fold_countEndpoint_untouched (tested specEndpoints : list string)
    (mc : gmap string IMethodCoverage) (m : string) :
  (forall e, In e specEndpoints -> methodOf e <> m) ->
  fold_left (countEndpoint tested) specEndpoints mc !! m = mc !! m.
Proof.
  revert mc. induction specEndpoints as [|e rest IH]; intros mc H; simpl; [reflexivity|].
  rewrite IH by (intros e' He'; apply H; now right).
  unfold countEndpoint. destruct (mc !! methodOf e); [|reflexivity].
  apply lookup_insert_ne. apply H. now left.
Qed.

Lemma initialMethodCoverage_lookup (m : string) (c : IMethodCoverage) :
  initialMethodCoverage !! m = Some c -> c = mkMethodCoverage 0 0 0%float.
Proof.
  unfold initialMethodCoverage. simpl.
  repeat (rewrite lookup_insert; case_decide; [now intros [= <-]|]).
  rewrite lookup_empty. discriminate.
Qed.

Lemma initialMethodCoverage_standard (m : string) :
  In m standardMethods ->
  initialMethodCoverage !! m = Some (mkMethodCoverage 0 0 0%float).
Proof.
  intros H. simpl in H.
  repeat (destruct H as [<-|H]; [reflexivity|]). destruct H.
Qed.

Lemma withPercentage_spec (c : IMethodCoverage) :
  mc_percentage c = 0%float ->
  mc_total (withPercentage c) = mc_total c /\
  mc_tested (withPercentage c) = mc_tested c /\
  mc_percentage (withPercentage c)
  = if (0 <? mc_total c)%nat
    then roundToTwoDecimals (percentOf (mc_tested c) (mc_total c))
    else 0%float.
Proof.
  intros H. unfold withPercentage. destruct (0 <? mc_total c)%nat; simpl; auto.
Qed.

Lemma generateMethodCoverage_dom (specEndpoints tested : list string) :
  dom (generateMethodCoverage specEndpoints tested)
  = (list_to_set standardMethods : gset string).
Proof.
  unfold generateMethodCoverage. rewrite dom_fmap_L, fold_countEndpoint_dom.
  unfold initialMethodCoverage. simpl. rewrite !dom_insert_L, dom_empty_L.
  set_solver.
Qed.

Lemma generateMethodCoverage_percentage (specEndpoints tested : list string)
    (m : string) (c : IMethodCoverage) :
  generateMethodCoverage specEndpoints tested !! m = Some c ->
  mc_percentage c
  = if (0 <? mc_total c)%nat
    then roundToTwoDecimals (percentOf (mc_tested c) (mc_total c))
    else 0%float.
Proof.
  unfold generateMethodCoverage. rewrite lookup_fmap.
  destruct (fold_left (countEndpoint tested) specEndpoints initialMethodCoverage !! m)
    as [c0|] eqn:E; [|discriminate].
  simpl. intros [= <-].
  assert (H0 : mc_percentage c0 = 0%float).
  { apply (fold_countEndpoint_percentage tested specEndpoints initialMethodCoverage) with m;
      [|exact E].
    intros m' c' H'. now rewrite (initialMethodCoverage_lookup m' c' H'). }
  destruct (withPercentage_spec c0 H0) as (-> & -> & ->). reflexivity.
Qed.

Lemma generateMethodCoverage_undeclared (specEndpoints tested : list string)
    (m : string) :
  In m standardMethods ->
  (forall e, In e specEndpoints -> methodOf e <> m) ->
  generateMethodCoverage specEndpoints tested !! m
  = Some (mkMethodCoverage 0 0 0%float).
Proof.
  intros Hm Hnone. unfold generateMethodCoverage.
  rewrite lookup_fmap, (fold_countEndpoint_untouched _ _ _ _ Hnone).
  now rewrite (initialMethodCoverage_standard m Hm).
Qed.

(** ** Percentages *)

Lemma roundToTwoDecimals_zero : roundToTwoDecimals 0%float = 0%float.
Proof. reflexivity. Qed.

Lemma hundredthsAccurateUpTo_spec (bound tested total : nat) :
  hundredthsAccurateUpTo bound = true ->
  0 < total <= bound -> tested <= total -> hundredthsAccurate tested total = true.
Proof.
  unfold hundredthsAccurateUpTo. intros H Htotal Htested.
  rewrite forallb_forall in H.
  specialize (H total). rewrite forallb_forall in H.
  apply H; apply in_seq; lia.
Qed.

Lemma hundredthsAccurateUpTo_200 : hundredthsAccurateUpTo 200 = true.
Proof. vm_compute. reflexivity. Qed.

Lemma hundredthsAccurate_200 (tested total : nat) :
  0 < total <= 200 -> tested <= total -> hundredthsAccurate tested total = true.
Proof. apply hundredthsAccurateUpTo_spec, hundredthsAccurateUpTo_200. Qed.



(** ** [generateServerErrorStats]: merging the records of a group *)

Lemma mergeStatusCodes_lookup (merged codes : gmap string Z) (status : string) :
  mergeStatusCodes merged codes !! status
  = match codes !! status with
    | Some count => Some (codeCount merged status + count)%Z
    | None => merged !! status
    end.
Proof.
  unfold mergeStatusCodes.
  apply (map_fold_weak_ind
           (fun (acc : gmap string Z) (m : gmap string Z) =>
              acc !! status
              = match m !! status with
                | Some count => Some (codeCount merged status + count)%Z
                | None => merged !! status
                end)).
  - now rewrite lookup_empty.
  - intros i x m acc Hi IH.
    destruct (decide (i = status)) as [->|Hne].
    + rewrite !lookup_insert_eq. rewrite Hi in IH. unfold codeCount. now rewrite IH.
    + now rewrite !lookup_insert_ne by exact Hne.
Qed.

Lemma fold_mergeRecord_count (records : list IServerErrorRecord)
    (acc : IServerErrorRecord) :
  err_count (fold_left mergeRecord records acc) = (err_count acc + sumCounts records)%Z.
Proof.
  revert acc. induction records as [|r records IH]; intros acc; simpl; [lia|].
  rewrite IH. simpl. lia.
Qed.

Lemma fold_mergeRecord_lastError (records : list IServerErrorRecord)
    (acc : IServerErrorRecord) :
  err_lastError (fold_left mergeRecord records acc) = err_lastError acc.
Proof.
  revert acc. induction records as [|r records IH]; intros acc; simpl; [reflexivity|].
  now rewrite IH.
Qed.

Lemma fold_mergeRecord_codeCount (records : list IServerErrorRecord)
    (acc : IServerErrorRecord) (status : string) :
  codeCount (err_statusCodes (fold_left mergeRecord records acc)) status
  = (codeCount (err_statusCodes acc) status + sumStatus status records)%Z.
Proof.
  revert acc. induction records as [|r records IH]; intros acc; simpl; [lia|].
  rewrite IH. simpl. unfold codeCount at 1. rewrite mergeStatusCodes_lookup.
  unfold codeCount at 3. destruct (err_statusCodes r !! status); simpl.
  - unfold codeCount. lia.
  - unfold codeCount. lia.
Qed.

Lemma fold_mergeRecord_has_code (records : list IServerErrorRecord)
    (acc : IServerErrorRecord) (status : string) :
  is_Some (err_statusCodes (fold_left mergeRecord records acc) !! status) <->
  is_Some (err_statusCodes acc !! status) \/
  exists r, In r records /\ is_Some (err_statusCodes r !! status).
Proof.
  revert acc. induction records as [|r records IH]; intros acc; simpl.
  - split; [now left|]. intros [H|(r & [] & _)]. exact H.
  - rewrite IH. simpl. rewrite mergeStatusCodes_lookup.
    destruct (err_statusCodes r !! status) as [count|] eqn:E.
    + split; [|intros _; left; eauto].
      intros _. right. exists r. split; [now left|]. rewrite E. eauto.
    + split.
      * intros [H|(r' & Hin & Hr')]; [now left|]. right. exists r'. tauto.
      * intros [H|(r' & [<-|Hin] & Hr')]; [now left| |right; eauto].
        rewrite E in Hr'. destruct Hr' as [? [=]].
Qed.

(** The merged record of a group: counts and histograms are summed, the
    message is the one of the first record. *)
Lemma mergedRecordOf_spec (group : ErrorGroup) :
  err_count (mergedRecordOf group) = sumCounts (group_records group) /\
  (forall status,
     codeCount (err_statusCodes (mergedRecordOf group)) status
     = sumStatus status (group_records group)) /\
  (forall status,
     is_Some (err_statusCodes (mergedRecordOf group) !! status) <->
     exists r, In r (group_records group) /\ is_Some (err_statusCodes r !! status)) /\
  err_lastError (mergedRecordOf group) = Some (firstLastError (group_records group)).
Proof.
  unfold mergedRecordOf. repeat split.
  - rewrite fold_mergeRecord_count. simpl. lia.
  - intros status. rewrite fold_mergeRecord_codeCount. simpl.
    unfold codeCount at 1. rewrite lookup_empty. simpl. lia.
  - rewrite fold_mergeRecord_has_code. simpl. rewrite lookup_empty.
    intros [[? [=]]|H]. exact H.
  - intros H. apply fold_mergeRecord_has_code. now right.
  - now rewrite fold_mergeRecord_lastError.
Qed.

(** The representative of a group: its first templated endpoint, or its
    first endpoint when none is templated. *)
Lemma targetEndpointOf_spec (group : ErrorGroup) :
  group_endpoints group <> [] ->
  In (targetEndpointOf group) (group_endpoints group) /\
  ((exists t, In t (group_endpoints group) /\ isTemplate t = true) ->
   isTemplate (targetEndpointOf group) = true /\
   exists before after,
     group_endpoints group = before ++ targetEndpointOf group :: after /\
     forall e, In e before -> isTemplate e = false) /\
  ((forall e, In e (group_endpoints group) -> isTemplate e = false) ->
   exists rest, group_endpoints group = targetEndpointOf group :: rest).
Proof.
  intros Hne. unfold targetEndpointOf.
  destruct (List.find isTemplate (group_endpoints group)) as [t|] eqn:Ef.
  - destruct (find_some _ _ Ef) as [Hin Ht].
    split; [exact Hin|]. split.
    + intros _. split; [exact Ht|].
      clear Hne Hin. induction (group_endpoints group) as [|e l IH]; [discriminate|].
      simpl in Ef. destruct (isTemplate e) eqn:Ee.
      * injection Ef as <-. exists [], l. split; [reflexivity|]. intros ? [].
      * destruct (IH Ef) as (before & after & -> & Hb).
        exists (e :: before), after. split; [reflexivity|].
        intros e' [<-|He']; [exact Ee|now apply Hb].
    + intros Hnone. rewrite (Hnone t Hin) in Ht. discriminate.
  - destruct (group_endpoints group) as [|first rest] eqn:Eg; [contradiction|].
    split; [now left|]. split.
    + intros (t & Hin & Ht). rewrite (find_none _ _ Ef t Hin) in Ht. discriminate.
    + intros _. now exists rest.
Qed.

(** ** [generateServerErrorStats]: the groups *)

Lemma objGet_None_keys {A : Type} (m : list (string * A)) (k : string) :
  objGet m k = None <-> ~ In k (map fst m).
Proof.
  induction m as [|[k' v'] m IH]; simpl; [tauto|].
  destruct (String.eqb_spec k' k) as [->|Hne].
  - split; [discriminate|]. intros H. exfalso. apply H. now left.
  - rewrite IH. tauto.
Qed.

Lemma map_fst_mapSet {A : Type} (m : list (string * A)) (k : string) (v : A) :
  map fst (mapSet m k v)
  = match objGet m k with
    | Some _ => map fst m
    | None => map fst m ++ [k]
    end.
Proof.
  induction m as [|[k' v'] m IH]; simpl; [reflexivity|].
  destruct (String.eqb_spec k' k) as [->|Hne]; simpl; [reflexivity|].
  rewrite IH. now destruct (objGet m k).
Qed.

Lemma NoDup_mapSet {A : Type} (m : list (string * A)) (k : string) (v : A) :
  List.NoDup (map fst m) -> List.NoDup (map fst (mapSet m k v)).
Proof.
  intros H. rewrite map_fst_mapSet. destruct (objGet m k) eqn:E; [exact H|].
  apply objGet_None_keys in E.
  apply List.NoDup_rev in H. rewrite <- (rev_involutive (map fst m ++ [k])).
  apply List.NoDup_rev. rewrite rev_app_distr. simpl.
  constructor; [|exact H]. now rewrite <- in_rev.
Qed.

Lemma objGet_mapSet {A : Type} (m : list (string * A)) (k k0 : string) (v : A) :
  objGet (mapSet m k v) k0 = if decide (k = k0) then Some v else objGet m k0.
Proof.
  case_decide as H.
  - subst. apply objGet_mapSet_eq.
  - now apply objGet_mapSet_ne.
Qed.

Lemma entriesWithKey_snoc (key : string)
    (processed : list (string * IServerErrorRecord))
    (endpoint : string) (record : IServerErrorRecord) (key0 : string) :
  errorStructureKey endpoint = Some key0 ->
  entriesWithKey key (processed ++ [(endpoint, record)])
  = entriesWithKey key processed
    ++ (if decide (key0 = key) then [(endpoint, record)] else []).
Proof.
  intros Hk. unfold entriesWithKey. rewrite List.filter_app. simpl. rewrite Hk.
  case_decide as H.
  - subst. now rewrite bool_decide_eq_true_2.
  - rewrite bool_decide_eq_false_2; [reflexivity|]. intros [= ?]. contradiction.
Qed.

Lemma groupErrorStep_groupsOf (groups : list (string * ErrorGroup))
    (processed : list (string * IServerErrorRecord))
    (key0 endpoint : string) (record : IServerErrorRecord) :
  errorStructureKey endpoint = Some key0 ->
  groupsOf groups processed ->
  groupsOf (groupErrorStep groups key0 endpoint record)
           (processed ++ [(endpoint, record)]).
Proof.
  intros Hk (Hnd & Hsome & Hnone). unfold groupErrorStep. split; [|split].
  - now apply NoDup_mapSet.
  - intros key g. rewrite objGet_mapSet, (entriesWithKey_snoc _ _ _ _ _ Hk).
    case_decide as Hd.
    + subst key. intros [= <-]. simpl.
      destruct (objGet groups key0) as [g0|] eqn:Eg.
      * destruct (Hsome _ _ Eg) as (He & Hr & _).
        rewrite !map_app, <- He, <- Hr. simpl.
        repeat split. now destruct (group_endpoints g0).
      * rewrite (Hnone _ Eg). simpl. repeat split. discriminate.
    + intros Hg. rewrite app_nil_r. now apply Hsome.
  - intros key. rewrite objGet_mapSet, (entriesWithKey_snoc _ _ _ _ _ Hk).
    case_decide as Hd; [discriminate|].
    intros Hg. rewrite app_nil_r. now apply Hnone.
Qed.

Lemma groupErrorsFrom_groupsOf (entries processed : list (string * IServerErrorRecord))
    (groups0 groups : list (string * ErrorGroup)) :
  groupErrorsFrom groups0 entries = Some groups ->
  groupsOf groups0 processed ->
  groupsOf groups (processed ++ entries).
Proof.
  revert processed groups0. induction entries as [|[e r] entries IH];
    intros processed groups0; simpl.
  - intros [= <-]. now rewrite app_nil_r.
  - destruct (errorStructureKey e) as [key0|] eqn:Ek; [|discriminate].
    intros H Hinv.
    replace (processed ++ (e, r) :: entries) with ((processed ++ [(e, r)]) ++ entries)
      by now rewrite <- app_assoc.
    apply (IH _ _ H). now apply groupErrorStep_groupsOf.
Qed.

Lemma groupErrors_groupsOf (allServerErrors : list (string * IServerErrorRecord))
    (groups : list (string * ErrorGroup)) :
  groupErrors allServerErrors = Some groups -> groupsOf groups allServerErrors.
Proof.
  intros H. apply (groupErrorsFrom_groupsOf allServerErrors [] [] groups H).
  split; [constructor|]. split; [discriminate|reflexivity].
Qed.

(** The representative of a group has the structure key of the group. *)
Lemma targetEndpointOf_key (groups : list (string * ErrorGroup))
    (processed : list (string * IServerErrorRecord)) (key : string) (g : ErrorGroup) :
  groupsOf groups processed -> In (key, g) groups ->
  errorStructureKey (targetEndpointOf g) = Some key.
Proof.
  intros (Hnd & Hsome & _) Hin.
  assert (Hg : objGet groups key = Some g).
  { clear Hsome. induction groups as [|[k' g'] groups IH]; [destruct Hin|].
    simpl in *. inversion Hnd as [|? ? Hk' Hnd']; subst.
    destruct Hin as [[= -> ->]|Hin]; [now rewrite String.eqb_refl|].
    destruct (String.eqb_spec k' key) as [->|Hne]; [|now apply IH].
    exfalso. apply Hk'. apply (in_map fst _ (key, g)) in Hin. exact Hin. }
  destruct (Hsome _ _ Hg) as (He & _ & Hne).
  destruct (targetEndpointOf_spec g Hne) as [Hin' _].
  rewrite He in Hin'. apply in_map_iff in Hin'.
  destruct Hin' as ([e r] & <- & Hf). apply filter_In in Hf.
  destruct Hf as [_ Hf]. now apply bool_decide_eq_true_1 in Hf.
Qed.

Lemma fold_mapSet_keeps {X A : Type} (f : X -> string) (h : X -> A)
    (l : list X) (m : list (string * A)) (k : string) :
  ~ In k (map f l) ->
  objGet (fold_left (fun m x => mapSet m (f x) (h x)) l m) k = objGet m k.
Proof.
  revert m. induction l as [|x l IH]; intros m Hk; simpl; [reflexivity|].
  simpl in Hk. rewrite IH by tauto. apply objGet_mapSet_ne. tauto.
Qed.

Lemma fold_mapSet_lookup {X A : Type} (f : X -> string) (h : X -> A)
    (l : list X) (m : list (string * A)) (x : X) :
  List.NoDup (map f l) -> In x l ->
  objGet (fold_left (fun m x => mapSet m (f x) (h x)) l m) (f x) = Some (h x).
Proof.
  revert m. induction l as [|y l IH]; intros m Hnd Hin; [destruct Hin|].
  simpl in *. inversion Hnd as [|? ? Hy Hnd']; subst.
  destruct Hin as [->|Hin]; [|now apply IH].
  rewrite fold_mapSet_keeps by exact Hy. apply objGet_mapSet_eq.
Qed.

Lemma normalizedErrorsOf_lookup (groups : list (string * ErrorGroup))
    (processed : list (string * IServerErrorRecord)) (key : string) (g : ErrorGroup) :
  groupsOf groups processed -> In (key, g) groups ->
  objGet (normalizedErrorsOf groups) (targetEndpointOf g) = Some (mergedRecordOf g).
Proof.
  intros Hinv Hin. unfold normalizedErrorsOf.
  apply (fold_mapSet_lookup (fun kg => targetEndpointOf (snd kg))
           (fun kg => mergedRecordOf (snd kg)) groups [] (key, g)); [|exact Hin].
  apply (List.NoDup_map_inv errorStructureKey). rewrite map_map.
  rewrite (map_ext_in _ (fun kg => Some (fst kg))).
  - rewrite <- (map_map fst Some). apply Finite.Injective_map_NoDup.
    + intros a b [= ->]. reflexivity.
    + apply Hinv.
  - intros [k' g'] Hin'. simpl. now apply (targetEndpointOf_key groups processed).
Qed.




(** ** [generatePathPatterns] *)

Lemma generatePathPatterns_In newRegExp (apiSpec : option IOpenAPIDocument)
    (p : IPathPattern) :
  In p (generatePathPatterns newRegExp apiSpec) <->
  exists doc entries templatePath pathItem,
    apiSpec = Some doc /\ paths doc = Some entries /\
    In templatePath (map fst entries) /\
    includes "{" templatePath = true /\
    objGet entries templatePath = Some (Some pathItem) /\
    patternForPath newRegExp doc pathItem templatePath = Some p.
Proof.
  unfold generatePathPatterns. split.
  - destruct apiSpec as [doc|]; [|intros []].
    destruct (paths doc) as [entries|] eqn:Ep; [|intros []].
    rewrite in_flat_map. intros (templatePath & Hin & Hp).
    unfold patternsOfPath in Hp.
    destruct (includes "{" templatePath) eqn:Ei; [|destruct Hp]. simpl in Hp.
    destruct (objGet entries templatePath) as [[pathItem|]|] eqn:Eg; try destruct Hp.
    destruct (patternForPath newRegExp doc pathItem templatePath) as [q|] eqn:Eq;
      [|destruct Hp].
    destruct Hp as [<-|[]]. exists doc, entries, templatePath, pathItem.
    repeat split; assumption.
  - intros (doc & entries & templatePath & pathItem & -> & -> & Hin & Hi & Hg & Hp).
    rewrite in_flat_map. exists templatePath. split; [exact Hin|].
    unfold patternsOfPath. rewrite Hi, Hg, Hp. now left.
Qed.

Lemma patternForPath_Some newRegExp (doc : IOpenAPIDocument) (pathItem : IPathItem)
    (templatePath : string) (p : IPathPattern) :
  patternForPath newRegExp doc pathItem templatePath = Some p ->
  priority p = Some 50%Z /\ template p = templatePath /\
  exists source,
    patternStringFor newRegExp doc pathItem templatePath = Some source /\
    newRegExp source "" = Some (pattern p).
Proof.
  unfold patternForPath.
  destruct (patternStringFor newRegExp doc pathItem templatePath) as [source|];
    [|discriminate].
  destruct (newRegExp source "") as [regex|] eqn:Er; [|discriminate].
  intros [= <-]. simpl. eauto.
Qed.




(* ===================================================================== *)
(** * Part III: further properties of the code                            *)
(* ===================================================================== *)

(** ** The hit set: nothing observed is lost *)

Lemma collectRemovals_concrete (l : list string) (key : string) (rem : list string) :
  collectRemovals l key = Some rem ->
  forall e, In e rem -> isTemplate e = false.
Proof.
  revert rem. induction l as [|x l IH]; intros rem; simpl.
  - intros [= <-] e [].
  - destruct (isTemplate x) eqn:Ex; [apply IH|].
    destruct (endpointMatchesTemplate x key) as [b|]; [|discriminate].
    destruct (collectRemovals l key) as [rem'|]; [|discriminate].
    intros [= <-] e He. destruct b; [|now apply (IH rem')].
    destruct He as [<-|He]; [exact Ex|now apply (IH rem')].
Qed.

Lemma recordHit_keeps_template (hit : list string) (key t : string) :
  In t hit -> isTemplate t = true -> In t (recordHit hit key).
Proof.
  intros Ht Htt. unfold recordHit. destruct (isTemplate key).
  - destruct (collectRemovals (setAdd hit key) key) as [rem|] eqn:Er.
    + apply In_fold_setDelete. split; [apply In_setAdd; now left|].
      intros Hin. pose proof (collectRemovals_concrete _ _ _ Er t Hin). congruence.
    + apply In_setAdd. now left.
  - destruct (hasMatchingTemplate hit key) as [[|]|]; try exact Ht.
    apply In_setAdd. now left.
Qed.

Lemma recordHit_adds_template (hit : list string) (key : string) :
  isTemplate key = true -> In key (recordHit hit key).
Proof.
  intros Hk. unfold recordHit. rewrite Hk.
  destruct (collectRemovals (setAdd hit key) key) as [rem|] eqn:Er.
  - apply In_fold_setDelete. split; [apply In_setAdd; now right|].
    intros Hin. pose proof (collectRemovals_concrete _ _ _ Er key Hin). congruence.
  - apply In_setAdd. now right.
Qed.

Lemma hasMatchingTemplate_true (l : list string) (key : string) :
  hasMatchingTemplate l key = Some true ->
  exists t, In t l /\ isTemplate t = true /\
    endpointMatchesTemplate key t = Some true.
Proof.
  induction l as [|e l IH]; simpl; [discriminate|].
  destruct (isTemplate e) eqn:Et; simpl.
  - destruct (endpointMatchesTemplate key e) as [[|]|] eqn:Em; try discriminate.
    + intros _. exists e. auto.
    + intros H. destruct (IH H) as (t & Ht & Htt & Hm). exists t. auto.
  - intros H. destruct (IH H) as (t & Ht & Htt & Hm). exists t. auto.
Qed.

Lemma hasMatchingTemplate_defined (l : list string) (key : string) :
  wellFormedKeys l -> is_Some (pathOf key) ->
  exists b, hasMatchingTemplate l key = Some b.
Proof.
  intros Hl Hkey. induction l as [|e l IH]; simpl; [now exists false|].
  assert (Hl' : wellFormedKeys l) by (intros x Hx; apply Hl; now right).
  destruct (isTemplate e); simpl; [|now apply IH].
  destruct (endpointMatchesTemplate_defined key e Hkey) as [[|] ->];
    [apply Hl; now left|now exists true|now apply IH].
Qed.

Lemma recordHit_represents_key (hit : list string) (key : string) :
  wellFormedKeys hit -> is_Some (pathOf key) ->
  represented (recordHit hit key) key.
Proof.
  intros Hwf Hkey. destruct (isTemplate key) eqn:Ek.
  - left. now apply recordHit_adds_template.
  - unfold recordHit. rewrite Ek.
    destruct (hasMatchingTemplate_defined hit key Hwf Hkey) as [[|] Hb]; rewrite Hb.
    + right. now apply hasMatchingTemplate_true.
    + left. apply In_setAdd. now right.
Qed.

Lemma recordHit_keeps_represented (hit : list string) (key k : string) :
  represented hit k -> represented (recordHit hit key) k.
Proof.
  intros [Hk|(t & Ht & Htt & Hm)].
  - destruct (isTemplate k) eqn:Ekt; [left; now apply recordHit_keeps_template|].
    unfold recordHit. destruct (isTemplate key) eqn:Ek.
    + destruct (collectRemovals (setAdd hit key) key) as [rem|] eqn:Er.
      * destruct (in_dec string_dec k rem) as [Hin|Hnin].
        -- right. exists key. split; [|split].
           ++ pose proof (recordHit_adds_template hit key Ek) as H.
              unfold recordHit in H. now rewrite Ek, Er in H.
           ++ exact Ek.
           ++ exact (collectRemovals_In _ _ _ Er k Hin).
        -- left. apply In_fold_setDelete. split; [apply In_setAdd; now left|exact Hnin].
      * left. apply In_setAdd. now left.
    + destruct (hasMatchingTemplate hit key) as [[|]|]; left; try exact Hk.
      apply In_setAdd. now left.
  - right. exists t. split; [now apply recordHit_keeps_template|auto].
Qed.

Lemma fold_recordHit_keeps_represented (observations : list Observation)
    (hit : list string) (k : string) :
  represented hit k ->
  represented (fold_left (fun h o => recordHit h (endpointKey o)) observations hit) k.
Proof.
  revert hit. induction observations as [|o observations IH]; intros hit H; simpl.
  - exact H.
  - apply IH. now apply recordHit_keeps_represented.
Qed.

Lemma fold_recordHit_keeps_template (observations : list Observation)
    (hit : list string) (t : string) :
  In t hit -> isTemplate t = true ->
  In t (fold_left (fun h o => recordHit h (endpointKey o)) observations hit).
Proof.
  revert hit. induction observations as [|o observations IH]; intros hit H Ht; simpl.
  - exact H.
  - apply IH; [now apply recordHit_keeps_template|exact Ht].
Qed.

Lemma fold_recordHit_represents (observations : list Observation)
    (hit : list string) (o : Observation) :
  wellFormedKeys hit /\ deduplicated hit ->
  In o observations ->
  let hit' := fold_left (fun h o => recordHit h (endpointKey o)) observations hit in
  represented hit' (endpointKey o) /\
  (isTemplate (endpointKey o) = true -> In (endpointKey o) hit').
Proof.
  revert hit. induction observations as [|o' observations IH]; intros hit Hinv Hin;
    simpl in *; [contradiction|].
  destruct Hin as [->|Hin].
  - split.
    + apply fold_recordHit_keeps_represented.
      apply recordHit_represents_key; [tauto|apply pathOf_endpointKey].
    + intros Ht. apply fold_recordHit_keeps_template; [|exact Ht].
      now apply recordHit_adds_template.
  - apply IH; [|exact Hin].
    apply recordHit_invariant; [apply pathOf_endpointKey|exact Hinv].
Qed.

(** X1: the request interceptor loses no observation.  After any sequence
    of observed requests, the key of every observation is represented in
    the hit set: a templated key is a member of the set, and a concrete key
    is a member unless a templated key of the set matches it. *)
Theorem recordAll_represents_every_observation
    (observations : list Observation) (o : Observation) :
  In o observations ->
  represented (recordAll observations) (endpointKey o) /\
  (isTemplate (endpointKey o) = true -> In (endpointKey o) (recordAll observations)).
Proof.
  intros Hin. apply (fold_recordHit_represents observations [] o); [|exact Hin].
  split; [intros ? []|intros ? ? []].
Qed.

Lemma recordAll_represents_every_observation_witness :
  let observations := [mkObservation (Some "get") "/users/42";
                       mkObservation (Some "post") "/users";
                       mkObservation None "/users/{id}"] in
  let o := mkObservation (Some "get") "/users/42" in
  represented (recordAll observations) (endpointKey o) /\
  (isTemplate (endpointKey o) = true -> In (endpointKey o) (recordAll observations)).
Proof.
  intros observations o.
  apply (recordAll_represents_every_observation observations o).
  left. reflexivity.
Defined.

(** ** The hit set: members are observed keys, each once *)

Lemma NoDup_setAdd (s : list string) (x : string) :
  List.NoDup s -> List.NoDup (setAdd s x).
Proof.
  intros H. unfold setAdd. destruct (setHas s x) eqn:E; [exact H|].
  apply List.NoDup_app; [exact H|repeat constructor; intros []|].
  intros y Hy [<-|[]]. apply setHas_In in Hy. congruence.
Qed.

Lemma NoDup_fold_setDelete (rem s : list string) :
  List.NoDup s -> List.NoDup (fold_left setDelete rem s).
Proof.
  revert s. induction rem as [|y rem IH]; intros s H; simpl; [exact H|].
  apply IH. unfold setDelete. now apply List.NoDup_filter.
Qed.

Lemma recordHit_NoDup (hit : list string) (key : string) :
  List.NoDup hit -> List.NoDup (recordHit hit key).
Proof.
  intros H. unfold recordHit. destruct (isTemplate key).
  - destruct (collectRemovals (setAdd hit key) key) as [rem|].
    + now apply NoDup_fold_setDelete, NoDup_setAdd.
    + now apply NoDup_setAdd.
  - destruct (hasMatchingTemplate hit key) as [[|]|]; try exact H.
    now apply NoDup_setAdd.
Qed.

Lemma recordHit_members (hit : list string) (key e : string) :
  In e (recordHit hit key) -> In e hit \/ e = key.
Proof.
  unfold recordHit. destruct (isTemplate key).
  - destruct (collectRemovals (setAdd hit key) key) as [rem|].
    + intros H. apply In_fold_setDelete in H. apply In_setAdd. tauto.
    + apply In_setAdd.
  - destruct (hasMatchingTemplate hit key) as [[|]|]; try tauto.
    apply In_setAdd.
Qed.

Lemma fold_recordHit_members (observations : list Observation)
    (hit : list string) (e : string) :
  In e (fold_left (fun h o => recordHit h (endpointKey o)) observations hit) ->
  In e hit \/ exists o, In o observations /\ e = endpointKey o.
Proof.
  revert hit. induction observations as [|o observations IH]; intros hit; simpl.
  - tauto.
  - intros H. destruct (IH _ H) as [H'|(o' & Ho' & ->)].
    + destruct (recordHit_members _ _ _ H') as [?| ->]; [tauto|].
      right. exists o. auto.
    + right. exists o'. auto.
Qed.

Lemma fold_recordHit_NoDup (observations : list Observation) (hit : list string) :
  List.NoDup hit ->
  List.NoDup (fold_left (fun h o => recordHit h (endpointKey o)) observations hit).
Proof.
  revert hit. induction observations as [|o observations IH]; intros hit H; simpl.
  - exact H.
  - apply IH. now apply recordHit_NoDup.
Qed.

(** X2: the hit set holds observed keys only, each once.  After any
    sequence of observed requests the set has no duplicate, every member
    is the key [METHOD path] of one of the observations, and one step of
    the interceptor adds no key but the one it records. *)
Theorem recordAll_members_observed :
  (forall observations : list Observation,
     List.NoDup (recordAll observations) /\
     forall e, In e (recordAll observations) ->
       exists o, In o observations /\ e = endpointKey o) /\
  (forall (hit : list string) (key e : string),
     In e (recordHit hit key) -> In e hit \/ e = key).
Proof.
  split; [|exact recordHit_members].
  intros observations. split.
  - apply fold_recordHit_NoDup. constructor.
  - intros e He. destruct (fold_recordHit_members _ _ _ He) as [[]|H]. exact H.
Qed.

(** ** The hit set: recording a key twice *)

Lemma collectRemovals_outcomes (l : list string) (key : string) (rem : list string) :
  collectRemovals l key = Some rem ->
  forall e, In e l -> ~ In e rem ->
    isTemplate e = true \/ endpointMatchesTemplate e key = Some false.
Proof.
  revert rem. induction l as [|x l IH]; intros rem; simpl; [intros _ ? []|].
  destruct (isTemplate x) eqn:Ex.
  - intros H e [<-|He] Hn; [now left|now apply (IH rem)].
  - destruct (endpointMatchesTemplate x key) as [b|] eqn:Em; [|discriminate].
    destruct (collectRemovals l key) as [rem'|]; [|discriminate].
    intros [= <-] e He Hn. destruct b.
    + destruct He as [<-|He]; [exfalso; apply Hn; now left|].
      apply (IH rem' eq_refl); [exact He|]. intros H. apply Hn. now right.
    + destruct He as [<-|He]; [now right|]. now apply (IH rem').
Qed.

Lemma collectRemovals_none_left (l : list string) (key : string) :
  (forall e, In e l ->
     isTemplate e = true \/ endpointMatchesTemplate e key = Some false) ->
  collectRemovals l key = Some [].
Proof.
  induction l as [|x l IH]; intros H; simpl; [reflexivity|].
  assert (Hl : collectRemovals l key = Some []).
  { apply IH. intros e He. apply H. now right. }
  destruct (isTemplate x) eqn:Ex; [exact Hl|].
  destruct (H x (or_introl eq_refl)) as [Hx|Hx]; [congruence|].
  now rewrite Hx, Hl.
Qed.

Lemma setAdd_member (s : list string) (x : string) : In x s -> setAdd s x = s.
Proof.
  intros H. unfold setAdd. apply setHas_In in H. now rewrite H.
Qed.

Lemma hasMatchingTemplate_app (l l' : list string) (key : string) :
  hasMatchingTemplate l key = Some false ->
  hasMatchingTemplate (l ++ l') key = hasMatchingTemplate l' key.
Proof.
  induction l as [|e l IH]; simpl; [reflexivity|].
  destruct (isTemplate e); simpl; [|exact IH].
  destruct (endpointMatchesTemplate key e) as [[|]|]; try discriminate. exact IH.
Qed.

(** X3: recording the same key again changes nothing: the hit set after
    the request interceptor has processed a key twice in a row is the set
    after the first time, whatever the set was (no assumption on its
    keys). *)
Theorem recordHit_idempotent (hit : list string) (key : string) :
  recordHit (recordHit hit key) key = recordHit hit key.
Proof.
  destruct (isTemplate key) eqn:Ek.
  - destruct (collectRemovals (setAdd hit key) key) as [rem|] eqn:Er.
    + assert (H1 : recordHit hit key = fold_left setDelete rem (setAdd hit key)).
      { unfold recordHit. now rewrite Ek, Er. }
      assert (Hkey : In key (fold_left setDelete rem (setAdd hit key))).
      { apply In_fold_setDelete. split; [apply In_setAdd; now right|].
        intros Hin. pose proof (collectRemovals_concrete _ _ _ Er key Hin). congruence. }
      rewrite H1. unfold recordHit. rewrite Ek, (setAdd_member _ _ Hkey).
      rewrite collectRemovals_none_left; [reflexivity|].
      intros e He. apply In_fold_setDelete in He. destruct He as [He Hn].
      exact (collectRemovals_outcomes _ _ _ Er e He Hn).
    + assert (H1 : recordHit hit key = setAdd hit key).
      { unfold recordHit. now rewrite Ek, Er. }
      rewrite H1. unfold recordHit. rewrite Ek.
      rewrite (setAdd_member (setAdd hit key) key); [|apply In_setAdd; now right].
      now rewrite Er.
  - destruct (hasMatchingTemplate hit key) as [[|]|] eqn:Eh.
    + assert (H1 : recordHit hit key = hit).
      { unfold recordHit. now rewrite Ek, Eh. }
      now rewrite !H1.
    + assert (H1 : recordHit hit key = setAdd hit key).
      { unfold recordHit. now rewrite Ek, Eh. }
      assert (Hh : hasMatchingTemplate (setAdd hit key) key = Some false).
      { unfold setAdd. destruct (setHas hit key); [exact Eh|].
        rewrite (hasMatchingTemplate_app _ _ _ Eh). simpl. now rewrite Ek. }
      rewrite H1. unfold recordHit. rewrite Ek, Hh.
      apply setAdd_member. apply In_setAdd. now right.
    + assert (H1 : recordHit hit key = hit).
      { unfold recordHit. now rewrite Ek, Eh. }
      now rewrite !H1.
Qed.

(** ** [saveHitEndpoints] *)

Lemma hasTruthyPath_hasPath (e : string) :
  hasTruthyPath e = true -> is_Some (pathOf e).
Proof.
  unfold hasTruthyPath. destruct (pathOf e); [eauto|discriminate].
Qed.

Lemma noBraces_concrete (e : string) : noBraces e = true -> isTemplate e = false.
Proof.
  unfold noBraces, isTemplate. intros H. apply andb_true_iff in H.
  destruct H as [H _]. apply negb_true_iff in H. now rewrite H.
Qed.

Lemma groupByMethodStep_grouped (groups : list (string * list string))
    (processed : list string) (endpoint : string) :
  groupedByMethod groups processed ->
  groupedByMethod (groupByMethodStep groups endpoint) (processed ++ [endpoint]).
Proof.
  intros (Hnd & Hsome & Hkeys). unfold groupByMethodStep.
  destruct (hasTruthyPath endpoint) eqn:Et; simpl.
  - split; [now apply NoDup_mapSet|]. split.
    + intros m l. rewrite objGet_mapSet. case_decide as Hd.
      * subst m. intros [= <-] e. rewrite !in_app_iff. simpl.
        destruct (objGet groups (methodOf endpoint)) as [old|] eqn:Eo.
        -- rewrite (Hsome _ _ Eo e). split.
           ++ intros [H|[<-|[]]]; [tauto|auto].
           ++ intros ([H|[<-|[]]] & H1 & H2); auto.
        -- split.
           ++ intros [[]|[<-|[]]]. auto.
           ++ intros ([H|[<-|[]]] & H1 & H2); auto.
              destruct (Hkeys e H H1) as [x Hx]. rewrite H2 in Hx. congruence.
      * intros Hl e. rewrite (Hsome _ _ Hl e), in_app_iff. simpl. split.
        -- intros (H & H1 & H2). auto.
        -- intros ([H|[<-|[]]] & H1 & H2); [auto|contradiction].
    + intros e He Hp. rewrite objGet_mapSet. case_decide; [eauto|].
      apply in_app_iff in He. destruct He as [He|[<-|[]]]; [auto|contradiction].
  - split; [exact Hnd|]. split.
    + intros m l Hl e. rewrite (Hsome _ _ Hl e), in_app_iff. simpl. split.
      * intros (H & H1 & H2). auto.
      * intros ([H|[<-|[]]] & H1 & H2); [auto|congruence].
    + intros e He Hp. apply in_app_iff in He.
      destruct He as [He|[<-|[]]]; [auto|congruence].
Qed.

Lemma fold_groupByMethodStep_grouped (endpoints processed : list string)
    (groups : list (string * list string)) :
  groupedByMethod groups processed ->
  groupedByMethod (fold_left groupByMethodStep endpoints groups)
                  (processed ++ endpoints).
Proof.
  revert processed groups. induction endpoints as [|e endpoints IH];
    intros processed groups H; simpl.
  - now rewrite app_nil_r.
  - replace (processed ++ e :: endpoints) with ((processed ++ [e]) ++ endpoints)
      by now rewrite <- app_assoc.
    apply IH. now apply groupByMethodStep_grouped.
Qed.

Lemma markHandled_spec (methodEndpoints handled : list string) (t : string) :
  wellFormedKeys methodEndpoints -> is_Some (pathOf t) ->
  exists handled',
    markHandled handled methodEndpoints t = Some handled' /\
    forall c, In c handled' <->
      In c handled \/
      In c methodEndpoints /\ isTemplate c = false /\
      endpointMatchesTemplate c t = Some true.
Proof.
  intros Hwf Ht. revert handled.
  induction methodEndpoints as [|x l IH]; intros handled; simpl.
  - exists handled. split; [reflexivity|]. intros c. tauto.
  - assert (Hl : wellFormedKeys l) by (intros y Hy; apply Hwf; now right).
    destruct (isTemplate x) eqn:Ex.
    + destruct (IH Hl handled) as (h' & -> & Hh'). exists h'.
      split; [reflexivity|]. intros c. rewrite Hh'. split; [tauto|].
      intros [H|([<-|H] & H1 & H2)]; [tauto|congruence|tauto].
    + destruct (endpointMatchesTemplate_defined x t) as [b Hb];
        [apply Hwf; now left|exact Ht|].
      rewrite Hb.
      destruct (IH Hl (if b then setAdd handled x else handled)) as (h' & -> & Hh').
      exists h'. split; [reflexivity|]. intros c. rewrite Hh'.
      destruct b.
      * rewrite In_setAdd. split.
        -- intros [[H| ->]|H]; tauto.
        -- intros [H|([<-|H] & H1 & H2)]; tauto.
      * split; [tauto|].
        intros [H|([<-|H] & H1 & H2)]; [tauto|congruence|tauto].
Qed.

Lemma addTemplateEndpoints_spec (methodEndpoints templateEndpoints : list string)
    (deduped handled : list string) :
  wellFormedKeys methodEndpoints -> wellFormedKeys templateEndpoints ->
  List.NoDup deduped ->
  exists deduped' handled',
    addTemplateEndpoints methodEndpoints templateEndpoints (deduped, handled)
    = Some (deduped', handled') /\
    List.NoDup deduped' /\
    (forall x, In x deduped' <-> In x deduped \/ In x templateEndpoints) /\
    (forall c, In c handled' <->
       In c handled \/
       exists t, In t templateEndpoints /\ In c methodEndpoints /\
         isTemplate c = false /\ endpointMatchesTemplate c t = Some true).
Proof.
  intros Hwf. revert deduped handled.
  induction templateEndpoints as [|t ts IH]; intros deduped handled Hts Hnd; simpl.
  - exists deduped, handled. split; [reflexivity|]. split; [exact Hnd|].
    split; intros x; [tauto|]. split; [tauto|]. intros [H|(t & [] & _)]. exact H.
  - destruct (markHandled_spec methodEndpoints handled t Hwf) as (h1 & -> & Hh1);
      [apply Hts; now left|].
    destruct (IH (setAdd deduped t) h1) as (d' & h' & -> & Hnd' & Hd' & Hh');
      [intros y Hy; apply Hts; now right|now apply NoDup_setAdd|].
    exists d', h'. split; [reflexivity|]. split; [exact Hnd'|]. split.
    + intros x. rewrite Hd', In_setAdd. split; [intros [[H|H]|H]|intros [H|[H|H]]]; auto.
    + intros c. rewrite Hh', Hh1. split.
      * intros [[H|H]|(t' & Ht' & H)]; [tauto| |].
        -- right. exists t. tauto.
        -- right. exists t'. tauto.
      * intros [H|(t' & [<-|Ht'] & H)]; [tauto|tauto|].
        right. exists t'. tauto.
Qed.

Lemma addRemainingEndpoints_spec (handled methodEndpoints deduped : list string) :
  List.NoDup deduped ->
  List.NoDup (addRemainingEndpoints handled methodEndpoints deduped) /\
  forall x, In x (addRemainingEndpoints handled methodEndpoints deduped) <->
    In x deduped \/
    In x methodEndpoints /\ ~ In x handled /\ noBraces x = true.
Proof.
  unfold addRemainingEndpoints. revert deduped.
  induction methodEndpoints as [|c l IH]; intros deduped Hnd; simpl.
  - split; [exact Hnd|]. intros x. tauto.
  - set (keep := negb (setHas handled c) && negb (includes "{" c)
                 && negb (includes "}" c)).
    assert (Hkeep : keep = true <-> ~ In c handled /\ noBraces c = true).
    { unfold keep, noBraces. rewrite <- setHas_In, !andb_true_iff, negb_true_iff.
      destruct (setHas handled c); intuition congruence. }
    destruct (IH (if keep then setAdd deduped c else deduped)) as [H1 H2].
    { destruct keep; [now apply NoDup_setAdd|exact Hnd]. }
    split; [exact H1|]. intros x. rewrite H2.
    destruct keep eqn:Ek.
    + rewrite In_setAdd. destruct (proj1 Hkeep eq_refl) as [Ha Hb]. split.
      * intros [[H| ->]|H]; tauto.
      * intros [H|([<-|H] & H')]; tauto.
    + split; [tauto|]. intros [H|([<-|H] & H')]; [tauto| |tauto].
      assert (false = true) by (apply Hkeep; exact H'). discriminate.
Qed.

Lemma dedupMethodGroup_spec (deduped methodEndpoints : list string) :
  wellFormedKeys methodEndpoints -> List.NoDup deduped ->
  exists deduped',
    dedupMethodGroup deduped methodEndpoints = Some deduped' /\
    List.NoDup deduped' /\
    forall x, In x deduped' <->
      In x deduped \/
      In x methodEndpoints /\
      (isTemplate x = true \/
       noBraces x = true /\
       forall t, In t methodEndpoints -> isTemplate t = true ->
         endpointMatchesTemplate x t = Some false).
Proof.
  intros Hwf Hnd. unfold dedupMethodGroup.
  destruct (addTemplateEndpoints_spec methodEndpoints
              (List.filter isTemplate methodEndpoints) deduped [] Hwf)
    as (d1 & h1 & -> & Hnd1 & Hd1 & Hh1); [|exact Hnd|].
  { intros y Hy. apply filter_In in Hy. apply Hwf. tauto. }
  destruct (addRemainingEndpoints_spec h1 methodEndpoints d1 Hnd1) as [Hnd2 Hd2].
  eexists. split; [reflexivity|]. split; [exact Hnd2|].
  intros x. rewrite Hd2, Hd1, filter_In. split.
  - intros [[H|[H1 H2]]|(H1 & H2 & H3)]; [tauto|tauto|].
    right. split; [exact H1|]. right. split; [exact H3|].
    intros t Ht Htt.
    destruct (endpointMatchesTemplate_defined x t) as [[|] Hb];
      [now apply Hwf|now apply Hwf| |exact Hb].
    exfalso. apply H2. apply Hh1. right. exists t. rewrite filter_In.
    pose proof (noBraces_concrete x H3). tauto.
  - intros [H|(H1 & [H2|(H2 & H3)])]; [tauto|tauto|].
    right. split; [exact H1|]. split; [|exact H2].
    intros Hin. apply Hh1 in Hin. destruct Hin as [[]|(t & Ht & _ & _ & Hm)].
    apply filter_In in Ht. rewrite (H3 t) in Hm by tauto. discriminate.
Qed.

Lemma dedupMethodGroups_spec (groups : list (string * list string))
    (deduped : list string) :
  (forall m l, In (m, l) groups -> wellFormedKeys l) -> List.NoDup deduped ->
  exists deduped',
    dedupMethodGroups deduped groups = Some deduped' /\
    List.NoDup deduped' /\
    forall x, In x deduped' <->
      In x deduped \/
      exists m l, In (m, l) groups /\ In x l /\
        (isTemplate x = true \/
         noBraces x = true /\
         forall t, In t l -> isTemplate t = true ->
           endpointMatchesTemplate x t = Some false).
Proof.
  revert deduped. induction groups as [|[m l] groups IH]; intros deduped Hwf Hnd; simpl.
  - exists deduped. split; [reflexivity|]. split; [exact Hnd|].
    intros x. split; [tauto|]. intros [H|(? & ? & [] & _)]. exact H.
  - destruct (dedupMethodGroup_spec deduped l) as (d1 & -> & Hnd1 & Hd1);
      [apply (Hwf m); now left|exact Hnd|].
    destruct (IH d1) as (d' & -> & Hnd' & Hd');
      [intros m' l' H; apply (Hwf m'); now right|exact Hnd1|].
    exists d'. split; [reflexivity|]. split; [exact Hnd'|].
    intros x. rewrite Hd', Hd1. split.
    + intros [[H|H]|(m' & l' & H & H')]; [tauto| |].
      * right. exists m, l. split; [now left|exact H].
      * right. exists m', l'. split; [now right|exact H'].
    + intros [H|(m' & l' & [[= -> ->]|H] & H')]; [tauto|tauto|].
      right. exists m', l'. tauto.
Qed.

Lemma In_objGet {A : Type} (m : list (string * A)) (k : string) (v : A) :
  List.NoDup (map fst m) -> In (k, v) m -> objGet m k = Some v.
Proof.
  induction m as [|[k' v'] m IH]; simpl; [intros _ []|].
  intros Hnd. inversion Hnd as [|? ? Hk' Hnd']; subst.
  intros [[= -> ->]|Hin]; [now rewrite String.eqb_refl|].
  destruct (String.eqb_spec k' k) as [->|Hne]; [|now apply IH].
  exfalso. apply Hk'. apply (in_map fst _ (k, v)) in Hin. exact Hin.
Qed.

Lemma saveHitEndpoints_spec (endpoints : list string) :
  exists saved,
    saveHitEndpoints endpoints = Some saved /\
    List.NoDup saved /\
    forall e, In e saved <-> keptOnSave endpoints e.
Proof.
  unfold saveHitEndpoints.
  destruct (fold_groupByMethodStep_grouped endpoints [] []) as (Hnd & Hsome & Hkeys).
  { split; [constructor|]. split; [discriminate|intros ? []]. }
  simpl in Hsome, Hkeys.
  set (groups := fold_left groupByMethodStep endpoints []) in *.
  destruct (dedupMethodGroups_spec groups []) as (saved & Hs & Hnds & Hin);
    [|constructor|].
  { intros m l Hml e He. apply hasTruthyPath_hasPath.
    apply (Hsome m l (In_objGet _ _ _ Hnd Hml) e). exact He. }
  exists saved. split; [exact Hs|]. split; [exact Hnds|].
  intros e. rewrite Hin. unfold keptOnSave. split.
  - intros [[]|(m & l & Hml & He & Hc)].
    pose proof (Hsome m l (In_objGet _ _ _ Hnd Hml)) as Hl.
    destruct (proj1 (Hl e) He) as (H1 & H2 & H3).
    split; [exact H1|]. split; [exact H2|].
    destruct Hc as [Hc|[Hc1 Hc2]]; [now left|]. right. split; [exact Hc1|].
    intros t Ht Htt Htp.
    destruct (string_dec (methodOf t) m) as [Hm|Hm].
    + apply Hc2; [|exact Htt]. apply Hl. auto.
    + apply endpointMatchesTemplate_other_method. congruence.
  - intros (H1 & H2 & Hc). right.
    destruct (Hkeys e H1 H2) as [l Hl].
    exists (methodOf e), l. split.
    + clear - Hl. induction groups as [|[k v] g IH]; simpl in *; [discriminate|].
      destruct (String.eqb_spec k (methodOf e)) as [->|Hne];
        [left; congruence|right; auto].
    + split; [apply (Hsome _ _ Hl e); auto|].
      destruct Hc as [Hc|[Hc1 Hc2]]; [now left|]. right. split; [exact Hc1|].
      intros t Ht Htt. destruct (proj1 (Hsome _ _ Hl t) Ht) as (Ht1 & Ht2 & _).
      now apply Hc2.
Qed.

(** X4: [saveHitEndpoints] always writes its file (the comparison of a
    concrete endpoint with a template never throws there, since endpoints
    without a path are left out of the groups), the array it writes has no
    duplicate, and it holds exactly the endpoints of the set that have a
    path and are templated, or contain no brace and are matched by no
    templated endpoint of the set.  An endpoint with a single brace is
    never written. *)
Theorem saveHitEndpoints_writes_kept_endpoints (endpoints : list string) :
  exists saved,
    saveHitEndpoints endpoints = Some saved /\
    List.NoDup saved /\
    (forall e, In e saved <-> keptOnSave endpoints e) /\
    (forall e, In e saved -> isTemplate e = false -> noBraces e = true).
Proof.
  destruct (saveHitEndpoints_spec endpoints) as (saved & Hs & Hnd & Hin).
  exists saved. split; [exact Hs|]. split; [exact Hnd|]. split; [exact Hin|].
  intros e He Hc. apply Hin in He. destruct He as (_ & _ & [H|[H _]]); congruence.
Qed.

(** X5: what the request interceptor saves is its hit set.  After any
    sequence of observed requests whose keys have a non-empty path and
    either both braces or none, [saveHitEndpoints] writes exactly the
    members of the hit set: the deduplication of the set has left nothing
    for the deduplication of the file to drop. *)
Theorem saveHitEndpoints_after_recordAll (observations : list Observation) :
  (forall e, In e (recordAll observations) ->
     hasTruthyPath e = true /\ (isTemplate e = true \/ noBraces e = true)) ->
  exists saved,
    saveHitEndpoints (recordAll observations) = Some saved /\
    forall e, In e saved <-> In e (recordAll observations).
Proof.
  intros Hkeys.
  destruct (fold_recordHit_invariant observations []) as [_ Hdd].
  { split; [intros ? []|intros ? ? []]. }
  fold (recordAll observations) in Hdd.
  destruct (saveHitEndpoints_spec (recordAll observations)) as (saved & Hs & _ & Hin).
  exists saved. split; [exact Hs|]. intros e. rewrite Hin. unfold keptOnSave.
  split; [tauto|]. intros He. destruct (Hkeys e He) as [Hp Hb].
  split; [exact He|]. split; [exact Hp|].
  destruct Hb as [Hb|Hb]; [now left|]. right. split; [exact Hb|].
  intros t Ht Htt _. apply Hdd; auto. now apply noBraces_concrete.
Qed.

Lemma saveHitEndpoints_after_recordAll_witness :
  exists saved,
    saveHitEndpoints
      (recordAll [mkObservation (Some "get") "/users/42";
                  mkObservation (Some "post") "/users";
                  mkObservation None "/users/{id}"]) = Some saved /\
    forall e, In e saved <->
      In e (recordAll [mkObservation (Some "get") "/users/42";
                       mkObservation (Some "post") "/users";
                       mkObservation None "/users/{id}"]).
Proof.
  apply (saveHitEndpoints_after_recordAll
           [mkObservation (Some "get") "/users/42";
            mkObservation (Some "post") "/users";
            mkObservation None "/users/{id}"]).
  intros e He. vm_compute in He.
  destruct He as [<-|[<-|[]]]; split; try reflexivity.
  - right. reflexivity.
  - left. reflexivity.
Defined.

(** ** [saveErrors] *)

Lemma anyTemplateMatches_spec (templateKeys : list string) (key : string) :
  wellFormedKeys templateKeys -> is_Some (pathOf key) ->
  exists b,
    anyTemplateMatches templateKeys key = Some b /\
    (b = false <->
     forall t, In t templateKeys -> endpointMatchesTemplate key t = Some false).
Proof.
  intros Hwf Hkey. induction templateKeys as [|t ts IH]; simpl.
  - exists false. split; [reflexivity|]. split; [intros _ ? []|reflexivity].
  - destruct (endpointMatchesTemplate_defined key t Hkey) as [[|] Hb];
      [apply Hwf; now left| |]; rewrite Hb.
    + exists true. split; [reflexivity|]. split; [discriminate|].
      intros H. specialize (H t (or_introl eq_refl)). congruence.
    + destruct IH as (b & -> & Hiff); [intros y Hy; apply Hwf; now right|].
      exists b. split; [reflexivity|]. rewrite Hiff. split.
      * intros H y [<-|Hy]; auto.
      * intros H y Hy. apply H. now right.
Qed.

Lemma fold_templateErrors_lookup (entries acc : list (string * IServerErrorRecord))
    (k : string) :
  List.NoDup (map fst entries) ->
  objGet (fold_left (fun deduped entry =>
                       if isTemplate (fst entry)
                       then mapSet deduped (fst entry) (snd entry) else deduped)
            entries acc) k
  = match objGet entries k with
    | Some r => if isTemplate k then Some r else objGet acc k
    | None => objGet acc k
    end.
Proof.
  revert acc. induction entries as [|[k0 r0] entries IH]; intros acc Hnd; simpl.
  - reflexivity.
  - inversion Hnd as [|? ? Hk0 Hnd']; subst. rewrite (IH _ Hnd').
    destruct (String.eqb_spec k0 k) as [->|Hne].
    + apply objGet_None_keys in Hk0. rewrite Hk0.
      destruct (isTemplate k); [apply objGet_mapSet_eq|reflexivity].
    + destruct (isTemplate k0); [|reflexivity].
      rewrite (objGet_mapSet_ne acc k0 k r0 Hne). reflexivity.
Qed.

Lemma fold_templateErrors_NoDup (entries acc : list (string * IServerErrorRecord)) :
  List.NoDup (map fst acc) ->
  List.NoDup (map fst (fold_left (fun deduped entry =>
                                    if isTemplate (fst entry)
                                    then mapSet deduped (fst entry) (snd entry)
                                    else deduped)
                         entries acc)).
Proof.
  revert acc. induction entries as [|[k0 r0] entries IH]; intros acc H; simpl.
  - exact H.
  - apply IH. destruct (isTemplate k0); [now apply NoDup_mapSet|exact H].
Qed.

Lemma addConcreteErrors_spec (templateKeys : list string)
    (entries acc : list (string * IServerErrorRecord)) :
  wellFormedKeys templateKeys -> wellFormedKeys (map fst entries) ->
  List.NoDup (map fst entries) -> List.NoDup (map fst acc) ->
  exists saved,
    addConcreteErrors templateKeys entries acc = Some saved /\
    List.NoDup (map fst saved) /\
    forall k, objGet saved k
      = match objGet entries k with
        | Some r =>
            if isTemplate k then objGet acc k
            else if anyTemplateMatches templateKeys k is Some false
                 then Some r else objGet acc k
        | None => objGet acc k
        end.
Proof.
  intros Htk. revert acc.
  induction entries as [|[k0 r0] entries IH]; intros acc Hwf Hnd Hacc; simpl.
  - exists acc. auto.
  - inversion Hnd as [|? ? Hk0 Hnd']; subst.
    assert (Hwf' : wellFormedKeys (map fst entries))
      by (intros y Hy; apply Hwf; now right).
    apply objGet_None_keys in Hk0.
    destruct (isTemplate k0) eqn:Et.
    + destruct (IH acc Hwf' Hnd' Hacc) as (saved & -> & Hnds & Hl).
      exists saved. split; [reflexivity|]. split; [exact Hnds|].
      intros k. rewrite Hl. destruct (String.eqb_spec k0 k) as [<-|Hne].
      * now rewrite Hk0, Et.
      * reflexivity.
    + destruct (anyTemplateMatches_spec templateKeys k0 Htk) as (b & Hb & _);
        [apply Hwf; now left|].
      rewrite Hb.
      destruct (IH (if b then acc else mapSet acc k0 r0) Hwf' Hnd')
        as (saved & -> & Hnds & Hl).
      { destruct b; [exact Hacc|now apply NoDup_mapSet]. }
      exists saved. split; [reflexivity|]. split; [exact Hnds|].
      intros k. rewrite Hl. destruct (String.eqb_spec k0 k) as [<-|Hne].
      * rewrite Hk0, Et, Hb. destruct b; [reflexivity|apply objGet_mapSet_eq].
      * destruct b; [reflexivity|].
        now rewrite (objGet_mapSet_ne acc k0 k r0 Hne).
Qed.

Lemma saveErrors_spec (errors : list (string * IServerErrorRecord)) :
  List.NoDup (map fst errors) -> wellFormedKeys (map fst errors) ->
  exists saved,
    saveErrors errors = Some saved /\
    List.NoDup (map fst saved) /\
    forall k r, objGet saved k = Some r <->
      objGet errors k = Some r /\ keptErrorOnSave errors k.
Proof.
  intros Hnd Hwf. unfold saveErrors.
  assert (Htk : wellFormedKeys (List.filter isTemplate (map fst errors))).
  { intros y Hy. apply filter_In in Hy. apply Hwf. tauto. }
  destruct (addConcreteErrors_spec (List.filter isTemplate (map fst errors)) errors
              (fold_left (fun deduped entry =>
                            if isTemplate (fst entry)
                            then mapSet deduped (fst entry) (snd entry) else deduped)
                 errors []) Htk Hwf Hnd)
    as (saved & Hs & Hnds & Hl).
  { apply fold_templateErrors_NoDup. constructor. }
  exists saved. split; [exact Hs|]. split; [exact Hnds|].
  intros k r. rewrite Hl, (fold_templateErrors_lookup errors [] k Hnd).
  unfold keptErrorOnSave. simpl.
  destruct (objGet errors k) as [r0|] eqn:Ek; [|split; [discriminate|tauto]].
  assert (Hkp : is_Some (pathOf k)).
  { apply Hwf. apply objGet_In in Ek. apply (in_map fst _ (k, r0)) in Ek. exact Ek. }
  destruct (isTemplate k) eqn:Et; [split; [intros ->; auto|tauto]|].
  destruct (anyTemplateMatches_spec _ k Htk Hkp) as (b & -> & Hb).
  destruct b.
  - split; [discriminate|]. intros [_ [H|H]]; [discriminate|].
    assert (true = false); [|discriminate]. apply Hb.
    intros t Ht. apply filter_In in Ht. now apply H.
  - split.
    + intros ->. split; [reflexivity|]. right. intros t Ht Htt.
      apply (proj1 Hb eq_refl). apply filter_In. auto.
    + tauto.
Qed.

(** X6: [saveErrors] prefers the templated keys.  For an error map whose
    keys are distinct and have a path it writes its file, and the object
    it writes holds, with their records unchanged, exactly the templated
    keys and the concrete keys that no templated key of the map matches:
    the record of a concrete key that a templated key matches is left out
    of the file, its count with it. *)
Theorem saveErrors_prefers_templates (errors : list (string * IServerErrorRecord)) :
  List.NoDup (map fst errors) -> wellFormedKeys (map fst errors) ->
  exists saved,
    saveErrors errors = Some saved /\
    List.NoDup (map fst saved) /\
    (forall k r, objGet saved k = Some r <->
       objGet errors k = Some r /\ keptErrorOnSave errors k) /\
    (forall c t, In t (map fst errors) -> isTemplate c = false ->
       isTemplate t = true -> endpointMatchesTemplate c t = Some true ->
       objGet saved c = None).
Proof.
  intros Hnd Hwf.
  destruct (saveErrors_spec errors Hnd Hwf) as (saved & Hs & Hnds & Hl).
  exists saved. split; [exact Hs|]. split; [exact Hnds|]. split; [exact Hl|].
  intros c t Ht Hc Htt Hm. destruct (objGet saved c) as [r|] eqn:E; [|reflexivity].
  apply Hl in E. destruct E as [_ [H|H]]; [congruence|].
  rewrite (H t Ht Htt) in Hm. discriminate.
Qed.

Lemma saveErrors_prefers_templates_witness :
  exists saved,
    saveErrors [("GET /users/42", mkServerErrorRecord 2 {["500" := 2%Z]} None);
                ("GET /users/{id}", mkServerErrorRecord 1 {["503" := 1%Z]} None);
                ("POST /users", mkServerErrorRecord 1 {["500" := 1%Z]} None)]
    = Some saved /\
    objGet saved "GET /users/42" = None /\
    map fst saved = ["GET /users/{id}"; "POST /users"].
Proof.
  destruct (saveErrors_prefers_templates
              [("GET /users/42", mkServerErrorRecord 2 {["500" := 2%Z]} None);
               ("GET /users/{id}", mkServerErrorRecord 1 {["503" := 1%Z]} None);
               ("POST /users", mkServerErrorRecord 1 {["500" := 1%Z]} None)])
    as (saved & Hs & _ & _ & Hdrop).
  - repeat constructor; simpl; intuition discriminate.
  - intros e [<-|[<-|[<-|[]]]]; vm_compute; eauto.
  - exists saved. split; [exact Hs|]. split.
    + apply (Hdrop "GET /users/42" "GET /users/{id}"); [simpl; tauto|reflexivity..].
    + vm_compute in Hs. injection Hs as <-. reflexivity.
Defined.

(** ** The error map of the response interceptor *)

Lemma sumCounts_mapSet (m : list (string * IServerErrorRecord)) (k : string)
    (v : IServerErrorRecord) :
  sumCounts (map snd (mapSet m k v))
  = (sumCounts (map snd m)
     - match objGet m k with Some r => err_count r | None => 0 end
     + err_count v)%Z.
Proof.
  induction m as [|[k' v'] m IH]; simpl; [lia|].
  destruct (String.eqb k' k); simpl; [lia|]. rewrite IH. lia.
Qed.

Lemma findTemplateKey_defined (existingKeys : list string) (key : string) :
  wellFormedKeys existingKeys -> is_Some (pathOf key) ->
  exists templateKey,
    findTemplateKey existingKeys key = Some templateKey /\
    (templateKey = key \/
     In templateKey existingKeys /\ isTemplate templateKey = true /\
     endpointMatchesTemplate key templateKey = Some true).
Proof.
  intros Hwf Hkey. induction existingKeys as [|e l IH]; simpl; [eauto|].
  assert (Hl : wellFormedKeys l) by (intros y Hy; apply Hwf; now right).
  destruct (IH Hl) as (tk & Htk & Hcases).
  assert (Hrest : exists templateKey,
             findTemplateKey l key = Some templateKey /\
             (templateKey = key \/
              In templateKey (e :: l) /\ isTemplate templateKey = true /\
              endpointMatchesTemplate key templateKey = Some true)).
  { exists tk. split; [exact Htk|]. simpl. tauto. }
  destruct (isTemplate e) eqn:Et; [|exact Hrest].
  destruct (endpointMatchesTemplate_defined key e Hkey) as [[|] Hb];
    [apply Hwf; now left| |]; rewrite Hb; [|exact Hrest].
  exists e. split; [reflexivity|]. right. simpl. auto.
Qed.

(** One step of the interceptor: the map is left as it is, or one record
    is updated by [recordError] under a key that has a path. *)
Lemma trackError_step (apiSpec : option IOpenAPIDocument)
    (customPatterns : list IPathPattern)
    (endpointErrors : list (string * IServerErrorRecord)) (error : AxiosError) :
  wellFormedKeys (map fst endpointErrors) ->
  (isServerError error = false /\
   trackError apiSpec customPatterns endpointErrors error = endpointErrors) \/
  (isServerError error = true /\
   exists response templateKey,
     ae_response error = Some response /\
     (500 <= resp_status response < 600)%Z /\
     is_Some (pathOf templateKey) /\
     trackError apiSpec customPatterns endpointErrors error
     = recordError endpointErrors templateKey (stringOfZ (resp_status response))
         (ae_message error)).
Proof.
  intros Hwf. unfold trackError, isServerError.
  destruct (ae_response error) as [response|]; [|left; auto].
  destruct ((500 <=? resp_status response)%Z && (resp_status response <? 600)%Z)
    eqn:Es; [|left; auto].
  right. split; [reflexivity|].
  apply andb_true_iff in Es. destruct Es as [H1 H2].
  apply Z.leb_le in H1. apply Z.ltb_lt in H2.
  set (key := endpointKey _).
  assert (Hkey : is_Some (pathOf key)) by apply pathOf_endpointKey.
  destruct (noBraces key).
  - destruct (findTemplateKey_defined _ key Hwf Hkey) as (tk & -> & Hcases).
    exists response, tk. split; [reflexivity|]. split; [lia|]. split; [|reflexivity].
    destruct Hcases as [->|(Hin & _)]; [exact Hkey|now apply Hwf].
  - exists response, key. split; [reflexivity|]. split; [lia|]. now split.
Qed.

Lemma recordError_keys (m : list (string * IServerErrorRecord))
    (templateKey statusStr message : string) :
  is_Some (pathOf templateKey) -> wellFormedKeys (map fst m) ->
  wellFormedKeys (map fst (recordError m templateKey statusStr message)).
Proof.
  intros Hk Hwf e. unfold recordError. rewrite map_fst_mapSet.
  destruct (objGet m templateKey); [apply Hwf|].
  rewrite in_app_iff. intros [H|[<-|[]]]; [now apply Hwf|exact Hk].
Qed.

Lemma recordError_total (m : list (string * IServerErrorRecord))
    (templateKey statusStr message : string) :
  sumCounts (map snd (recordError m templateKey statusStr message))
  = (sumCounts (map snd m) + 1)%Z.
Proof.
  unfold recordError. rewrite sumCounts_mapSet.
  destruct (objGet m templateKey); simpl; lia.
Qed.

Lemma fold_trackError_total (apiSpec : option IOpenAPIDocument)
    (customPatterns : list IPathPattern) (errors : list AxiosError)
    (m : list (string * IServerErrorRecord)) :
  wellFormedKeys (map fst m) -> List.NoDup (map fst m) ->
  let m' := fold_left (trackError apiSpec customPatterns) errors m in
  wellFormedKeys (map fst m') /\ List.NoDup (map fst m') /\
  sumCounts (map snd m')
  = (sumCounts (map snd m) + Z.of_nat (length (List.filter isServerError errors)))%Z.
Proof.
  revert m. induction errors as [|error errors IH]; intros m Hwf Hnd; simpl.
  - repeat split; [exact Hwf|exact Hnd|lia].
  - destruct (trackError_step apiSpec customPatterns m error Hwf)
      as [[Hs ->]|(Hs & response & tk & _ & _ & Htk & ->)]; rewrite Hs.
    + now apply IH.
    + destruct (IH (recordError m tk (stringOfZ (resp_status response))
                      (ae_message error))) as (H1 & H2 & H3).
      * now apply recordError_keys.
      * unfold recordError. now apply NoDup_mapSet.
      * split; [exact H1|]. split; [exact H2|].
        rewrite H3, recordError_total. simpl length. lia.
Qed.


Lemma histogramTotal_increment (codes : gmap string Z) (statusStr : string) :
  histogramTotal (<[statusStr := (default 0 (codes !! statusStr) + 1)%Z]> codes)
  = (histogramTotal codes + 1)%Z.
Proof.
  unfold histogramTotal.
  assert (Hcomm : forall (m : gmap string Z) (j1 j2 : string) (z1 z2 y : Z),
             j1 <> j2 -> m !! j1 = Some z1 -> m !! j2 = Some z2 ->
             (z1 + (z2 + y) = z2 + (z1 + y))%Z) by (intros; lia).
  destruct (codes !! statusStr) as [n|] eqn:E; simpl.
  - rewrite <- insert_delete_eq.
    rewrite map_fold_insert_L; [|apply Hcomm|apply lookup_delete_eq].
    rewrite (map_fold_delete_L _ _ statusStr n codes); [lia|apply Hcomm|exact E].
  - rewrite map_fold_insert_L; [lia|apply Hcomm|exact E].
Qed.

Lemma substring_length_le (m : nat) (s : string) :
  String.length (String.substring 0 m s) <= m.
Proof.
  revert s. induction m as [|m IH]; intros [|c s]; simpl; try lia.
  specialize (IH s). lia.
Qed.

Lemma recordError_interceptorRecord (m : list (string * IServerErrorRecord))
    (templateKey message : string) (status : Z) :
  (500 <= status < 600)%Z ->
  (forall k r, In (k, r) m -> interceptorRecord r) ->
  forall k r,
    In (k, r) (recordError m templateKey (stringOfZ status) message) ->
    interceptorRecord r.
Proof.
  intros Hs Hm k r Hin. unfold recordError in Hin.
  apply In_mapSet in Hin. destruct Hin as [[= -> ->]|Hin]; [|exact (Hm _ _ Hin)].
  set (old := match objGet m templateKey with
              | Some r => r
              | None => {| err_count := 0; err_statusCodes := ∅; err_lastError := None |}
              end).
  assert (Hold : (0 <= err_count old)%Z /\
                 err_count old = histogramTotal (err_statusCodes old) /\
                 (forall statusStr n, err_statusCodes old !! statusStr = Some n ->
                    (0 < n)%Z /\
                    exists status, statusStr = stringOfZ status /\
                      (500 <= status < 600)%Z) /\
                 (forall message, err_lastError old = Some message ->
                    String.length message <= 200)).
  { unfold old. destruct (objGet m templateKey) as [r0|] eqn:E.
    - apply objGet_In in E. destruct (Hm _ _ E) as (H1 & H2 & H3 & H4).
      split; [lia|]. split; [exact H2|]. split; [exact H3|exact H4].
    - simpl. split; [lia|]. split; [reflexivity|].
      split; [intros ? ? H; now rewrite lookup_empty in H|discriminate]. }
  destruct Hold as (H1 & H2 & H3 & H4).
  unfold interceptorRecord. simpl. split; [lia|]. split; [|split].
  - rewrite histogramTotal_increment. lia.
  - intros statusStr n. rewrite lookup_insert_Some.
    intros [[<- <-]|[_ H]]; [|now apply H3]. split.
    + destruct (err_statusCodes old !! stringOfZ status) as [n0|] eqn:E; simpl; [|lia].
      destruct (H3 _ _ E). lia.
    + now exists status.
  - intros msg. destruct (truthy message); [|apply H4].
    intros [= <-]. apply substring_length_le.
Qed.

Lemma fold_trackError_interceptorRecord (apiSpec : option IOpenAPIDocument)
    (customPatterns : list IPathPattern) (errors : list AxiosError)
    (m : list (string * IServerErrorRecord)) :
  wellFormedKeys (map fst m) ->
  (forall k r, In (k, r) m -> interceptorRecord r) ->
  forall k r,
    In (k, r) (fold_left (trackError apiSpec customPatterns) errors m) ->
    interceptorRecord r.
Proof.
  revert m. induction errors as [|error errors IH]; intros m Hwf Hm; simpl.
  - exact Hm.
  - destruct (trackError_step apiSpec customPatterns m error Hwf)
      as [[_ ->]|(_ & response & tk & _ & Hs & Htk & ->)].
    + now apply IH.
    + apply IH; [now apply recordError_keys|].
      now apply recordError_interceptorRecord.
Qed.



(** ** [saveErrors] after the interceptor *)

Lemma sumCounts_app (a b : list IServerErrorRecord) :
  sumCounts (a ++ b) = (sumCounts a + sumCounts b)%Z.
Proof.
  induction a as [|r a IH]; simpl; [reflexivity|]. rewrite IH. lia.
Qed.

Lemma sumCounts_nonneg (l : list IServerErrorRecord) :
  (forall r, In r l -> (0 <= err_count r)%Z) -> (0 <= sumCounts l)%Z.
Proof.
  induction l as [|r l IH]; simpl; intros H; [lia|].
  specialize (H r (or_introl eq_refl)) as Hr.
  assert (0 <= sumCounts l)%Z by (apply IH; intros; apply H; now right). lia.
Qed.

Lemma sumCounts_sub_map (saved m : list (string * IServerErrorRecord)) :
  List.NoDup (map fst saved) ->
  (forall k r, In (k, r) saved -> In (k, r) m) ->
  (forall k r, In (k, r) m -> (0 <= err_count r)%Z) ->
  (sumCounts (map snd saved) <= sumCounts (map snd m))%Z.
Proof.
  revert m. induction saved as [|[k r] saved IH]; intros m Hnd Hsub Hpos; simpl.
  - apply sumCounts_nonneg. intros r Hr. apply in_map_iff in Hr.
    destruct Hr as ([k' r'] & <- & Hin). exact (Hpos _ _ Hin).
  - inversion Hnd as [|? ? Hk Hnd']; subst.
    destruct (in_split _ _ (Hsub k r (or_introl eq_refl))) as (m1 & m2 & ->).
    rewrite map_app, sumCounts_app. simpl.
    assert (sumCounts (map snd saved) <= sumCounts (map snd (m1 ++ m2)))%Z.
    { apply IH; [exact Hnd'| |].
      - intros k' r' Hin. specialize (Hsub k' r' (or_intror Hin)).
        apply in_app_iff in Hsub. apply in_app_iff.
        destruct Hsub as [H|[[= <- <-]|H]]; [tauto| |tauto].
        exfalso. apply Hk. apply (in_map fst _ (k, r)) in Hin. exact Hin.
      - intros k' r' Hin. apply (Hpos k' r'). apply in_app_iff in Hin.
        apply in_app_iff. simpl. tauto. }
    rewrite map_app, sumCounts_app in H. lia.
Qed.

(** X9: [saveErrors] on the error map of the interceptor.  After any
    sequence of failed responses the file is written; every record of the
    file is a record of the map, under its key; and the counts of the file
    add up to at most the number of 5xx responses.  They can add up to
    less: with [/users/me] and [/users/{id}] declared, a 500 on
    [/users/me] followed by a 500 on [/users/42] leaves two records in the
    map and one, [GET /users/{id}] with count 1, in the file. *)
Theorem saveErrors_after_trackErrors :
  (forall (apiSpec : option IOpenAPIDocument) (customPatterns : list IPathPattern)
          (errors : list AxiosError),
     exists saved,
       saveErrors (trackErrors apiSpec customPatterns errors) = Some saved /\
       (forall k r, objGet saved k = Some r ->
          objGet (trackErrors apiSpec customPatterns errors) k = Some r) /\
       (sumCounts (map snd saved)
        <= Z.of_nat (length (List.filter isServerError errors)))%Z) /\
  (let errors :=
     trackErrors (Some (docOfPaths ["/users/me"; "/users/{id}"])) []
       [mkAxiosError (Some (mkErrorResponse 500 (Some "get") "/users/me")) "";
        mkAxiosError (Some (mkErrorResponse 500 (Some "get") "/users/42")) ""] in
   map (fun e => (fst e, err_count (snd e))) errors
   = [("GET /users/me", 1%Z); ("GET /users/{id}", 1%Z)] /\
   option_map (map (fun e => (fst e, err_count (snd e)))) (saveErrors errors)
   = Some [("GET /users/{id}", 1%Z)]).
Proof.
  split; [|split; vm_compute; reflexivity].
  intros apiSpec customPatterns errors.
  destruct (fold_trackError_total apiSpec customPatterns errors [])
    as (Hwf & Hnd & Htotal); [intros ? []|constructor|].
  fold (trackErrors apiSpec customPatterns errors) in Hwf, Hnd, Htotal.
  destruct (saveErrors_spec _ Hnd Hwf) as (saved & Hs & Hnds & Hl).
  exists saved. split; [exact Hs|]. split.
  - intros k r H. now apply Hl in H.
  - assert (Ht : Z.of_nat (length (List.filter isServerError errors))
                 = sumCounts (map snd (trackErrors apiSpec customPatterns errors)))
      by (rewrite Htotal; simpl; lia).
    rewrite Ht. apply sumCounts_sub_map; [exact Hnds| |].
    + intros k r Hin. apply objGet_In. apply Hl. now apply In_objGet.
    + intros k r Hin.
      assert (Hr : interceptorRecord r).
      { apply (fold_trackError_interceptorRecord apiSpec customPatterns errors []
                 (fun _ H => match H with end)
                 (fun _ _ H => match H with end) k r Hin). }
      destruct Hr as [Hr _]. lia.
Qed.

(** ** [getAllHitEndpoints] *)

Lemma collectHitEndpoints_spec (hitEndpoints : list string)
    (files : list (option (list string))) :
  List.NoDup (collectHitEndpoints hitEndpoints files) /\
  forall e, In e (collectHitEndpoints hitEndpoints files) <->
    In e hitEndpoints \/
    exists fileEndpoints, In (Some fileEndpoints) files /\ In e fileEndpoints.
Proof.
  unfold collectHitEndpoints.
  assert (Hgen : forall acc, List.NoDup acc ->
            let all := fold_left
                         (fun allHitEndpoints file =>
                            match file with
                            | Some fileEndpoints =>
                                fold_left setAdd fileEndpoints allHitEndpoints
                            | None => allHitEndpoints
                            end) files acc in
            List.NoDup all /\
            forall e, In e all <->
              In e acc \/
              exists fileEndpoints,
                In (Some fileEndpoints) files /\ In e fileEndpoints).
  { induction files as [|file files IH]; intros acc Hnd; simpl.
    - split; [exact Hnd|]. intros e. split; [tauto|].
      intros [H|(? & [] & _)]. exact H.
    - assert (Hfold : forall l a, List.NoDup a -> List.NoDup (fold_left setAdd l a)).
      { intros l. induction l as [|y l IHl]; intros a Ha; simpl; [exact Ha|].
        apply IHl. now apply NoDup_setAdd. }
      destruct file as [fileEndpoints|].
      + destruct (IH (fold_left setAdd fileEndpoints acc)) as [H1 H2];
          [now apply Hfold|].
        split; [exact H1|]. intros e. rewrite H2, In_fold_setAdd. split.
        * intros [[H|H]|(l & Hl & He)]; [tauto| |].
          -- right. exists fileEndpoints. auto.
          -- right. exists l. auto.
        * intros [H|(l & [[= ->]|Hl] & He)]; [tauto|tauto|].
          right. exists l. auto.
      + destruct (IH acc Hnd) as [H1 H2]. split; [exact H1|].
        intros e. rewrite H2. split.
        * intros [H|(l & Hl & He)]; [tauto|]. right. exists l. auto.
        * intros [H|(l & [[=]|Hl] & He)]; [tauto|]. right. exists l. auto. }
  destruct (Hgen (fold_left setAdd hitEndpoints [])) as [H1 H2].
  { clear. assert (H : forall l a, List.NoDup a -> List.NoDup (fold_left setAdd l a)).
    { intros l. induction l as [|y l IHl]; intros a Ha; simpl; [exact Ha|].
      apply IHl. now apply NoDup_setAdd. }
    apply H. constructor. }
  split; [exact H1|]. intros e. rewrite H2, In_fold_setAdd. simpl. tauto.
Qed.

Lemma groupByStructureStep_grouped (groups : list (string * list string))
    (processed : list string) (key0 endpoint : string) :
  errorStructureKey endpoint = Some key0 ->
  groupedByStructure groups processed ->
  groupedByStructure (groupByStructureStep groups key0 endpoint)
                     (processed ++ [endpoint]).
Proof.
  intros Hk (Hnd & Hsome & Hkeys). unfold groupByStructureStep.
  split; [now apply NoDup_mapSet|]. split.
  - intros key l. rewrite objGet_mapSet. case_decide as Hd.
    + subst key. intros [= <-].
      destruct (objGet groups key0) as [old|] eqn:Eo.
      * destruct (Hsome _ _ Eo) as [Hndo Hino].
        split; [now apply NoDup_setAdd|].
        intros e. rewrite In_setAdd, Hino, in_app_iff. simpl. split.
        -- intros [H| ->]; [tauto|auto].
        -- intros ([H|[<-|[]]] & H'); auto.
      * split; [apply NoDup_setAdd; constructor|].
        intros e. rewrite In_setAdd, in_app_iff. simpl. split.
        -- intros [[]| ->]. auto.
        -- intros ([H|[<-|[]]] & H'); auto.
           destruct (Hkeys e key0 H H') as [x Hx]. congruence.
    + intros Hl. destruct (Hsome _ _ Hl) as [Hndl Hinl]. split; [exact Hndl|].
      intros e. rewrite Hinl, in_app_iff. simpl. split; [tauto|].
      intros ([H|[<-|[]]] & H'); [auto|congruence].
  - intros e key He Hek. rewrite objGet_mapSet. case_decide; [eauto|].
    apply in_app_iff in He. destruct He as [He|[<-|[]]]; [eauto|congruence].
Qed.

Lemma groupByStructureFrom_grouped (endpoints processed : list string)
    (groups0 : list (string * list string)) :
  wellFormedKeys endpoints ->
  groupedByStructure groups0 processed ->
  exists groups,
    groupByStructureFrom groups0 endpoints = Some groups /\
    groupedByStructure groups (processed ++ endpoints).
Proof.
  revert processed groups0. induction endpoints as [|e endpoints IH];
    intros processed groups0 Hwf Hinv; simpl.
  - exists groups0. now rewrite app_nil_r.
  - destruct (Hwf e (or_introl eq_refl)) as [path Hp].
    assert (Hk : errorStructureKey e
                 = Some (methodOf e +:+ " " +:+ replaceObjectIds path)).
    { unfold errorStructureKey. now rewrite Hp. }
    rewrite Hk.
    replace (processed ++ e :: endpoints) with ((processed ++ [e]) ++ endpoints)
      by now rewrite <- app_assoc.
    apply IH; [intros y Hy; apply Hwf; now right|].
    now apply groupByStructureStep_grouped.
Qed.

Lemma groupByStructureFrom_fails (endpoints : list string)
    (groups0 : list (string * list string)) (e : string) :
  In e endpoints -> pathOf e = None ->
  groupByStructureFrom groups0 endpoints = None.
Proof.
  revert groups0. induction endpoints as [|x endpoints IH]; intros groups0;
    simpl; [intros []|].
  intros Hin He. destruct (errorStructureKey x) as [key|] eqn:Ek; [|reflexivity].
  destruct Hin as [->|Hin]; [|now apply IH].
  unfold errorStructureKey in Ek. rewrite He in Ek. discriminate.
Qed.

Lemma preferTemplates_spec (deduped endpoints : list string) :
  List.NoDup deduped ->
  List.NoDup (preferTemplates deduped endpoints) /\
  forall x, In x (preferTemplates deduped endpoints) <->
    In x deduped \/
    In x endpoints /\
    (isTemplate x = true \/ forall t, In t endpoints -> isTemplate t = false).
Proof.
  intros Hnd. unfold preferTemplates.
  destruct (existsb isTemplate endpoints) eqn:Ex.
  - apply existsb_exists in Ex. destruct Ex as (t0 & Ht0 & Htt0).
    assert (Hgen : forall l d, List.NoDup d ->
              let r := fold_left (fun deduped endpoint =>
                                    if isTemplate endpoint
                                    then setAdd deduped endpoint else deduped) l d in
              List.NoDup r /\
              forall x, In x r <-> In x d \/ In x l /\ isTemplate x = true).
    { intros l. induction l as [|y l IHl]; intros d Hd; simpl.
      - split; [exact Hd|]. intros x. tauto.
      - destruct (isTemplate y) eqn:Ey.
        + destruct (IHl (setAdd d y)) as [H1 H2]; [now apply NoDup_setAdd|].
          split; [exact H1|]. intros x. rewrite H2, In_setAdd. split.
          * intros [[H| ->]|H]; tauto.
          * intros [H|([<-|H] & H')]; tauto.
        + destruct (IHl d Hd) as [H1 H2]. split; [exact H1|].
          intros x. rewrite H2. split; [tauto|].
          intros [H|([<-|H] & H')]; [tauto|congruence|tauto]. }
    destruct (Hgen endpoints deduped Hnd) as [H1 H2]. split; [exact H1|].
    intros x. rewrite H2. split; [tauto|].
    intros [H|(H & [H'|H'])]; [tauto|tauto|].
    specialize (H' t0 Ht0). congruence.
  - assert (Hall : forall t, In t endpoints -> isTemplate t = false).
    { intros t Ht. destruct (isTemplate t) eqn:Et; [|reflexivity].
      assert (existsb isTemplate endpoints = true)
        by (apply existsb_exists; eauto). congruence. }
    split.
    + clear - Hnd. revert deduped Hnd.
      induction endpoints as [|y l IHl]; intros d Hd; simpl; [exact Hd|].
      apply IHl. now apply NoDup_setAdd.
    + intros x. rewrite In_fold_setAdd. split; [tauto|tauto].
Qed.

Lemma fold_preferTemplates_spec (groups : list (string * list string))
    (deduped : list string) :
  List.NoDup deduped ->
  List.NoDup (fold_left preferTemplates (mapValues groups) deduped) /\
  forall x, In x (fold_left preferTemplates (mapValues groups) deduped) <->
    In x deduped \/
    exists key l, In (key, l) groups /\ In x l /\
      (isTemplate x = true \/ forall t, In t l -> isTemplate t = false).
Proof.
  unfold mapValues. revert deduped.
  induction groups as [|[key l] groups IH]; intros deduped Hnd; simpl.
  - split; [exact Hnd|]. intros x. split; [tauto|].
    intros [H|(? & ? & [] & _)]. exact H.
  - destruct (preferTemplates_spec deduped l Hnd) as [H1 H2].
    destruct (IH _ H1) as [H3 H4]. split; [exact H3|].
    intros x. rewrite H4, H2. split.
    + intros [[H|H]|(k' & l' & H & H')]; [tauto| |].
      * right. exists key, l. split; [now left|exact H].
      * right. exists k', l'. split; [now right|exact H'].
    + intros [H|(k' & l' & [[= -> ->]|H] & H')]; [tauto|tauto|].
      right. exists k', l'. tauto.
Qed.

Lemma getAllHitEndpoints_spec (hitEndpoints : list string)
    (files : list (option (list string))) :
  wellFormedKeys (collectHitEndpoints hitEndpoints files) ->
  exists result,
    getAllHitEndpoints hitEndpoints files = Some result /\
    List.NoDup result /\
    forall e, In e result <->
      keptOnCollect (collectHitEndpoints hitEndpoints files) e.
Proof.
  intros Hwf. unfold getAllHitEndpoints.
  set (all := collectHitEndpoints hitEndpoints files) in *.
  destruct (groupByStructureFrom_grouped all [] [] Hwf)
    as (groups & -> & Hnd & Hsome & Hkeys).
  { split; [constructor|]. split; [discriminate|intros ? ? []]. }
  simpl in Hsome, Hkeys.
  destruct (fold_preferTemplates_spec groups []) as [H1 H2]; [constructor|].
  eexists. split; [reflexivity|]. split; [exact H1|].
  intros e. rewrite H2. unfold keptOnCollect. split.
  - intros [[]|(key & l & Hkl & He & Hc)].
    destruct (Hsome key l (In_objGet _ _ _ Hnd Hkl)) as [_ Hl].
    destruct (proj1 (Hl e) He) as [Hin Hek]. split; [exact Hin|].
    destruct Hc as [Hc|Hc]; [now left|]. right.
    intros t Ht Htt Heq. rewrite Hek in Heq.
    assert (In t l) by (apply Hl; auto).
    specialize (Hc t H). congruence.
  - intros [Hin Hc]. right.
    destruct (Hwf e Hin) as [path Hp].
    assert (Hk : errorStructureKey e
                 = Some (methodOf e +:+ " " +:+ replaceObjectIds path)).
    { unfold errorStructureKey. now rewrite Hp. }
    destruct (Hkeys e _ Hin Hk) as [l Hl].
    destruct (Hsome _ _ Hl) as [_ Hinl].
    exists (methodOf e +:+ " " +:+ replaceObjectIds path), l.
    split; [now apply objGet_In|]. split; [apply Hinl; auto|].
    destruct Hc as [Hc|Hc]; [now left|]. right.
    intros t Ht. apply Hinl in Ht. destruct Ht as [Ht Htk].
    destruct (isTemplate t) eqn:Et; [|reflexivity].
    exfalso. apply (Hc t Ht Et). congruence.
Qed.

(** X10: [getAllHitEndpoints] prefers templated endpoints within a
    structure.  The collected endpoints are those of the worker and of the
    endpoint files that hold an array.  When each of them has a path, the
    result has no duplicate and holds exactly the templated endpoints and
    the endpoints whose structure key (the key with every ObjectId
    segment replaced) is the key of no templated endpoint; when one of
    them has no path, the function throws.  The replacement of an ObjectId
    writes a slash behind [{id}], so an id in the middle of a path is
    merged with its template and an id at the end of a path is not. *)
Theorem getAllHitEndpoints_prefers_templates :
  (forall (hitEndpoints : list string) (files : list (option (list string))) e,
     In e (collectHitEndpoints hitEndpoints files) <->
     In e hitEndpoints \/
     exists fileEndpoints, In (Some fileEndpoints) files /\ In e fileEndpoints) /\
  (forall (hitEndpoints : list string) (files : list (option (list string))),
     wellFormedKeys (collectHitEndpoints hitEndpoints files) ->
     exists result,
       getAllHitEndpoints hitEndpoints files = Some result /\
       List.NoDup result /\
       forall e, In e result <->
         keptOnCollect (collectHitEndpoints hitEndpoints files) e) /\
  (forall (hitEndpoints : list string) (files : list (option (list string))) e,
     In e (collectHitEndpoints hitEndpoints files) -> pathOf e = None ->
     getAllHitEndpoints hitEndpoints files = None) /\
  getAllHitEndpoints ["GET /users/507f1f77bcf86cd799439011/posts"]
    [None; Some ["GET /users/{id}/posts"]]
  = Some ["GET /users/{id}/posts"] /\
  getAllHitEndpoints ["GET /users/507f1f77bcf86cd799439011"]
    [Some ["GET /users/{id}"]]
  = Some ["GET /users/507f1f77bcf86cd799439011"; "GET /users/{id}"].
Proof.
  split; [|split; [|split; [|split; reflexivity]]].
  - intros hitEndpoints files. apply collectHitEndpoints_spec.
  - exact getAllHitEndpoints_spec.
  - intros hitEndpoints files e Hin He. unfold getAllHitEndpoints.
    now rewrite (groupByStructureFrom_fails _ [] e Hin He).
Qed.

(** ** [getAllServerErrors] *)

Section MergeMeasure.

Variable mu : IServerErrorRecord -> Z.
Variable nu : IErrorFileRecord -> Z.

Hypothesis mu_merge :
  forall (all : list (string * IServerErrorRecord)) (endpoint : string)
         (errorRecord : IErrorFileRecord),
    measureAt mu (mergeFileRecord all endpoint errorRecord) endpoint
    = (measureAt mu all endpoint + nu errorRecord)%Z.

Lemma mergeFileRecord_measure (all : list (string * IServerErrorRecord))
    (endpoint : string) (errorRecord : IErrorFileRecord) (e : string) :
  measureAt mu (mergeFileRecord all endpoint errorRecord) e
  = (measureAt mu all e + (if String.eqb endpoint e then nu errorRecord else 0))%Z.
Proof.
  destruct (String.eqb_spec endpoint e) as [<-|Hne]; [apply mu_merge|].
  unfold measureAt, mergeFileRecord. rewrite objGet_mapSet_ne by exact Hne. lia.
Qed.

Lemma mergeErrorFile_measure (all : list (string * IServerErrorRecord))
    (file : option (list (string * IErrorFileRecord))) (e : string) :
  measureAt mu (mergeErrorFile all file) e
  = (measureAt mu all e + fileMeasure nu e [file])%Z.
Proof.
  unfold mergeErrorFile, fileMeasure. destruct file as [fileErrors|]; simpl; [|lia].
  revert all. induction fileErrors as [|[k r] fileErrors IH]; intros all; simpl.
  - lia.
  - rewrite IH, mergeFileRecord_measure. lia.
Qed.

Lemma fileMeasure_cons (file : option (list (string * IErrorFileRecord)))
    (files : list (option (list (string * IErrorFileRecord)))) (e : string) :
  fileMeasure nu e (file :: files)
  = (fileMeasure nu e [file] + fileMeasure nu e files)%Z.
Proof. unfold fileMeasure. simpl. lia. Qed.

Lemma fold_mergeErrorFile_measure
    (files : list (option (list (string * IErrorFileRecord))))
    (all : list (string * IServerErrorRecord)) (e : string) :
  measureAt mu (fold_left mergeErrorFile files all) e
  = (measureAt mu all e + fileMeasure nu e files)%Z.
Proof.
  revert all. induction files as [|file files IH]; intros all.
  - simpl. lia.
  - simpl fold_left. rewrite IH, mergeErrorFile_measure, (fileMeasure_cons file files).
    lia.
Qed.

End MergeMeasure.

Lemma fileMeasure_Permutation (nu : IErrorFileRecord -> Z) (e : string)
    (files files' : list (option (list (string * IErrorFileRecord)))) :
  Permutation files files' -> fileMeasure nu e files = fileMeasure nu e files'.
Proof.
  unfold fileMeasure. induction 1; simpl; lia.
Qed.

Lemma copy_entries {A : Type} (entries acc : list (string * A)) :
  List.NoDup (map fst (acc ++ entries)) ->
  fold_left (fun all entry => mapSet all (fst entry) (snd entry)) entries acc
  = acc ++ entries.
Proof.
  revert acc. induction entries as [|[k v] entries IH]; intros acc Hnd; simpl.
  - now rewrite app_nil_r.
  - assert (Hset : mapSet acc k v = acc ++ [(k, v)]).
    { assert (Hk : ~ In k (map fst acc)).
      { rewrite map_app in Hnd. simpl in Hnd.
        apply NoDup_remove_2 in Hnd. rewrite in_app_iff in Hnd. tauto. }
      clear - Hk. induction acc as [|[k' v'] acc IHa]; simpl in *; [reflexivity|].
      destruct (String.eqb_spec k' k) as [->|Hne]; [tauto|].
      rewrite IHa by tauto. reflexivity. }
    rewrite Hset, IH; rewrite <- app_assoc; [reflexivity|exact Hnd].
Qed.

Lemma count_merge (all : list (string * IServerErrorRecord)) (endpoint : string)
    (errorRecord : IErrorFileRecord) :
  measureAt err_count (mergeFileRecord all endpoint errorRecord) endpoint
  = (measureAt err_count all endpoint + fileCount errorRecord)%Z.
Proof.
  unfold measureAt, mergeFileRecord, fileCount. rewrite objGet_mapSet_eq. simpl.
  now destruct (objGet all endpoint).
Qed.

Lemma codeCount_mergeStatusCodes (merged codes : gmap string Z) (status : string) :
  codeCount (mergeStatusCodes merged codes) status
  = (codeCount merged status + codeCount codes status)%Z.
Proof.
  unfold codeCount at 1. rewrite mergeStatusCodes_lookup. unfold codeCount.
  destruct (codes !! status); simpl; lia.
Qed.

Lemma codeCount_merge (status : string)
    (all : list (string * IServerErrorRecord)) (endpoint : string)
    (errorRecord : IErrorFileRecord) :
  measureAt (fun r => codeCount (err_statusCodes r) status)
    (mergeFileRecord all endpoint errorRecord) endpoint
  = (measureAt (fun r => codeCount (err_statusCodes r) status) all endpoint
     + fileCodeCount status errorRecord)%Z.
Proof.
  unfold measureAt, mergeFileRecord, fileCodeCount. rewrite objGet_mapSet_eq. simpl.
  destruct (file_statusCodes errorRecord) as [codes|].
  - rewrite codeCount_mergeStatusCodes. now destruct (objGet all endpoint).
  - destruct (objGet all endpoint); simpl; [lia|]. unfold codeCount.
    rewrite lookup_empty. reflexivity.
Qed.



(** ** [generateCoverageReport]: tested, untested and extra endpoints *)

Lemma NoDup_fold_setAdd (l acc : list string) :
  List.NoDup acc -> List.NoDup (fold_left setAdd l acc).
Proof.
  revert acc. induction l as [|y l IH]; intros acc H; simpl; [exact H|].
  apply IH. now apply NoDup_setAdd.
Qed.

Lemma NoDup_uniq (l : list string) : List.NoDup (uniq l).
Proof. apply NoDup_fold_setAdd. constructor. Qed.

Lemma specStructuresFrom_lookup (specEndpoints : list string)
    (m0 m : gmap string string) :
  specStructuresFrom m0 specEndpoints = Some m ->
  (forall k e, m !! k = Some e -> In e specEndpoints \/ m0 !! k = Some e) /\
  (forall k, m !! k = None <->
     m0 !! k = None /\ forall s, In s specEndpoints -> structureKeyOf s <> Some k).
Proof.
  revert m0. induction specEndpoints as [|x l IH]; intros m0; simpl.
  - intros [= <-]. split; [tauto|]. intros k. split; [tauto|tauto].
  - destruct (structureKeyOf x) as [kx|] eqn:Ex; [|discriminate].
    intros H. destruct (IH _ H) as [H1 H2]. split.
    + intros k e Hke. destruct (H1 k e Hke) as [Hin|Hm]; [tauto|].
      apply lookup_insert_Some in Hm. destruct Hm as [[_ <-]|[_ Hm]]; tauto.
    + intros k. rewrite H2, lookup_insert_None. split.
      * intros [[Hm Hne] Hl]. split; [exact Hm|].
        intros s [<-|Hs]; [congruence|now apply Hl].
      * intros [Hm Hl]. split; [split; [exact Hm|]|].
        -- intros ->. now apply (Hl x (or_introl eq_refl)).
        -- intros s Hs. apply Hl. now right.
Qed.

Lemma classifyHits_spec (specEndpoints : list string)
    (m : gmap string string) (hits additional extra : list string) :
  classifyHits specEndpoints m hits = Some (additional, extra) ->
  (forall s, In s additional ->
     exists h k, In h hits /\ ~ In h specEndpoints /\
       structureKeyOf h = Some k /\ m !! k = Some s) /\
  (forall x, In x extra <->
     In x hits /\ ~ In x specEndpoints /\
     exists k, structureKeyOf x = Some k /\ m !! k = None) /\
  (forall h, In h hits -> ~ In h specEndpoints ->
     exists k, structureKeyOf h = Some k /\
       match m !! k with
       | Some s => truthy s = true -> In s additional
       | None => In h extra
       end).
Proof.
  revert additional extra. induction hits as [|h hits IH]; intros additional extra; simpl.
  - intros [= <- <-]. split; [intros ? []|]. split; [|intros ? []].
    intros x. split; [intros []|tauto].
  - destruct (setHas specEndpoints h) eqn:Eh.
    + intros H. destruct (IH _ _ H) as (H1 & H2 & H3).
      apply setHas_In in Eh. split; [|split].
      * intros s Hs. destruct (H1 s Hs) as (h' & k & Hh' & Hr). exists h', k. tauto.
      * intros x. rewrite H2. split; [tauto|].
        intros ([<-|Hx] & Hn & Hk); [contradiction|tauto].
      * intros h' [<-|Hh'] Hn; [contradiction|now apply H3].
    + assert (Hnh : ~ In h specEndpoints).
      { intros Hin. apply setHas_In in Hin. congruence. }
      destruct (structureKeyOf h) as [k|] eqn:Ek; [|discriminate].
      destruct (classifyHits specEndpoints m hits) as [[add' extra']|]; [|discriminate].
      destruct (IH _ _ eq_refl) as (H1 & H2 & H3).
      destruct (m !! k) as [s|] eqn:Em.
      * intros [= <- <-]. split; [|split].
        -- intros s' Hs'.
           assert (Hcases : s' = s \/ In s' add').
           { destruct (truthy s); [destruct Hs' as [<-|?]; auto|auto]. }
           destruct Hcases as [->|Hin].
           ++ exists h, k. tauto.
           ++ destruct (H1 s' Hin) as (h' & k' & Hh' & Hr). exists h', k'. tauto.
        -- intros x. rewrite H2. split; [tauto|].
           intros ([<-|Hx] & Hn & k' & Hk' & Hm'); [congruence|].
           split; [exact Hx|]. split; [exact Hn|]. eauto.
        -- intros h' [<-|Hh'] Hn.
           ++ exists k. split; [exact Ek|]. rewrite Em. intros Ht. rewrite Ht. now left.
           ++ destruct (H3 h' Hh' Hn) as (k' & Hk' & Hc). exists k'.
              split; [exact Hk'|]. destruct (m !! k') as [s'|]; [|exact Hc].
              intros Ht. specialize (Hc Ht). destruct (truthy s); [now right|exact Hc].
      * intros [= <- <-]. split; [|split].
        -- intros s' Hs'. destruct (H1 s' Hs') as (h' & k' & Hh' & Hr).
           exists h', k'. tauto.
        -- intros x. simpl. rewrite H2. split.
           ++ intros [<-|H]; [|tauto]. split; [now left|]. split; [exact Hnh|eauto].
           ++ intros ([<-|Hx] & Hn & Hk); [now left|right; tauto].
        -- intros h' [<-|Hh'] Hn.
           ++ exists k. split; [exact Ek|]. rewrite Em. now left.
           ++ destruct (H3 h' Hh' Hn) as (k' & Hk' & Hc). exists k'.
              split; [exact Hk'|]. destruct (m !! k') as [s'|]; [exact Hc|now right].
Qed.

Lemma extraByStructureFrom_spec (extra : list string)
    (m0 m : list (string * string)) :
  extraByStructureFrom m0 extra = Some m ->
  List.NoDup (map fst m0) ->
  List.NoDup (map fst m) /\
  (forall k v, objGet m k = Some v ->
     objGet m0 k = Some v \/ In v extra /\ structureKeyOf v = Some k) /\
  (forall k, is_Some (objGet m0 k) -> is_Some (objGet m k)) /\
  (forall x, In x extra ->
     exists k, structureKeyOf x = Some k /\ is_Some (objGet m k)).
Proof.
  revert m0. induction extra as [|x extra IH]; intros m0; simpl.
  - intros [= <-] Hnd. split; [exact Hnd|]. split; [tauto|]. split; [tauto|intros ? []].
  - destruct (structureKeyOf x) as [kx|] eqn:Ex; [|discriminate].
    set (m1 := if isTemplate x then mapSet m0 kx x
               else if negb (mapHas m0 kx) then mapSet m0 kx x else m0).
    intros H Hnd.
    assert (Hnd1 : List.NoDup (map fst m1)).
    { unfold m1. destruct (isTemplate x); [now apply NoDup_mapSet|].
      destruct (negb (mapHas m0 kx)); [now apply NoDup_mapSet|exact Hnd]. }
    assert (Hm1 : forall k v, objGet m1 k = Some v ->
              objGet m0 k = Some v \/ v = x /\ k = kx).
    { intros k v. unfold m1.
      destruct (isTemplate x); [|destruct (negb (mapHas m0 kx))]; try tauto;
        rewrite objGet_mapSet; case_decide; try tauto; intros [= <-]; auto. }
    assert (Hkeep : forall k, is_Some (objGet m0 k) -> is_Some (objGet m1 k)).
    { intros k Hk. unfold m1.
      destruct (isTemplate x); [|destruct (negb (mapHas m0 kx))]; try exact Hk;
        rewrite objGet_mapSet; case_decide; eauto. }
    assert (Hx : is_Some (objGet m1 kx)).
    { unfold m1. destruct (isTemplate x); [rewrite objGet_mapSet_eq; eauto|].
      unfold mapHas. destruct (objGet m0 kx) eqn:E; simpl; [rewrite E; eauto|].
      rewrite objGet_mapSet_eq. eauto. }
    destruct (IH m1 H Hnd1) as (H1 & H2 & H3 & H4).
    split; [exact H1|]. split; [|split].
    + intros k v Hkv. destruct (H2 k v Hkv) as [Hv|Hv]; [|tauto].
      destruct (Hm1 k v Hv) as [?|[-> ->]]; [tauto|]. right. auto.
    + intros k Hk. apply H3, Hkeep, Hk.
    + intros y [<-|Hy]; [|now apply H4]. exists kx. split; [exact Ex|]. now apply H3.
Qed.

Lemma filter_length_split {A : Type} (f : A -> bool) (l : list A) :
  length (List.filter f l) + length (List.filter (fun x => negb (f x)) l) = length l.
Proof.
  induction l as [|x l IH]; simpl; [reflexivity|].
  destruct (f x); simpl; lia.
Qed.

Lemma mapValues_In {A : Type} (m : list (string * A)) (v : A) :
  In v (mapValues m) <-> exists k, In (k, v) m.
Proof.
  unfold mapValues. rewrite in_map_iff. split.
  - intros ([k v'] & <- & H). now exists k.
  - intros (k & H). now exists (k, v).
Qed.

(** The intermediate values behind a report. *)
Lemma generateCoverageReport_parts newRegExp (specEndpoints hitEndpoints : list string)
    (allServerErrors : list (string * IServerErrorRecord))
    (patterns : list IEndpointPattern) (report : ICoverageReport) :
  generateCoverageReport newRegExp specEndpoints hitEndpoints allServerErrors patterns
  = Some report ->
  exists structures additional extra byStructure,
    specStructuresFrom ∅ specEndpoints = Some structures /\
    classifyHits specEndpoints structures
      (normalizedHitsOf newRegExp hitEndpoints patterns) = Some (additional, extra) /\
    extraByStructureFrom [] extra = Some byStructure /\
    endpoints_tested report
    = uniq (List.filter (setHas (normalizedHitsOf newRegExp hitEndpoints patterns))
              specEndpoints ++ additional) /\
    endpoints_untested report
    = List.filter (fun e => negb (setHas (endpoints_tested report) e)) specEndpoints /\
    extraEndpoints report = mapValues byStructure /\
    totalEndpoints (summary report) = length specEndpoints /\
    testedEndpoints (summary report) = length (endpoints_tested report) /\
    untestedEndpoints (summary report) = length (endpoints_untested report).
Proof.
  unfold generateCoverageReport.
  fold (normalizedHitsOf newRegExp hitEndpoints patterns).
  destruct (specStructuresFrom ∅ specEndpoints) as [structures|] eqn:Hs;
    [|discriminate].
  destruct (classifyHits specEndpoints structures
              (normalizedHitsOf newRegExp hitEndpoints patterns))
    as [[additional extra]|] eqn:Hc; [|discriminate].
  destruct (extraByStructureFrom [] extra) as [byStructure|] eqn:He; [|discriminate].
  destruct (generateServerErrorStats allServerErrors) as [stats|]; [|discriminate].
  intros [= <-]. exists structures, additional, extra, byStructure. simpl.
  split; [reflexivity|]. split; [exact Hc|]. split; [exact He|].
  repeat (split; [reflexivity|]). reflexivity.
Qed.

Lemma tested_untested_lengths (specEndpoints tested : list string) :
  List.NoDup tested ->
  (forall e, In e tested -> In e specEndpoints) ->
  length tested
  + length (List.filter (fun e => negb (setHas tested e)) specEndpoints)
  <= length specEndpoints /\
  (List.NoDup specEndpoints ->
   length tested
   + length (List.filter (fun e => negb (setHas tested e)) specEndpoints)
   = length specEndpoints).
Proof.
  intros Hnd Hsub.
  assert (Hincl : incl tested (List.filter (setHas tested) specEndpoints)).
  { intros e He. apply filter_In. split; [now apply Hsub|now apply setHas_In]. }
  pose proof (filter_length_split (setHas tested) specEndpoints) as Hlen.
  pose proof (NoDup_incl_length Hnd Hincl) as Hle.
  split; [lia|]. intros Hspec.
  assert (length (List.filter (setHas tested) specEndpoints) <= length tested).
  { apply NoDup_incl_length; [now apply List.NoDup_filter|].
    intros e He. apply filter_In in He. now apply setHas_In. }
  lia.
Qed.

Lemma report_tested_in_spec newRegExp
    (specEndpoints hitEndpoints : list string)
    (allServerErrors : list (string * IServerErrorRecord))
    (patterns : list IEndpointPattern) (report : ICoverageReport) :
  generateCoverageReport newRegExp specEndpoints hitEndpoints allServerErrors patterns
  = Some report ->
  List.NoDup (endpoints_tested report) /\
  (forall e, In e (endpoints_tested report) -> In e specEndpoints).
Proof.
  intros H.
  destruct (generateCoverageReport_parts _ _ _ _ _ _ H)
    as (structures & additional & extra & byStructure & Hs & Hc & _ & Ht & _).
  split; [rewrite Ht; apply NoDup_uniq|].
  intros e. rewrite Ht, In_uniq, in_app_iff, filter_In.
  intros [[He _]|He]; [exact He|].
  destruct (classifyHits_spec _ _ _ _ _ Hc) as [Hadd _].
  destruct (Hadd e He) as (h & k & _ & _ & _ & Hk).
  destruct (specStructuresFrom_lookup _ _ _ Hs) as [Hl _].
  destruct (Hl k e Hk) as [Hin|Hin]; [exact Hin|].
  now rewrite lookup_empty in Hin.
Qed.

(** X12: the tested and the untested endpoints of a report partition the
    spec.  In every report, the tested endpoints are spec endpoints, each
    listed once; the untested endpoints are the spec endpoints that are
    not tested; so the two counts of the summary add up to at most the
    total, and to the total when the spec endpoints are distinct (as those
    of [extractEndpointsFromSpec] are). *)
Theorem generateCoverageReport_partition newRegExp
    (specEndpoints hitEndpoints : list string)
    (allServerErrors : list (string * IServerErrorRecord))
    (patterns : list IEndpointPattern) (report : ICoverageReport) :
  generateCoverageReport newRegExp specEndpoints hitEndpoints allServerErrors patterns
  = Some report ->
  List.NoDup (endpoints_tested report) /\
  (forall e, In e (endpoints_tested report) -> In e specEndpoints) /\
  (forall e, In e (endpoints_untested report) <->
     In e specEndpoints /\ ~ In e (endpoints_tested report)) /\
  testedEndpoints (summary report) + untestedEndpoints (summary report)
  <= totalEndpoints (summary report) /\
  (List.NoDup specEndpoints ->
   testedEndpoints (summary report) + untestedEndpoints (summary report)
   = totalEndpoints (summary report)).
Proof.
  intros H.
  destruct (report_tested_in_spec _ _ _ _ _ _ H) as [Hnd Hsub].
  destruct (generateCoverageReport_parts _ _ _ _ _ _ H)
    as (_ & _ & _ & _ & _ & _ & _ & _ & Hu & _ & Htotal & Htested & Huntested).
  split; [exact Hnd|]. split; [exact Hsub|]. split.
  - intros e. rewrite Hu at 1. rewrite filter_In, negb_true_iff.
    pose proof (setHas_In (endpoints_tested report) e) as Hiff.
    destruct (setHas (endpoints_tested report) e).
    + split; [intros [_ [=]]|]. intros [_ Hn]. exfalso. apply Hn. now apply Hiff.
    + split; [|tauto]. intros [He _]. split; [exact He|].
      intros Hin. apply Hiff in Hin. discriminate.
  - rewrite Htotal, Htested, Huntested, Hu.
    exact (tested_untested_lengths specEndpoints _ Hnd Hsub).
Qed.

Lemma generateCoverageReport_partition_witness :
  exists report,
    generateCoverageReport sampleEngine
      ["GET /users"; "POST /users"; "GET /users/{id}"]
      ["GET /users/{userId}"; "PATCH /x"] [] sampleEndpointPatterns = Some report /\
    testedEndpoints (summary report) + untestedEndpoints (summary report)
    = totalEndpoints (summary report).
Proof.
  destruct (generateCoverageReport sampleEngine
              ["GET /users"; "POST /users"; "GET /users/{id}"]
              ["GET /users/{userId}"; "PATCH /x"] [] sampleEndpointPatterns)
    as [report|] eqn:E; [|vm_compute in E; discriminate].
  exists report. split; [reflexivity|].
  apply (generateCoverageReport_partition _ _ _ _ _ _ E).
  repeat constructor; simpl; intuition discriminate.
Defined.

(** X13: every hit is accounted for in a report, and the extra endpoints
    are outside the spec.  An extra endpoint of a report is a normalised
    hit that is no spec endpoint and whose structure key (the key with
    every parameter replaced) is the key of no spec endpoint, and no two
    extra endpoints have the same structure key.  Conversely every
    normalised hit is a tested spec endpoint, or has the structure key of
    a tested spec endpoint, or has the structure key of an extra
    endpoint. *)
Theorem generateCoverageReport_accounts_for_hits newRegExp
    (specEndpoints hitEndpoints : list string)
    (allServerErrors : list (string * IServerErrorRecord))
    (patterns : list IEndpointPattern) (report : ICoverageReport) :
  generateCoverageReport newRegExp specEndpoints hitEndpoints allServerErrors patterns
  = Some report ->
  (forall x, In x (extraEndpoints report) ->
     In x (normalizedHitsOf newRegExp hitEndpoints patterns) /\
     ~ In x specEndpoints /\
     is_Some (structureKeyOf x) /\
     forall s, In s specEndpoints -> structureKeyOf s <> structureKeyOf x) /\
  List.NoDup (map structureKeyOf (extraEndpoints report)) /\
  (forall h, In h (normalizedHitsOf newRegExp hitEndpoints patterns) ->
     In h (endpoints_tested report) \/
     (exists s, In s (endpoints_tested report) /\
        structureKeyOf s = structureKeyOf h) \/
     (exists x, In x (extraEndpoints report) /\
        structureKeyOf x = structureKeyOf h)).
Proof.
  intros H.
  destruct (generateCoverageReport_parts _ _ _ _ _ _ H)
    as (structures & additional & extra & byStructure
        & Hs & Hc & He & Ht & _ & Hx & _).
  destruct (classifyHits_spec _ _ _ _ _ Hc) as (Hadd & Hextra & Hall).
  destruct (specStructuresFrom_lookup _ _ _ Hs) as [Hval Hnone].
  destruct (extraByStructureFrom_spec _ _ _ He) as (Hnd & Hby & _ & Hrep);
    [constructor|].
  assert (Hkeyed : structuresKeyed structures).
  { apply (specStructuresFrom_keyed _ _ _ Hs). intros k e Hk.
    now rewrite lookup_empty in Hk. }
  assert (Hvals : forall k v, In (k, v) byStructure ->
            In v extra /\ structureKeyOf v = Some k).
  { intros k v Hin. apply (In_objGet _ _ _ Hnd) in Hin.
    destruct (Hby k v Hin) as [Hv|Hv]; [discriminate|exact Hv]. }
  split; [|split].
  - intros x Hin. rewrite Hx in Hin. apply mapValues_In in Hin.
    destruct Hin as (k & Hin). destruct (Hvals k x Hin) as [Hxe Hxk].
    apply Hextra in Hxe. destruct Hxe as (Hh & Hn & k' & Hk' & Hm).
    split; [exact Hh|]. split; [exact Hn|]. split; [eauto|].
    intros s Hs' Heq. rewrite Hk' in Heq.
    apply Hnone in Hm. destruct Hm as [_ Hm]. now apply (Hm s Hs').
  - rewrite Hx. unfold mapValues. rewrite map_map.
    rewrite (map_ext_in _ (fun kv => Some (fst kv))).
    + rewrite <- (map_map fst Some). apply Finite.Injective_map_NoDup; [|exact Hnd].
      intros a b [= ->]. reflexivity.
    + intros [k v] Hin. simpl. now apply Hvals.
  - intros h Hh. destruct (in_dec string_dec h specEndpoints) as [Hin|Hn].
    + left. rewrite Ht, In_uniq, in_app_iff, filter_In. left.
      split; [exact Hin|now apply setHas_In].
    + destruct (Hall h Hh Hn) as (k & Hk & Hcase).
      destruct (structures !! k) as [s|] eqn:Em.
      * right. left. exists s. split.
        -- rewrite Ht, In_uniq, in_app_iff. right. apply Hcase.
           apply truthy_true. intros ->.
           specialize (Hkeyed k "" Em). discriminate.
        -- rewrite Hk. now apply Hkeyed.
      * right. right. destruct (Hrep h Hcase) as (k' & Hk' & [v Hv]).
        exists v. split.
        -- rewrite Hx. apply mapValues_In. exists k'. now apply objGet_In.
        -- destruct (Hby k' v Hv) as [Hv'|[_ Hv']]; [discriminate|]. congruence.
Qed.

Lemma generateCoverageReport_accounts_for_hits_witness :
  exists report,
    generateCoverageReport sampleEngine
      ["GET /users"; "POST /users"; "GET /users/{id}"]
      ["GET /users/{userId}"; "PATCH /x"] [] sampleEndpointPatterns = Some report /\
    List.NoDup (map structureKeyOf (extraEndpoints report)).
Proof.
  destruct (generateCoverageReport sampleEngine
              ["GET /users"; "POST /users"; "GET /users/{id}"]
              ["GET /users/{userId}"; "PATCH /x"] [] sampleEndpointPatterns)
    as [report|] eqn:E; [|vm_compute in E; discriminate].
  exists report. split; [reflexivity|].
  apply (generateCoverageReport_accounts_for_hits _ _ _ _ _ _ E).
Defined.

(** ** [generateMethodCoverage]: the counters *)

Lemma fold_countEndpoint_counts (tested specEndpoints : list string)
    (mc : gmap string IMethodCoverage) (m : string) (c : IMethodCoverage) :
  mc !! m = Some c ->
  exists c',
    fold_left (countEndpoint tested) specEndpoints mc !! m = Some c' /\
    mc_total c'
    = mc_total c
      + length (List.filter (fun e => String.eqb (methodOf e) m) specEndpoints) /\
    mc_tested c'
    = mc_tested c
      + length (List.filter (fun e => String.eqb (methodOf e) m && setHas tested e)
                  specEndpoints).
Proof.
  revert mc c. induction specEndpoints as [|e l IH]; intros mc c Hm; simpl.
  - exists c. split; [exact Hm|]. lia.
  - unfold countEndpoint at 2.
    destruct (String.eqb_spec (methodOf e) m) as [He|He].
    + rewrite He, Hm.
      destruct (IH (<[m := {| mc_total := mc_total c + 1;
                             mc_tested := if setHas tested e
                                          then mc_tested c + 1 else mc_tested c;
                             mc_percentage := mc_percentage c |}]> mc) _
                  (lookup_insert_eq _ _ _)) as (c' & Hc' & Ht & Hs).
      exists c'. split; [exact Hc'|]. simpl in Ht, Hs. simpl.
      destruct (setHas tested e); simpl; lia.
    + destruct (mc !! methodOf e) as [ce|] eqn:Ee.
      * destruct (IH (<[methodOf e := {| mc_total := mc_total ce + 1;
                                        mc_tested := if setHas tested e
                                                     then mc_tested ce + 1
                                                     else mc_tested ce;
                                        mc_percentage := mc_percentage ce |}]> mc) c)
          as (c' & Hc' & Ht & Hs).
        { rewrite lookup_insert_ne by exact He. exact Hm. }
        exists c'. split; [exact Hc'|]. simpl. lia.
      * destruct (IH mc c Hm) as (c' & Hc' & Ht & Hs).
        exists c'. split; [exact Hc'|]. simpl. lia.
Qed.

Lemma filter_length_le_and {A : Type} (f g : A -> bool) (l : list A) :
  length (List.filter (fun x => f x && g x) l) <= length (List.filter f l).
Proof.
  induction l as [|x l IH]; simpl; [lia|].
  destruct (f x), (g x); simpl; lia.
Qed.

(** X14: the method counters count.  For each of the seven standard
    methods, [generateMethodCoverage] reports as total the number of spec
    endpoints whose key starts with that method, and as tested the number
    of those that are in the tested list; tested never exceeds total.  A
    spec endpoint of another method (TRACE, which
    [extractEndpointsFromSpec] does extract) is in no counter. *)
Theorem generateMethodCoverage_counts (specEndpoints tested : list string)
    (m : string) :
  In m standardMethods ->
  exists c,
    generateMethodCoverage specEndpoints tested !! m = Some c /\
    mc_total c
    = length (List.filter (fun e => String.eqb (methodOf e) m) specEndpoints) /\
    mc_tested c
    = length (List.filter (fun e => String.eqb (methodOf e) m && setHas tested e)
                specEndpoints) /\
    mc_tested c <= mc_total c /\
    generateMethodCoverage specEndpoints tested !! "TRACE" = None.
Proof.
  intros Hm. unfold generateMethodCoverage.
  destruct (fold_countEndpoint_counts tested specEndpoints initialMethodCoverage m _
              (initialMethodCoverage_standard m Hm)) as (c & Hc & Ht & Hs).
  simpl in Ht, Hs.
  assert (Hp : mc_percentage c = 0%float).
  { apply (fold_countEndpoint_percentage tested specEndpoints initialMethodCoverage)
      with (m := m); [|exact Hc].
    intros m' c' H'. now rewrite (initialMethodCoverage_lookup m' c' H'). }
  destruct (withPercentage_spec c Hp) as (Ht' & Hs' & _).
  exists (withPercentage c). rewrite lookup_fmap, Hc. split; [reflexivity|].
  rewrite Ht', Hs', Ht, Hs. split; [reflexivity|]. split; [reflexivity|].
  split; [apply filter_length_le_and|].
  rewrite lookup_fmap.
  assert (Hd : fold_left (countEndpoint tested) specEndpoints initialMethodCoverage
               !! "TRACE" = None).
  { apply not_elem_of_dom. rewrite fold_countEndpoint_dom.
    apply not_elem_of_dom. reflexivity. }
  now rewrite Hd.
Qed.

Lemma generateMethodCoverage_counts_witness :
  exists c,
    generateMethodCoverage
      ["GET /users"; "POST /users"; "GET /users/{id}"; "TRACE /users"]
      ["GET /users/{id}"] !! "GET" = Some c /\
    mc_total c = 2 /\ mc_tested c = 1.
Proof.
  destruct (generateMethodCoverage_counts
              ["GET /users"; "POST /users"; "GET /users/{id}"; "TRACE /users"]
              ["GET /users/{id}"] "GET") as (c & Hc & Ht & Hs & _).
  - left. reflexivity.
  - exists c. split; [exact Hc|]. split; [exact Ht|exact Hs].
Defined.

(** ** [generateServerErrorStats]: nothing is lost in the groups *)

Lemma sumOver_app (f : IServerErrorRecord -> Z) (a b : list IServerErrorRecord) :
  sumOver f (a ++ b) = (sumOver f a + sumOver f b)%Z.
Proof.
  induction a as [|r a IH]; simpl; [reflexivity|]. rewrite IH. lia.
Qed.

Lemma groupsTotal_mapSet (f : IServerErrorRecord -> Z)
    (groups : list (string * ErrorGroup)) (k : string) (g : ErrorGroup) :
  groupsTotal f (mapSet groups k g)
  = (groupsTotal f groups
     - match objGet groups k with
       | Some old => sumOver f (group_records old)
       | None => 0
       end
     + sumOver f (group_records g))%Z.
Proof.
  induction groups as [|[k' g'] groups IH]; simpl; [lia|].
  destruct (String.eqb k' k); simpl; [lia|]. rewrite IH. lia.
Qed.

Lemma groupErrorsFrom_total (f : IServerErrorRecord -> Z)
    (entries : list (string * IServerErrorRecord))
    (groups0 groups : list (string * ErrorGroup)) :
  groupErrorsFrom groups0 entries = Some groups ->
  groupsTotal f groups = (groupsTotal f groups0 + sumOver f (map snd entries))%Z.
Proof.
  revert groups0. induction entries as [|[e r] entries IH]; intros groups0; simpl.
  - intros [= <-]. lia.
  - destruct (errorStructureKey e) as [key|]; [|discriminate].
    intros H. rewrite (IH _ H). unfold groupErrorStep.
    rewrite groupsTotal_mapSet. simpl. rewrite sumOver_app. simpl.
    destruct (objGet groups0 key); simpl; lia.
Qed.

Lemma fold_mapSet_fresh {X A : Type} (f : X -> string) (h : X -> A)
    (l : list X) (acc : list (string * A)) :
  List.NoDup (map fst acc ++ map f l) ->
  fold_left (fun m x => mapSet m (f x) (h x)) l acc
  = acc ++ map (fun x => (f x, h x)) l.
Proof.
  intros Hnd.
  rewrite <- (copy_entries (map (fun x => (f x, h x)) l) acc).
  - clear. revert acc. induction l as [|x l IH]; intros acc; simpl; [reflexivity|].
    apply IH.
  - rewrite map_app, map_map. simpl. exact Hnd.
Qed.

Lemma targets_NoDup (groups : list (string * ErrorGroup))
    (processed : list (string * IServerErrorRecord)) :
  groupsOf groups processed ->
  List.NoDup (map (fun kg => targetEndpointOf (snd kg)) groups).
Proof.
  intros Hinv. apply (List.NoDup_map_inv errorStructureKey). rewrite map_map.
  rewrite (map_ext_in _ (fun kg => Some (fst kg))).
  - rewrite <- (map_map fst Some). apply Finite.Injective_map_NoDup.
    + intros a b [= ->]. reflexivity.
    + apply Hinv.
  - intros [k' g'] Hin'. simpl. now apply (targetEndpointOf_key groups processed).
Qed.

Lemma normalizedErrorsOf_map (groups : list (string * ErrorGroup))
    (processed : list (string * IServerErrorRecord)) :
  groupsOf groups processed ->
  normalizedErrorsOf groups
  = map (fun kg => (targetEndpointOf (snd kg), mergedRecordOf (snd kg))) groups.
Proof.
  intros Hinv. unfold normalizedErrorsOf.
  rewrite (fold_mapSet_fresh (fun kg => targetEndpointOf (snd kg))
             (fun kg => mergedRecordOf (snd kg)) groups []); [reflexivity|].
  simpl. now apply (targets_NoDup groups processed).
Qed.

Lemma fold_left_count (records : list IServerErrorRecord) (acc : Z) :
  fold_left (fun sum r => (sum + err_count r)%Z) records acc
  = (acc + sumOver err_count records)%Z.
Proof.
  revert acc. induction records as [|r l IH]; intros acc; simpl; [lia|].
  rewrite IH. lia.
Qed.

Lemma fold_left_codes (records : list IServerErrorRecord) (acc : gmap string Z)
    (status : string) :
  codeCount (fold_left (fun counts r => mergeStatusCodes counts (err_statusCodes r))
               records acc) status
  = (codeCount acc status
     + sumOver (fun r => codeCount (err_statusCodes r) status) records)%Z.
Proof.
  revert acc. induction records as [|r l IH]; intros acc; simpl; [lia|].
  rewrite IH, codeCount_mergeStatusCodes. lia.
Qed.

Lemma sumOver_merged (f g : IServerErrorRecord -> Z)
    (groups : list (string * ErrorGroup)) :
  (forall group, f (mergedRecordOf group) = sumOver g (group_records group)) ->
  sumOver f (map (fun kg => mergedRecordOf (snd kg)) groups) = groupsTotal g groups.
Proof.
  intros H. induction groups as [|[k gr] groups IH]; simpl; [reflexivity|].
  now rewrite IH, H.
Qed.



(** ** [extractEndpointsFromSpec] *)

Lemma In_endpointsOfItem (pathKey : string) (pathItem : IPathItem) (e : string) :
  In e (endpointsOfItem pathKey pathItem) <->
  exists key,
    In key (map fst (item_operations pathItem)) /\
    setHas operationKeys (toLowerCase key) = true /\
    e = toUpperCase key +:+ " " +:+ pathKey.
Proof.
  unfold endpointsOfItem. rewrite in_map_iff. split.
  - intros (key & <- & Hk). apply filter_In in Hk. exists key. tauto.
  - intros (key & Hk & Hop & ->). exists key. split; [reflexivity|].
    apply filter_In. auto.
Qed.

Lemma fold_extract_spec (entries : list (string * option IPathItem))
    (acc : list string) :
  let result :=
    fold_left
      (fun specEndpoints entry =>
         match snd entry with
         | None => specEndpoints
         | Some pathItem =>
             fold_left setAdd (endpointsOfItem (fst entry) pathItem) specEndpoints
         end) entries acc in
  (List.NoDup acc -> List.NoDup result) /\
  forall e, In e result <->
    In e acc \/
    exists pathKey pathItem,
      In (pathKey, Some pathItem) entries /\
      In e (endpointsOfItem pathKey pathItem).
Proof.
  revert acc. induction entries as [|[pathKey item] entries IH]; intros acc; simpl.
  - split; [tauto|]. intros e. split; [tauto|].
    intros [H|(? & ? & [] & _)]. exact H.
  - destruct item as [pathItem|]; simpl.
    + destruct (IH (fold_left setAdd (endpointsOfItem pathKey pathItem) acc))
        as [H1 H2].
      split; [intros Hnd; apply H1; now apply NoDup_fold_setAdd|].
      intros e. rewrite H2, In_fold_setAdd. split.
      * intros [[H|H]|(k & it & Hin & He)]; [tauto| |].
        -- right. exists pathKey, pathItem. auto.
        -- right. exists k, it. auto.
      * intros [H|(k & it & [[= -> ->]|Hin] & He)]; [tauto|tauto|].
        right. exists k, it. auto.
    + destruct (IH acc) as [H1 H2]. split; [exact H1|].
      intros e. rewrite H2. split.
      * intros [H|(k & it & Hin & He)]; [tauto|]. right. exists k, it. auto.
      * intros [H|(k & it & [[=]|Hin] & He)]; [tauto|]. right. exists k, it. auto.
Qed.

Lemma extractEndpointsFromSpec_spec (apiSpec : option IOpenAPIDocument) :
  List.NoDup (extractEndpointsFromSpec apiSpec) /\
  forall e, In e (extractEndpointsFromSpec apiSpec) <->
    exists doc entries pathKey pathItem key,
      apiSpec = Some doc /\ paths doc = Some entries /\
      In (pathKey, Some pathItem) entries /\
      In key (map fst (item_operations pathItem)) /\
      setHas operationKeys (toLowerCase key) = true /\
      e = toUpperCase key +:+ " " +:+ pathKey.
Proof.
  unfold extractEndpointsFromSpec.
  destruct apiSpec as [doc|].
  - destruct (paths doc) as [entries|] eqn:Ep.
    + destruct (fold_extract_spec entries []) as [H1 H2].
      split; [apply H1; constructor|].
      intros e. rewrite H2. split.
      * intros [[]|(pathKey & pathItem & Hin & He)].
        apply In_endpointsOfItem in He. destruct He as (key & Hk & Hop & ->).
        exists doc, entries, pathKey, pathItem, key. auto 10.
      * intros (doc' & entries' & pathKey & pathItem & key
                & [= <-] & Hp & Hin & Hk & Hop & ->).
        rewrite Ep in Hp. injection Hp as <-.
        right. exists pathKey, pathItem. split; [exact Hin|].
        apply In_endpointsOfItem. exists key. auto.
    + split; [constructor|]. intros e. split; [intros []|].
      intros (doc' & entries' & ? & ? & ? & [= <-] & Hp & _). congruence.
  - split; [constructor|]. intros e. split; [intros []|].
    intros (doc' & ? & ? & ? & ? & [=] & _).
Qed.

(** X16: the endpoints extracted from a spec.  [extractEndpointsFromSpec]
    returns, without duplicates, exactly the keys [METHOD path] for the
    paths of the spec with a path item and the keys of that item that
    name one of the eight operations, whatever their case; each has its
    two parts.  So in every report over these endpoints the tested and the
    untested counts add up to the total. *)
Theorem extractEndpointsFromSpec_endpoints (apiSpec : option IOpenAPIDocument) :
  List.NoDup (extractEndpointsFromSpec apiSpec) /\
  (forall e, In e (extractEndpointsFromSpec apiSpec) <->
     exists doc entries pathKey pathItem key,
       apiSpec = Some doc /\ paths doc = Some entries /\
       In (pathKey, Some pathItem) entries /\
       In key (map fst (item_operations pathItem)) /\
       setHas operationKeys (toLowerCase key) = true /\
       e = toUpperCase key +:+ " " +:+ pathKey) /\
  Forall hasPath (extractEndpointsFromSpec apiSpec) /\
  (forall newRegExp hitEndpoints allServerErrors patterns report,
     generateCoverageReport newRegExp (extractEndpointsFromSpec apiSpec)
       hitEndpoints allServerErrors patterns = Some report ->
     testedEndpoints (summary report) + untestedEndpoints (summary report)
     = totalEndpoints (summary report)).
Proof.
  destruct (extractEndpointsFromSpec_spec apiSpec) as [Hnd Hin].
  split; [exact Hnd|]. split; [exact Hin|]. split.
  - apply List.Forall_forall. intros e He. apply Hin in He.
    destruct He as (? & ? & pathKey & ? & key & _ & _ & _ & _ & _ & ->).
    apply pathOf_defined.
  - intros newRegExp hitEndpoints allServerErrors patterns report H.
    destruct (report_tested_in_spec _ _ _ _ _ _ H) as [Hndt Hsub].
    destruct (generateCoverageReport_parts _ _ _ _ _ _ H)
      as (_ & _ & _ & _ & _ & _ & _ & _ & Hu & _ & Htotal & Htested & Huntested).
    rewrite Htotal, Htested, Huntested, Hu.
    now apply (tested_untested_lengths _ _ Hndt Hsub).
Qed.

(** ** [generateCoverageReport]: when it throws *)

Lemma specStructuresFrom_hasPath (specEndpoints : list string)
    (m0 m : gmap string string) :
  specStructuresFrom m0 specEndpoints = Some m ->
  forall s, In s specEndpoints -> hasPath s.
Proof.
  revert m0. induction specEndpoints as [|x l IH]; intros m0; simpl; [intros _ ? []|].
  destruct (structureKeyOf x) as [kx|] eqn:Ex; [|discriminate].
  intros H s [<-|Hs]; [|now apply (IH _ H)].
  unfold structureKeyOf in Ex. unfold hasPath.
  destruct (pathOf x); [eauto|discriminate].
Qed.

Lemma classifyHits_hasPath (specEndpoints : list string)
    (m : gmap string string) (hits additional extra : list string) :
  classifyHits specEndpoints m hits = Some (additional, extra) ->
  forall h, In h hits -> In h specEndpoints \/ hasPath h.
Proof.
  intros H h Hh. destruct (in_dec string_dec h specEndpoints) as [Hin|Hn]; [now left|].
  right. destruct (classifyHits_spec _ _ _ _ _ H) as (_ & _ & Hall).
  destruct (Hall h Hh Hn) as (k & Hk & _).
  unfold structureKeyOf in Hk. unfold hasPath.
  destruct (pathOf h); [eauto|discriminate].
Qed.

Lemma groupErrorsFrom_hasPath (entries : list (string * IServerErrorRecord))
    (groups0 groups : list (string * ErrorGroup)) :
  groupErrorsFrom groups0 entries = Some groups ->
  forall e, In e (map fst entries) -> hasPath e.
Proof.
  revert groups0. induction entries as [|[e r] entries IH]; intros groups0; simpl;
    [intros _ ? []|].
  destruct (errorStructureKey e) as [key|] eqn:Ek; [|discriminate].
  intros H x [<-|Hx]; [|now apply (IH _ H)].
  unfold errorStructureKey in Ek. unfold hasPath.
  destruct (pathOf e); [eauto|discriminate].
Qed.

(** X17: when a report is produced.  [generateCoverageReport] returns a
    report exactly when every spec endpoint, every normalised hit and
    every key of the error map has its two parts, [METHOD path]; for any
    other input one of its [path.replace] calls throws a TypeError, which
    the function does not catch. *)
Theorem generateCoverageReport_defined_iff newRegExp
    (specEndpoints hitEndpoints : list string)
    (allServerErrors : list (string * IServerErrorRecord))
    (patterns : list IEndpointPattern) :
  is_Some (generateCoverageReport newRegExp specEndpoints hitEndpoints
             allServerErrors patterns) <->
  Forall hasPath specEndpoints /\
  Forall hasPath (normalizedHitsOf newRegExp hitEndpoints patterns) /\
  Forall (fun e => hasPath (fst e)) allServerErrors.
Proof.
  split.
  - intros [report H].
    destruct (generateCoverageReport_parts _ _ _ _ _ _ H)
      as (structures & additional & extra & byStructure & Hs & Hc & _).
    assert (Hspec : forall s, In s specEndpoints -> hasPath s)
      by exact (specStructuresFrom_hasPath _ _ _ Hs).
    split; [now apply List.Forall_forall|]. split.
    + apply List.Forall_forall. intros h Hh.
      destruct (classifyHits_hasPath _ _ _ _ _ Hc h Hh); auto.
    + unfold generateCoverageReport in H.
      destruct (specStructuresFrom ∅ specEndpoints); [|discriminate].
      destruct (classifyHits _ _ _) as [[? ?]|]; [|discriminate].
      destruct (extraByStructureFrom [] _); [|discriminate].
      destruct (generateServerErrorStats allServerErrors) as [stats|] eqn:Est;
        [|discriminate].
      unfold generateServerErrorStats, normalizedErrors in Est.
      destruct (groupErrors allServerErrors) as [groups|] eqn:Eg; [|discriminate].
      apply List.Forall_forall. intros [e r] Hin.
      apply (groupErrorsFrom_hasPath _ _ _ Eg). apply (in_map fst _ _ Hin).
  - intros (Hspec & Hhits & Herr). unfold generateCoverageReport.
    fold (normalizedHitsOf newRegExp hitEndpoints patterns).
    destruct (specStructuresFrom_defined specEndpoints ∅ Hspec) as [structures ->].
    destruct (classifyHits_defined specEndpoints structures _ Hhits)
      as (additional & extra & -> & Hextra).
    destruct (extraByStructureFrom_defined extra [] Hextra) as [byStructure ->].
    destruct (generateServerErrorStats_defined allServerErrors Herr) as [stats ->].
    eauto.
Qed.

(** ** The two structural matchers *)

Lemma segmentsMatch_Forall2 (specSegments pathSegments : list string) :
  length pathSegments = length specSegments ->
  (segmentsMatch specSegments pathSegments = true <->
   Forall2 segmentFits specSegments pathSegments).
Proof.
  revert pathSegments. induction specSegments as [|t ts IH];
    intros [|s segs]; simpl; try discriminate.
  - intros _. split; [constructor|reflexivity].
  - intros [= Hlen]. unfold segmentFits at 1.
    destruct (isParamSegment t) eqn:Et.
    + rewrite (IH segs Hlen). split.
      * intros H. constructor; [now left|exact H].
      * intros H. now inversion H.
    + destruct (String.eqb_spec t s) as [->|Hne].
      * rewrite (IH segs Hlen). split.
        -- intros H. constructor; [now right|exact H].
        -- intros H. now inversion H.
      * split; [discriminate|]. intros H. inversion H as [|? ? ? ? [Hp|Hp]]; subst.
        -- unfold segmentFits in *. congruence.
        -- contradiction.
Qed.

Lemma structuralMatch_Forall2 (t : string) (segs : list string) :
  structuralMatch t segs = true <-> Forall2 segmentFits (segments t) segs.
Proof.
  unfold structuralMatch. destruct (Nat.eqb_spec (length segs) (length (segments t)))
    as [Hlen|Hlen].
  - now apply segmentsMatch_Forall2.
  - split; [discriminate|]. intros H. apply Forall2_length in H. congruence.
Qed.

Lemma templateSegmentsMatch_segmentsMatch (templateSegments concreteSegments : list string) :
  templateSegmentsMatch templateSegments concreteSegments
  = segmentsMatch templateSegments concreteSegments.
Proof.
  revert concreteSegments. induction templateSegments as [|t ts IH];
    intros concreteSegments; simpl; [reflexivity|].
  destruct (isParamSegment t).
  - destruct concreteSegments as [|c cs]; simpl; [apply IH|].
    destruct (isObjectId c); apply IH.
  - destruct concreteSegments as [|c cs]; [reflexivity|].
    destruct (String.eqb t c); [apply IH|reflexivity].
Qed.

(** X18: the two structural matchers of the code agree.  The structural
    match of [normalizePath] accepts a template for a path exactly when
    the two have the same number of non-empty segments and every segment
    of the template is a parameter [{...}] or equals the segment of the
    path at its place; and [endpointMatchesTemplate], on two keys of the
    same method, answers what that match answers on their paths. *)
Theorem structural_matchers_agree :
  (forall (t : string) (segs : list string),
     structuralMatch t segs = true <-> Forall2 segmentFits (segments t) segs) /\
  (forall c t pc pt : string,
     methodOf c = methodOf t -> pathOf c = Some pc -> pathOf t = Some pt ->
     endpointMatchesTemplate c t = Some (structuralMatch pt (segments pc))).
Proof.
  split; [exact structuralMatch_Forall2|].
  intros c t pc pt Hm Hc Ht. unfold endpointMatchesTemplate, structuralMatch.
  rewrite Hm, String.eqb_refl, Hc, Ht. simpl.
  destruct (Nat.eqb (length (segments pc)) (length (segments pt))); simpl;
    [|reflexivity].
  now rewrite templateSegmentsMatch_segmentsMatch.
Qed.

(** ** [normalizePath] without patterns *)

Lemma findStructural_None (entries : list (string * option IPathItem))
    (segs : list string) :
  findStructural entries segs = None ->
  forall t item, In (t, Some item) entries -> structuralMatch t segs = false.
Proof.
  induction entries as [|[k it] entries IH]; simpl; [intros _ ? ? []|].
  destruct it as [item0|].
  - destruct (structuralMatch k segs) eqn:E; [discriminate|].
    intros H t item [[= <- <-]|Hin]; [exact E|now apply (IH H t item)].
  - intros H t item [[=]|Hin]. now apply (IH H t item).
Qed.

Lemma specHasPath_false_None (apiSpec : option IOpenAPIDocument) (x : string) :
  specResult x apiSpec = None ->
  forall t, declaredPath apiSpec t -> structuralMatch t (segments x) = false.
Proof.
  unfold specResult. destruct (specHasPath apiSpec x); [discriminate|].
  intros H t (doc & entries & item & -> & Hp & Hin). rewrite Hp in H.
  now apply (findStructural_None entries _ H t item).
Qed.

(** X19: what [normalizePath] does without patterns.  For a non-empty
    path and no custom pattern, the result is a path declared in the spec
    that fits the input segment by segment (the input itself when it is
    declared), or else the input with its leading slash, and then no
    declared path fits it: a path is left as it is only when the spec has
    no template for it. *)
Theorem normalizePath_without_patterns (p : string)
    (apiSpec : option IOpenAPIDocument) :
  p <> "" ->
  (declaredPath apiSpec (normalizePath p apiSpec []) /\
   Forall2 segmentFits (segments (normalizePath p apiSpec [])) (segments p)) \/
  (normalizePath p apiSpec [] = slashNormalize p /\
   forall t, declaredPath apiSpec t -> ~ Forall2 segmentFits (segments t) (segments p)).
Proof.
  intros Hp. unfold normalizePath.
  apply truthy_true in Hp. rewrite Hp. simpl.
  destruct (specResult (slashNormalize p) apiSpec) as [r|] eqn:Er.
  - left. split; [exact (specResult_In _ _ _ Er)|].
    apply structuralMatch_Forall2.
    destruct (specResult_Some _ _ _ Er) as [[-> _]|(_ & doc & entries & _ & _ & Hf)].
    + rewrite <- (segments_slashNormalize p). apply structuralMatch_refl.
    + destruct (findStructural_Some _ _ _ Hf) as (_ & _ & _ & _ & _ & Hm).
      now rewrite segments_slashNormalize in Hm.
  - right. split; [reflexivity|]. intros t Ht HF.
    apply structuralMatch_Forall2 in HF.
    pose proof (specHasPath_false_None _ _ Er t Ht) as Hn.
    rewrite segments_slashNormalize in Hn. congruence.
Qed.

Lemma normalizePath_without_patterns_witness :
  (declaredPath (Some (docOfPaths ["/users"; "/users/{id}"]))
     (normalizePath "users/42" (Some (docOfPaths ["/users"; "/users/{id}"])) []) /\
   Forall2 segmentFits
     (segments (normalizePath "users/42"
                  (Some (docOfPaths ["/users"; "/users/{id}"])) []))
     (segments "users/42")) \/
  (normalizePath "users/42" (Some (docOfPaths ["/users"; "/users/{id}"])) []
   = slashNormalize "users/42" /\
   forall t, declaredPath (Some (docOfPaths ["/users"; "/users/{id}"])) t ->
     ~ Forall2 segmentFits (segments t) (segments "users/42")).
Proof.
  apply (normalizePath_without_patterns "users/42"
           (Some (docOfPaths ["/users"; "/users/{id}"]))).
  discriminate.
Defined.

(** ** [normalizeEndpoints]: every hit keeps a representative *)

Lemma mapSet_length {A : Type} (m : list (string * A)) (k : string) (v : A) :
  length (mapSet m k v) <= S (length m).
Proof.
  induction m as [|[k' v'] m IH]; simpl; [lia|].
  destruct (String.eqb k' k); simpl; lia.
Qed.

Lemma append_inj_l (a b c : string) : a +:+ b = a +:+ c -> b = c.
Proof.
  induction a as [|ch a IH]; simpl; [tauto|]. intros [= H]. now apply IH.
Qed.

Section NormalizeEndpointsRepresentatives.

Variable newRegExp : string -> string -> option RegExp.
Variable patterns : list IEndpointPattern.

Lemma normalizedEndpointOf_method_key (endpoint k v : string) :
  normalizedEndpointOf newRegExp patterns endpoint = Some (k, v) ->
  exists method path,
    includes " " method = false /\
    v = method +:+ " " +:+ path /\ k = structureKey method path.
Proof.
  unfold normalizedEndpointOf. destruct (malformed endpoint); [discriminate|].
  destruct (pathOf endpoint) as [path|]; [|discriminate].
  destruct (negb (truthy path)); [discriminate|].
  intros [= <- <-]. eexists _, _. split; [apply methodOf_no_space|]. split; reflexivity.
Qed.

Lemma normalizeEndpointStep_methods (m : list (string * string)) (endpoint : string) :
  entriesOfMethods m ->
  entriesOfMethods (normalizeEndpointStep newRegExp patterns m endpoint).
Proof.
  intros Hm. unfold normalizeEndpointStep.
  destruct (normalizedEndpointOf newRegExp patterns endpoint) as [[k0 v0]|] eqn:E;
    [|exact Hm].
  pose proof (normalizedEndpointOf_method_key _ _ _ E) as H0.
  assert (Hset : entriesOfMethods (mapSet m k0 v0)).
  { intros k v. rewrite objGet_mapSet. case_decide; [|apply Hm].
    subst k. intros [= <-]. exact H0. }
  destruct (isTemplate v0); [exact Hset|].
  destruct (negb (mapHas m k0)); [exact Hset|exact Hm].
Qed.

Lemma normalizeEndpointStep_NoDup (m : list (string * string)) (endpoint : string) :
  List.NoDup (map fst m) ->
  List.NoDup (map fst (normalizeEndpointStep newRegExp patterns m endpoint)).
Proof.
  intros H. unfold normalizeEndpointStep.
  destruct (normalizedEndpointOf newRegExp patterns endpoint) as [[k0 v0]|]; [|exact H].
  destruct (isTemplate v0); [now apply NoDup_mapSet|].
  destruct (negb (mapHas m k0)); [now apply NoDup_mapSet|exact H].
Qed.

Lemma normalizeEndpointStep_length (m : list (string * string)) (endpoint : string) :
  length (normalizeEndpointStep newRegExp patterns m endpoint) <= S (length m).
Proof.
  unfold normalizeEndpointStep.
  destruct (normalizedEndpointOf newRegExp patterns endpoint) as [[k0 v0]|]; [|lia].
  destruct (isTemplate v0); [apply mapSet_length|].
  destruct (negb (mapHas m k0)); [apply mapSet_length|lia].
Qed.

(** The entry of a structure key stays, and stays templated. *)
Lemma normalizeEndpointStep_keeps_key (m : list (string * string))
    (endpoint k : string) (templated : bool) :
  (exists v, objGet m k = Some v /\ (templated = true -> isTemplate v = true)) ->
  exists v, objGet (normalizeEndpointStep newRegExp patterns m endpoint) k = Some v /\
    (templated = true -> isTemplate v = true).
Proof.
  intros (v & Hv & Ht). unfold normalizeEndpointStep.
  destruct (normalizedEndpointOf newRegExp patterns endpoint) as [[k0 v0]|];
    [|eauto].
  destruct (isTemplate v0) eqn:E0.
  - rewrite objGet_mapSet. case_decide; eauto.
  - unfold mapHas. destruct (objGet m k0) eqn:Ek0; simpl; [eauto|].
    rewrite objGet_mapSet. case_decide; [|eauto]. subst k0. congruence.
Qed.

Lemma normalizeEndpointStep_stores_key (m : list (string * string))
    (endpoint k v : string) :
  normalizedEndpointOf newRegExp patterns endpoint = Some (k, v) ->
  exists v', objGet (normalizeEndpointStep newRegExp patterns m endpoint) k = Some v' /\
    (isTemplate v = true -> isTemplate v' = true).
Proof.
  intros E. unfold normalizeEndpointStep. rewrite E.
  destruct (isTemplate v) eqn:Ev.
  - rewrite objGet_mapSet_eq. eauto.
  - unfold mapHas. destruct (objGet m k) eqn:Ek; simpl.
    + rewrite Ek. eexists. split; [reflexivity|discriminate].
    + rewrite objGet_mapSet_eq. eexists. split; [reflexivity|discriminate].
Qed.

Lemma fold_normalizeEndpointStep_represents (endpoints : list string)
    (m : list (string * string)) (e k v : string) :
  In e endpoints ->
  normalizedEndpointOf newRegExp patterns e = Some (k, v) ->
  exists v',
    objGet (fold_left (normalizeEndpointStep newRegExp patterns) endpoints m) k
    = Some v' /\
    (isTemplate v = true -> isTemplate v' = true).
Proof.
  intros Hin E.
  assert (Hkeep : forall l m0,
            (exists v0, objGet m0 k = Some v0 /\
               (isTemplate v = true -> isTemplate v0 = true)) ->
            exists v', objGet (fold_left (normalizeEndpointStep newRegExp patterns) l m0) k
                       = Some v' /\
              (isTemplate v = true -> isTemplate v' = true)).
  { intros l. induction l as [|x l IHl]; intros m0 H0; simpl; [exact H0|].
    apply IHl. now apply normalizeEndpointStep_keeps_key. }
  revert m. induction endpoints as [|x l IH]; intros m; [destruct Hin|].
  simpl. destruct Hin as [->|Hin]; [|now apply IH].
  apply Hkeep. now apply normalizeEndpointStep_stores_key.
Qed.

Lemma fold_normalizeEndpointStep_shape (endpoints : list string)
    (m : list (string * string)) :
  entriesOfMethods m -> List.NoDup (map fst m) ->
  let m' := fold_left (normalizeEndpointStep newRegExp patterns) endpoints m in
  entriesOfMethods m' /\ List.NoDup (map fst m') /\
  length m' <= length m + length endpoints.
Proof.
  revert m. induction endpoints as [|x l IH]; intros m Hm Hnd; simpl.
  - repeat split; [exact Hm|exact Hnd|lia].
  - destruct (IH (normalizeEndpointStep newRegExp patterns m x)) as (H1 & H2 & H3).
    + now apply normalizeEndpointStep_methods.
    + now apply normalizeEndpointStep_NoDup.
    + pose proof (normalizeEndpointStep_length m x). repeat split; [exact H1|exact H2|lia].
Qed.

(** X20: [normalizeEndpoints] keeps a representative of every hit.  With
    at least one pattern, the result has no duplicate and is no longer
    than the input, and every endpoint that the first pass does not skip
    (it is not malformed and has a path) leaves in the result an endpoint
    with the structure key of its normalised form, templated when its
    normalised form is. *)
Theorem normalizeEndpoints_keeps_representatives (endpoints : list string) :
  patterns <> [] ->
  List.NoDup (normalizeEndpoints newRegExp endpoints patterns) /\
  length (normalizeEndpoints newRegExp endpoints patterns) <= length endpoints /\
  forall e k v,
    In e endpoints ->
    normalizedEndpointOf newRegExp patterns e = Some (k, v) ->
    exists method path,
      In (method +:+ " " +:+ path)
         (normalizeEndpoints newRegExp endpoints patterns) /\
      structureKey method path = k /\
      (isTemplate v = true -> isTemplate (method +:+ " " +:+ path) = true).
Proof.
  intros Hp. unfold normalizeEndpoints. destruct patterns as [|p0 ps] eqn:Epat;
    [contradiction|]. rewrite <- Epat. clear Hp.
  destruct (fold_normalizeEndpointStep_shape endpoints []) as (Hm & Hnd & Hlen);
    [intros ? ? [=]|constructor|].
  simpl in Hlen.
  set (m := fold_left (normalizeEndpointStep newRegExp patterns) endpoints []) in *.
  split; [|split; [unfold mapValues; now rewrite length_map|]].
  - unfold mapValues. apply NoDup_map_NoDup_ForallPairs; [|now apply List.NoDup_map_inv in Hnd].
    intros [k1 v1] [k2 v2] H1 H2. simpl. intros <-.
    apply (In_objGet _ _ _ Hnd) in H1, H2.
    destruct (Hm _ _ H1) as (m1 & p1 & Hs1 & Hv1 & ->).
    destruct (Hm _ _ H2) as (m2 & p2 & Hs2 & Hv2 & ->).
    assert (Hmm : m1 = m2).
    { rewrite <- (methodOf_key m1 p1 Hs1), <- (methodOf_key m2 p2 Hs2). congruence. }
    subst m2. rewrite Hv1 in Hv2. apply append_inj_l in Hv2.
    apply (append_inj_l " ") in Hv2. now subst p2.
  - intros e k v Hin E.
    destruct (fold_normalizeEndpointStep_represents endpoints [] e k v Hin E)
      as (v' & Hv' & Ht).
    fold m in Hv'. destruct (Hm _ _ Hv') as (method & path & _ & -> & ->).
    exists method, path. split; [|split; [reflexivity|exact Ht]].
    apply in_map_iff. exists (structureKey method path, method +:+ " " +:+ path).
    split; [reflexivity|now apply objGet_In].
Qed.

End NormalizeEndpointsRepresentatives.

Lemma normalizeEndpoints_keeps_representatives_witness :
  List.NoDup (normalizeEndpoints sampleEngine
                ["GET /users/{id}/x"; "GET /users/{uid}/x"; "GET /health"]
                sampleEndpointPatterns) /\
  length (normalizeEndpoints sampleEngine
            ["GET /users/{id}/x"; "GET /users/{uid}/x"; "GET /health"]
            sampleEndpointPatterns) <= 3.
Proof.
  destruct (normalizeEndpoints_keeps_representatives sampleEngine
              sampleEndpointPatterns
              ["GET /users/{id}/x"; "GET /users/{uid}/x"; "GET /health"])
    as (H1 & H2 & _).
  - discriminate.
  - split; [exact H1|exact H2].
Defined.

(** ** Segments of joined paths *)

Lemma split_without_sep (sep : ascii) (x : string) :
  includes (String sep "") x = false -> split sep x = [x].
Proof.
  induction x as [|c x IH]; [reflexivity|].
  rewrite includes_char_cons. intros H. apply orb_false_iff in H.
  destruct H as [Hc Hx]. simpl. rewrite Ascii.eqb_sym, Hc, (IH Hx). reflexivity.
Qed.

Lemma split_pieces_no_sep (sep : ascii) (s x : string) :
  In x (split sep s) -> includes (String sep "") x = false.
Proof.
  revert x. induction s as [|c s IH]; intros x; simpl.
  - intros [<-|[]]. reflexivity.
  - destruct (Ascii.eqb c sep) eqn:Ec.
    + intros [<-|Hx]; [reflexivity|now apply IH].
    + pose proof (split_not_nil sep s) as Hn.
      destruct (split sep s) as [|h t] eqn:Es; [contradiction|].
      intros [<-|Hx]; [|apply IH; now right].
      rewrite includes_char_cons, Ascii.eqb_sym, Ec. simpl. apply IH. now left.
Qed.

Lemma segments_elements (p x : string) :
  In x (segments p) -> x <> "" /\ includes "/" x = false.
Proof.
  unfold segments, filterBoolean. rewrite filter_In. intros [Hx Ht].
  split; [now apply truthy_true|]. exact (split_pieces_no_sep "/" p x Hx).
Qed.

Lemma segments_join (l : list string) :
  (forall x, In x l -> x <> "" /\ includes "/" x = false) ->
  segments (join "/" l) = l.
Proof.
  induction l as [|x l IH]; intros H; [reflexivity|].
  destruct (H x (or_introl eq_refl)) as [Hx Hs].
  destruct l as [|y l].
  - simpl. unfold segments. rewrite (split_without_sep "/" x Hs). simpl.
    apply truthy_true in Hx. now rewrite Hx.
  - change (join "/" (x :: y :: l)) with (x +:+ String "/" (join "/" (y :: l))).
    unfold segments. rewrite (split_append_sep "/" x _ Hs). simpl.
    apply truthy_true in Hx. rewrite Hx. f_equal.
    apply IH. intros z Hz. apply H. now right.
Qed.

Lemma segments_slash (s : string) : segments ("/" +:+ s) = segments s.
Proof. reflexivity. Qed.

Lemma signature_segments (path : string) :
  filterBoolean (if startsWith "/" path then split "/" (slice 1 path)
                 else split "/" path)
  = segments path.
Proof.
  destruct path as [|c path]; [reflexivity|].
  change (startsWith "/" (String c path)) with (Ascii.eqb "/" c && true).
  destruct (Ascii.eqb_spec "/" c) as [<-|Hne]; reflexivity.
Qed.

Lemma toLowerCase_slash (s : string) :
  includes "/" (toLowerCase s) = includes "/" s.
Proof.
  induction s as [|c s IH]; [reflexivity|].
  simpl toLowerCase. rewrite !includes_char_cons, IH. f_equal.
  unfold lowerAscii.
  destruct ((65 <=? nat_of_ascii c)%nat && (nat_of_ascii c <=? 90)%nat) eqn:E;
    [|reflexivity].
  apply andb_true_iff in E. destruct E as [E1 E2].
  apply Nat.leb_le in E1, E2.
  assert (Hc : Ascii.eqb "/" c = false).
  { apply Ascii.eqb_neq. intros <-.
    change (nat_of_ascii "/") with 47 in E1. lia. }
  rewrite Hc. apply Ascii.eqb_neq. intros Heq.
  apply (f_equal nat_of_ascii) in Heq. rewrite nat_ascii_embedding in Heq by lia.
  change (nat_of_ascii "/") with 47 in Heq. lia.
Qed.

Lemma toLowerCase_nonempty (s : string) : s <> "" -> toLowerCase s <> "".
Proof. destruct s; [tauto|discriminate]. Qed.

Lemma signatureOfSegment_segment (x : string) :
  x <> "" /\ includes "/" x = false ->
  signatureOfSegment x <> "" /\ includes "/" (signatureOfSegment x) = false.
Proof.
  intros [Hx Hs]. unfold signatureOfSegment.
  destruct (isNumber x); [split; [discriminate|reflexivity]|].
  destruct (isObjectIdAnyCase x); [split; [discriminate|reflexivity]|].
  destruct (isUuid x); [split; [discriminate|reflexivity]|].
  destruct (isHash x); [split; [discriminate|reflexivity]|].
  destruct (isVersion x); [tauto|].
  destruct (isResourceName x).
  { split; [now apply toLowerCase_nonempty|now rewrite toLowerCase_slash]. }
  destruct (looksLikeToken x); [split; [discriminate|reflexivity]|tauto].
Qed.

Lemma signatureOf_segments (path : string) :
  segments (signatureOf path) = map signatureOfSegment (segments path).
Proof.
  unfold signatureOf. rewrite signature_segments. apply segments_join.
  intros x Hx. apply in_map_iff in Hx. destruct Hx as (y & <- & Hy).
  apply signatureOfSegment_segment. exact (segments_elements _ _ Hy).
Qed.

Lemma signatureOf_length (p q : string) :
  signatureOf p = signatureOf q -> length (segments p) = length (segments q).
Proof.
  intros H. apply (f_equal segments) in H. rewrite !signatureOf_segments in H.
  apply (f_equal (@length string)) in H. now rewrite !length_map in H.
Qed.

(** ** [inferPatternsFromRequests] *)

Lemma groupSimilarPathsStep_grouped (groups : list (string * list string))
    (processed : list string) (path : string) :
  groupedBySignature groups processed ->
  groupedBySignature (groupSimilarPathsStep groups path) (processed ++ [path]).
Proof.
  intros (Hnd & Hsome & Hkeys). unfold groupSimilarPathsStep.
  split; [now apply NoDup_mapSet|]. split.
  - intros signature l. rewrite objGet_mapSet. case_decide as Hd.
    + subst signature. intros [= <-]. split; [now destruct (objGet groups _) as [[|]|]|].
      intros p. rewrite !in_app_iff. simpl.
      destruct (objGet groups (signatureOf path)) as [old|] eqn:Eo.
      * destruct (Hsome _ _ Eo) as [_ Hold]. rewrite (Hold p). split.
        -- intros [H|[<-|[]]]; [tauto|auto].
        -- intros ([H|[<-|[]]] & H'); auto.
      * split.
        -- intros [[]|[<-|[]]]. auto.
        -- intros ([H|[<-|[]]] & H'); auto.
           destruct (Hkeys p H) as [x Hx]. rewrite H' in Hx. congruence.
    + intros Hl. destruct (Hsome _ _ Hl) as [Hne Hin]. split; [exact Hne|].
      intros p. rewrite (Hin p), in_app_iff. simpl. split; [tauto|].
      intros ([H|[<-|[]]] & H'); [auto|contradiction].
  - intros p Hp. rewrite objGet_mapSet. case_decide; [eauto|].
    apply in_app_iff in Hp. destruct Hp as [Hp|[<-|[]]]; [auto|contradiction].
Qed.

Lemma groupSimilarPaths_grouped (paths : list string) :
  groupedBySignature (groupSimilarPaths paths) paths.
Proof.
  unfold groupSimilarPaths.
  assert (Hgen : forall l processed groups,
            groupedBySignature groups processed ->
            groupedBySignature (fold_left groupSimilarPathsStep l groups)
                               (processed ++ l)).
  { intros l. induction l as [|x l IH]; intros processed groups H; simpl.
    - now rewrite app_nil_r.
    - replace (processed ++ x :: l) with ((processed ++ [x]) ++ l)
        by now rewrite <- app_assoc.
      apply IH. now apply groupSimilarPathsStep_grouped. }
  apply (Hgen paths [] []).
  split; [constructor|]. split; [discriminate|intros ? []].
Qed.

Lemma lookup_map {A B : Type} (f : A -> B) (l : list A) (i : nat) :
  map f l !! i = f <$> (l !! i).
Proof.
  revert i. induction l as [|x l IH]; intros [|i]; simpl; auto.
Qed.

Lemma not_variable_equal (paths : list string) (index : nat) (p q : string) :
  isVariableSegment paths index = false ->
  In p paths -> In q paths -> segmentAt index p = segmentAt index q.
Proof.
  unfold isVariableSegment. intros H Hp Hq.
  apply Nat.ltb_ge in H.
  assert (Hin : forall x, In x paths ->
            segmentAt index x ∈ remove_dups (map (segmentAt index) paths)).
  { intros x Hx. apply elem_of_remove_dups, list_elem_of_In, in_map, Hx. }
  pose proof (Hin p Hp) as H1. pose proof (Hin q Hq) as H2.
  destruct (remove_dups (map (segmentAt index) paths)) as [|a [|b r]];
    simpl in H; [|  |lia].
  - now apply elem_of_nil in H1.
  - apply list_elem_of_singleton in H1, H2. congruence.
Qed.

Lemma isResourceNoun_cases (s : string) :
  isResourceNoun s = true ->
  In s (singularResources ++ map (fun name => name +:+ "s") singularResources).
Proof.
  unfold isResourceNoun. intros H. apply orb_true_iff in H. apply in_app_iff.
  destruct H as [H|H].
  - left. now apply setHas_In.
  - right. apply existsb_exists in H. destruct H as (name & Hn & He).
    apply String.eqb_eq in He. subst s.
    exact (in_map (fun name => name +:+ "s") _ _ Hn).
Qed.

Lemma templateSegmentFor_variable (paths segs : list string) (index : nat)
    (segment : string) :
  isVariableSegment paths index = true ->
  isParamSegment (templateSegmentFor paths segs index segment) = true /\
  templateSegmentFor paths segs index segment <> "" /\
  includes "/" (templateSegmentFor paths segs index segment) = false.
Proof.
  intros Hv. unfold templateSegmentFor. rewrite Hv.
  destruct (forallb _ _); [repeat split; discriminate|].
  destruct (forallb _ _); [repeat split; discriminate|].
  destruct (forallb _ _); [repeat split; discriminate|].
  destruct index as [|previous]; [repeat split; discriminate|].
  destruct (isResourceNoun _) eqn:Er; [|repeat split; discriminate].
  apply isResourceNoun_cases in Er. simpl in Er.
  repeat (destruct Er as [<-|Er]; [repeat split; discriminate|]).
  destruct Er.
Qed.

Lemma templateSegmentFor_static (paths segs : list string) (index : nat)
    (segment : string) :
  isVariableSegment paths index = false ->
  templateSegmentFor paths segs index segment = segment.
Proof. intros Hv. unfold templateSegmentFor. now rewrite Hv. Qed.

Section InferenceProperties.

Variable newRegExp : string -> string -> option RegExp.

Lemma createPatternFromGroup_Some (groupKey : string) (paths : list string)
    (p : IPathPattern) :
  createPatternFromGroup newRegExp groupKey paths = Some p ->
  2 <= length paths /\
  priority p = Some 30%Z /\
  template p
  = "/" +:+ join "/" (imap (templateSegmentFor paths
                              (segments (default "" (head paths))))
                        (segments (default "" (head paths)))) /\
  newRegExp ("^/" +:+ join "/" (imap (patternSegmentFor paths)
                                  (segments (default "" (head paths)))) +:+ "$") ""
  = Some (pattern p).
Proof.
  unfold createPatternFromGroup.
  destruct (length paths <? 2)%nat eqn:El; [discriminate|].
  apply Nat.ltb_ge in El.
  destruct (newRegExp _ "") as [re|] eqn:Er; [|discriminate].
  intros [= <-]. simpl. auto.
Qed.

Lemma template_segments (paths : list string) (first : string) :
  segments ("/" +:+ join "/" (imap (templateSegmentFor paths (segments first))
                                (segments first)))
  = imap (templateSegmentFor paths (segments first)) (segments first).
Proof.
  rewrite segments_slash. apply segments_join.
  intros x Hx. apply list_elem_of_In, elem_of_lookup_imap in Hx.
  destruct Hx as (i & seg & -> & Hseg).
  destruct (isVariableSegment paths i) eqn:Ev.
  - destruct (templateSegmentFor_variable paths (segments first) i seg Ev)
      as (_ & H1 & H2). auto.
  - rewrite (templateSegmentFor_static _ _ _ _ Ev).
    apply (segments_elements first).
    apply list_elem_of_In. now apply list_elem_of_lookup_2 in Hseg.
Qed.

Lemma createPatternFromGroup_fits (groupKey : string) (paths : list string)
    (p : IPathPattern) :
  createPatternFromGroup newRegExp groupKey paths = Some p ->
  (forall a b, In a paths -> In b paths ->
     length (segments a) = length (segments b)) ->
  forall path, In path paths ->
    Forall2 segmentFits (segments (template p)) (segments path).
Proof.
  intros H Hlen path Hpath.
  destruct (createPatternFromGroup_Some _ _ _ H) as (Hn & _ & Ht & _).
  destruct paths as [|first rest]; [simpl in Hn; lia|].
  simpl in Ht. rewrite Ht, template_segments.
  apply Forall2_same_length_lookup_2.
  - rewrite length_imap. apply Hlen; [now left|exact Hpath].
  - intros i x y Hx Hy. apply list_lookup_imap_Some in Hx.
    destruct Hx as (seg & Hseg & ->).
    destruct (isVariableSegment (first :: rest) i) eqn:Ev.
    + left. now apply templateSegmentFor_variable.
    + right. rewrite (templateSegmentFor_static _ _ _ _ Ev).
      pose proof (not_variable_equal _ i first path Ev (or_introl eq_refl) Hpath)
        as Heq.
      unfold segmentAt in Heq. congruence.
Qed.

Lemma In_fold_inferFromGroup (existingPatterns : list IPathPattern)
    (groups : list (string * list string)) (acc : list IPathPattern)
    (p : IPathPattern) :
  In p (fold_left (inferFromGroup newRegExp existingPatterns) groups acc) ->
  In p acc \/
  exists signature groupPaths,
    In (signature, groupPaths) groups /\
    2 <= length groupPaths /\
    arePathsCoveredByPatterns groupPaths existingPatterns = false /\
    createPatternFromGroup newRegExp signature groupPaths = Some p.
Proof.
  revert acc. induction groups as [|[signature l] groups IH]; intros acc; simpl.
  - tauto.
  - intros H. destruct (IH _ H) as [Hacc|(sg & gp & Hin & Hr)].
    + unfold inferFromGroup in Hacc. simpl in Hacc.
      destruct (length l <? 2)%nat eqn:El; [tauto|].
      apply Nat.ltb_ge in El.
      destruct (arePathsCoveredByPatterns l existingPatterns) eqn:Ec; [tauto|].
      destruct (createPatternFromGroup newRegExp signature l) as [q|] eqn:Eq; [|tauto].
      apply in_app_iff in Hacc. destruct Hacc as [Hacc|[<-|[]]]; [tauto|].
      right. exists signature, l. auto.
    + right. exists sg, gp. auto.
Qed.

Lemma fold_inferFromGroup_length (existingPatterns : list IPathPattern)
    (groups : list (string * list string)) (acc : list IPathPattern) :
  length (fold_left (inferFromGroup newRegExp existingPatterns) groups acc)
  <= length acc + length groups.
Proof.
  revert acc. induction groups as [|g groups IH]; intros acc; simpl; [lia|].
  specialize (IH (inferFromGroup newRegExp existingPatterns acc g)).
  assert (length (inferFromGroup newRegExp existingPatterns acc g) <= S (length acc)).
  { unfold inferFromGroup. destruct (length (snd g) <? 2)%nat; [lia|].
    destruct (arePathsCoveredByPatterns _ _); [lia|].
    destruct (createPatternFromGroup _ _ _); [rewrite length_app; simpl; lia|lia]. }
  lia.
Qed.

Lemma inferPatternsFromRequests_spec (paths : list string)
    (existingPatterns : list IPathPattern) (p : IPathPattern) :
  In p (inferPatternsFromRequests newRegExp paths existingPatterns) ->
  priority p = Some 30%Z /\
  startsWith "/" (template p) = true /\
  exists groupPaths,
    2 <= length groupPaths /\
    (forall path, In path groupPaths <->
       In path paths /\
       signatureOf path = signatureOf (default "" (head groupPaths))) /\
    arePathsCoveredByPatterns groupPaths existingPatterns = false /\
    forall path, In path groupPaths ->
      Forall2 segmentFits (segments (template p)) (segments path).
Proof.
  unfold inferPatternsFromRequests.
  destruct (length paths <? 2)%nat; [intros []|].
  intros H. apply In_fold_inferFromGroup in H.
  destruct H as [[]|(signature & l & Hin & Hlen & Hcov & Hc)].
  destruct (groupSimilarPaths_grouped paths) as (Hnd & Hsome & _).
  destruct (Hsome _ _ (In_objGet _ _ _ Hnd Hin)) as [Hne Hl].
  destruct (createPatternFromGroup_Some _ _ _ Hc) as (_ & Hp & Ht & _).
  split; [exact Hp|]. split; [now rewrite Ht|].
  exists l. split; [exact Hlen|].
  assert (Hhead : signatureOf (default "" (head l)) = signature).
  { destruct l as [|first rest]; [contradiction|]. simpl.
    apply (Hl first). now left. }
  split; [|split; [exact Hcov|]].
  - intros path. rewrite Hhead. apply Hl.
  - apply (createPatternFromGroup_fits _ _ _ Hc).
    intros a b Ha Hb. apply signatureOf_length.
    apply Hl in Ha, Hb. destruct Ha as [_ ->], Hb as [_ ->]. reflexivity.
Qed.

End InferenceProperties.



(** ** [getAllServerErrors]: the histograms it shares with the worker *)

Lemma objGet_recordsOf (heap : list (gmap string Z)) (objects : list (string * ErrorObject))
    (k : string) :
  objGet (recordsOf heap objects) k = recordOf heap <$> objGet objects k.
Proof.
  induction objects as [|[k' o] objects IH]; simpl; [reflexivity|].
  destruct (String.eqb k' k); [reflexivity|exact IH].
Qed.

Lemma recordsOf_mapSet (heap : list (gmap string Z)) (objects : list (string * ErrorObject))
    (k : string) (o : ErrorObject) :
  recordsOf heap (mapSet objects k o) = mapSet (recordsOf heap objects) k (recordOf heap o).
Proof.
  induction objects as [|[k' o'] objects IH]; simpl; [reflexivity|].
  destruct (String.eqb k' k); simpl; [reflexivity|]. now rewrite IH.
Qed.

Lemma recordsOf_ext (heap heap' : list (gmap string Z)) (objects : list (string * ErrorObject)) :
  (forall k o, In (k, o) objects ->
     heap' !! obj_statusCodes o = heap !! obj_statusCodes o) ->
  recordsOf heap' objects = recordsOf heap objects.
Proof.
  intros H. unfold recordsOf. apply map_ext_in. intros [k o] Hin. simpl.
  unfold recordOf. now rewrite (H k o Hin).
Qed.

Lemma NoDup_map_inj_on {A B : Type} (f : A -> B) (l : list A) (a b : A) :
  List.NoDup (map f l) -> In a l -> In b l -> f a = f b -> a = b.
Proof.
  induction l as [|x l IH]; simpl; [intros _ []|].
  intros Hnd. inversion Hnd as [|? ? Hx Hnd']; subst.
  intros [->|Ha] [->|Hb] Heq; [reflexivity| | |now apply IH].
  - exfalso. apply Hx. rewrite Heq. now apply in_map.
  - exfalso. apply Hx. rewrite <- Heq. now apply in_map.
Qed.

Lemma map_mapSet_same {A B : Type} (g : string * A -> B)
    (m : list (string * A)) (k : string) (v v' : A) :
  objGet m k = Some v -> g (k, v') = g (k, v) ->
  map g (mapSet m k v') = map g m.
Proof.
  intros Hg Heq. induction m as [|[k' v0] m IH]; simpl in *; [discriminate|].
  destruct (String.eqb_spec k' k) as [->|Hne]; simpl.
  - injection Hg as ->. now rewrite Heq.
  - now rewrite IH.
Qed.

Lemma mapSet_absent {A : Type} (m : list (string * A)) (k : string) (v : A) :
  objGet m k = None -> mapSet m k v = m ++ [(k, v)].
Proof.
  induction m as [|[k' v0] m IH]; simpl; [reflexivity|].
  destruct (String.eqb k' k); [discriminate|]. intros H. now rewrite IH.
Qed.

Lemma mapSet_recordsOf_heaps (heap heap' : list (gmap string Z))
    (objects : list (string * ErrorObject)) (endpoint : string)
    (record : IServerErrorRecord) :
  List.NoDup (map fst objects) ->
  (forall k o, In (k, o) objects -> k <> endpoint ->
     heap' !! obj_statusCodes o = heap !! obj_statusCodes o) ->
  mapSet (recordsOf heap' objects) endpoint record
  = mapSet (recordsOf heap objects) endpoint record.
Proof.
  induction objects as [|[k o] objects IH]; simpl; [reflexivity|].
  intros Hnd H. inversion Hnd as [|? ? Hk Hnd']; subst.
  destruct (String.eqb_spec k endpoint) as [->|Hne].
  - f_equal. apply recordsOf_ext. intros k' o' Hin. apply (H k' o'); [now right|].
    intros ->. apply Hk. apply (in_map fst _ _ Hin).
  - f_equal.
    + unfold recordOf. rewrite (H k o); [reflexivity|now left|exact Hne].
    + apply IH; [exact Hnd'|]. intros k' o' Hin. apply H. now right.
Qed.

Lemma mergeFileObject_separate (objects : list (string * ErrorObject)) (heap : list (gmap string Z))
    (endpoint : string) (errorRecord : IErrorFileRecord) :
  separateHistograms objects heap ->
  separateHistograms (fst (mergeFileObject (objects, heap) endpoint errorRecord))
                     (snd (mergeFileObject (objects, heap) endpoint errorRecord)) /\
  recordsOf (snd (mergeFileObject (objects, heap) endpoint errorRecord))
            (fst (mergeFileObject (objects, heap) endpoint errorRecord))
  = mergeFileRecord (recordsOf heap objects) endpoint errorRecord /\
  (forall k o, objGet objects k = Some o ->
     exists o', objGet (fst (mergeFileObject (objects, heap) endpoint errorRecord)) k
                = Some o' /\
       obj_statusCodes o' = obj_statusCodes o).
Proof.
  intros (Hkeys & Haddr & Hvalid). unfold mergeFileObject, mergeFileRecord.
  simpl fst. simpl snd. rewrite objGet_recordsOf.
  destruct (objGet objects endpoint) as [o|] eqn:Eo; simpl.
  - pose proof (objGet_In _ _ _ Eo) as Hino.
    pose proof (Hvalid _ _ Hino) as Hlt.
    set (o'' := {| obj_count := (obj_count o + default 0 (file_count errorRecord))%Z;
                   obj_statusCodes := obj_statusCodes o;
                   obj_lastError := _ |}).
    set (heap' := match file_statusCodes errorRecord with
                  | Some codes => _
                  | None => heap
                  end).
    assert (Hlen : length heap' = length heap).
    { unfold heap'. destruct (file_statusCodes errorRecord); [apply length_insert|reflexivity]. }
    assert (Hother : forall k o2, In (k, o2) objects -> k <> endpoint ->
              heap' !! obj_statusCodes o2 = heap !! obj_statusCodes o2).
    { intros k o2 Hin Hne. unfold heap'.
      destruct (file_statusCodes errorRecord); [|reflexivity].
      cbv iota. apply list_lookup_insert_ne. intros Heq.
      assert (Hsame : (endpoint, o) = (k, o2)).
      { apply (NoDup_map_inj_on (fun entry => obj_statusCodes (snd entry)) objects);
          auto. }
      congruence. }
    split; [|split].
    + split; [now apply NoDup_mapSet|]. split.
      * rewrite (map_mapSet_same (fun entry => obj_statusCodes (snd entry))
                   objects endpoint o o'' Eo eq_refl). exact Haddr.
      * intros k o2 Hin. rewrite Hlen. apply In_mapSet in Hin.
        destruct Hin as [[= -> ->]|Hin]; [exact Hlt|now apply (Hvalid k)].
    + rewrite recordsOf_mapSet.
      rewrite (mapSet_recordsOf_heaps heap heap' objects endpoint _ Hkeys Hother).
      f_equal. unfold recordOf, o''. simpl. f_equal.
      unfold heap'. destruct (file_statusCodes errorRecord) as [codes|]; [|reflexivity].
      cbv iota. now rewrite list_lookup_insert_eq.
    + intros k o2 Hk. rewrite objGet_mapSet. case_decide as Hd.
      * subst k. exists o''. split; [reflexivity|]. simpl. congruence.
      * eauto.
  - set (o'' := {| obj_count := (0 + default 0 (file_count errorRecord))%Z;
                   obj_statusCodes := length heap;
                   obj_lastError := _ |}).
    set (heap' := match file_statusCodes errorRecord with
                  | Some codes => _
                  | None => heap ++ [∅]
                  end).
    assert (Hlen : length heap' = S (length heap)).
    { unfold heap'. destruct (file_statusCodes errorRecord);
        [rewrite length_insert|]; rewrite length_app; simpl; lia. }
    assert (Hold : forall k o2, In (k, o2) objects ->
              heap' !! obj_statusCodes o2 = heap !! obj_statusCodes o2).
    { intros k o2 Hin. pose proof (Hvalid _ _ Hin) as Hlt. unfold heap'.
      destruct (file_statusCodes errorRecord); cbv iota;
        [rewrite list_lookup_insert_ne by lia|]; now apply lookup_app_l. }
    rewrite (mapSet_absent objects endpoint o'' Eo).
    split; [|split].
    + split; [|split].
      * rewrite <- (mapSet_absent objects endpoint o'' Eo). now apply NoDup_mapSet.
      * rewrite map_app. simpl. apply List.NoDup_app; [exact Haddr|repeat constructor; intros []|].
        intros a Ha [<-|[]]. apply in_map_iff in Ha.
        destruct Ha as ([k o2] & Ha & Hin). simpl in Ha.
        pose proof (Hvalid _ _ Hin). lia.
      * intros k o2 Hin. rewrite Hlen. apply in_app_iff in Hin.
        destruct Hin as [Hin|[[= <- <-]|[]]]; [|simpl; lia].
        pose proof (Hvalid _ _ Hin). lia.
    + unfold recordsOf at 1. rewrite map_app. simpl.
      fold (recordsOf heap' objects).
      rewrite (recordsOf_ext heap heap' objects Hold).
      rewrite mapSet_absent by (rewrite objGet_recordsOf, Eo; reflexivity).
      f_equal. f_equal. f_equal. unfold recordOf, o''. simpl. f_equal.
      unfold heap'. destruct (file_statusCodes errorRecord) as [codes|]; cbv iota.
      * rewrite list_lookup_insert_eq by (rewrite length_app; simpl; lia).
        simpl. rewrite lookup_app_r by lia. now rewrite Nat.sub_diag.
      * rewrite lookup_app_r by lia. now rewrite Nat.sub_diag.
    + intros k o2 Hk. exists o2. split; [|reflexivity].
      rewrite <- (mapSet_absent objects endpoint o'' Eo), objGet_mapSet.
      case_decide; [congruence|exact Hk].
Qed.

Lemma fold_mergeFileObject_separate (fileErrors : list (string * IErrorFileRecord))
    (objects : list (string * ErrorObject)) (heap : list (gmap string Z)) :
  separateHistograms objects heap ->
  let state :=
    fold_left (fun st entry => mergeFileObject st (fst entry) (snd entry))
      fileErrors (objects, heap) in
  separateHistograms (fst state) (snd state) /\
  recordsOf (snd state) (fst state)
  = fold_left (fun all entry => mergeFileRecord all (fst entry) (snd entry))
      fileErrors (recordsOf heap objects) /\
  (forall k o, objGet objects k = Some o ->
     exists o', objGet (fst state) k = Some o' /\
       obj_statusCodes o' = obj_statusCodes o).
Proof.
  revert objects heap. induction fileErrors as [|[endpoint errorRecord] rest IH];
    intros objects heap Hsep; simpl.
  - split; [exact Hsep|]. split; [reflexivity|eauto].
  - destruct (mergeFileObject_separate objects heap endpoint errorRecord Hsep)
      as (Hsep1 & Hval1 & Hkeep1).
    destruct (mergeFileObject (objects, heap) endpoint errorRecord)
      as [objects1 heap1] eqn:E1.
    simpl in Hsep1, Hval1, Hkeep1.
    destruct (IH objects1 heap1 Hsep1) as (Hsep2 & Hval2 & Hkeep2).
    split; [exact Hsep2|]. split; [now rewrite Hval2, Hval1|].
    intros k o Hk. destruct (Hkeep1 k o Hk) as (o1 & Hk1 & Ha1).
    destruct (Hkeep2 k o1 Hk1) as (o2 & Hk2 & Ha2).
    exists o2. split; [exact Hk2|congruence].
Qed.

Lemma fold_mergeErrorFileObjects_separate
    (files : list (option (list (string * IErrorFileRecord))))
    (objects : list (string * ErrorObject)) (heap : list (gmap string Z)) :
  separateHistograms objects heap ->
  let state := fold_left mergeErrorFileObjects files (objects, heap) in
  separateHistograms (fst state) (snd state) /\
  recordsOf (snd state) (fst state)
  = fold_left mergeErrorFile files (recordsOf heap objects) /\
  (forall k o, objGet objects k = Some o ->
     exists o', objGet (fst state) k = Some o' /\
       obj_statusCodes o' = obj_statusCodes o).
Proof.
  revert objects heap. induction files as [|file files IH];
    intros objects heap Hsep; simpl.
  - split; [exact Hsep|]. split; [reflexivity|eauto].
  - destruct file as [fileErrors|]; simpl; [|now apply IH].
    destruct (fold_mergeFileObject_separate fileErrors objects heap Hsep)
      as (Hsep1 & Hval1 & Hkeep1).
    destruct (fold_left _ fileErrors (objects, heap)) as [objects1 heap1] eqn:E1.
    simpl in Hsep1, Hval1, Hkeep1.
    destruct (IH objects1 heap1 Hsep1) as (Hsep2 & Hval2 & Hkeep2).
    split; [exact Hsep2|]. split; [now rewrite Hval2, Hval1|].
    intros k o Hk. destruct (Hkeep1 k o Hk) as (o1 & Hk1 & Ha1).
    destruct (Hkeep2 k o1 Hk1) as (o2 & Hk2 & Ha2).
    exists o2. split; [exact Hk2|congruence].
Qed.



(** ** [generateCoverageReport]: which spec endpoint a structure marks *)

Lemma specStructuresFrom_untouched (specEndpoints : list string)
    (m0 m : gmap string string) (k : string) :
  specStructuresFrom m0 specEndpoints = Some m ->
  (forall s, In s specEndpoints -> structureKeyOf s <> Some k) ->
  m !! k = m0 !! k.
Proof.
  revert m0. induction specEndpoints as [|x l IH]; intros m0; simpl.
  - now intros [= <-] _.
  - destruct (structureKeyOf x) as [kx|] eqn:Ex; [|discriminate].
    intros H Hno. rewrite (IH _ H) by (intros s Hs; apply Hno; now right).
    apply lookup_insert_ne. intros ->. now apply (Hno x (or_introl eq_refl)).
Qed.

Lemma specStructuresFrom_last (before after : list string) (s k : string)
    (m0 m : gmap string string) :
  specStructuresFrom m0 (before ++ s :: after) = Some m ->
  structureKeyOf s = Some k ->
  (forall s', In s' after -> structureKeyOf s' <> Some k) ->
  m !! k = Some s.
Proof.
  revert m0. induction before as [|b before IH]; intros m0; simpl.
  - intros H Hk Hafter. rewrite Hk in H.
    rewrite (specStructuresFrom_untouched _ _ _ k H Hafter).
    apply lookup_insert_eq.
  - destruct (structureKeyOf b) as [kb|]; [|discriminate]. apply IH.
Qed.

(** X24: a structural match marks the last spec endpoint of its structure.
    In every report, a normalised hit that is no spec endpoint marks as
    tested the spec endpoint with its structure key that comes last in
    the spec; an earlier spec endpoint with the same structure key (the
    same path up to the names of its parameters) that is not hit itself
    is reported as untested.  With [GET /users/{id}] and
    [GET /users/{name}] declared, the hit [GET /users/{userId}] tests the
    second and leaves the first untested. *)
Theorem generateCoverageReport_structure_marks_last :
  (forall newRegExp (specEndpoints hitEndpoints : list string)
          (allServerErrors : list (string * IServerErrorRecord))
          (patterns : list IEndpointPattern) (report : ICoverageReport)
          (before after : list string) (s k : string),
     generateCoverageReport newRegExp specEndpoints hitEndpoints allServerErrors
       patterns = Some report ->
     specEndpoints = before ++ s :: after ->
     structureKeyOf s = Some k ->
     (forall s', In s' after -> structureKeyOf s' <> Some k) ->
     (forall h, In h (normalizedHitsOf newRegExp hitEndpoints patterns) ->
        ~ In h specEndpoints -> structureKeyOf h = Some k ->
        In s (endpoints_tested report)) /\
     (forall s0, In s0 before -> structureKeyOf s0 = Some k -> s0 <> s ->
        ~ In s0 (normalizedHitsOf newRegExp hitEndpoints patterns) ->
        In s0 (endpoints_untested report))) /\
  option_map (fun report => (endpoints_tested report, endpoints_untested report))
    (generateCoverageReport sampleEngine
       ["GET /users/{id}"; "GET /users/{name}"] ["GET /users/{userId}"] [] [])
  = Some (["GET /users/{name}"], ["GET /users/{id}"]).
Proof.
  split; [|vm_compute; reflexivity].
  intros newRegExp specEndpoints hitEndpoints allServerErrors patterns report
         before after s k H Hspec Hk Hafter.
  destruct (generateCoverageReport_parts _ _ _ _ _ _ H)
    as (structures & additional & extra & byStructure
        & Hs & Hc & _ & Ht & Hu & _).
  destruct (classifyHits_spec _ _ _ _ _ Hc) as (Hadd & _ & Hall).
  assert (Hlast : structures !! k = Some s).
  { rewrite Hspec in Hs. exact (specStructuresFrom_last _ _ _ _ _ _ Hs Hk Hafter). }
  assert (Hkeyed : structuresKeyed structures).
  { apply (specStructuresFrom_keyed _ _ _ Hs). intros k' e Hk'.
    now rewrite lookup_empty in Hk'. }
  split.
  - intros h Hh Hn Hhk. destruct (Hall h Hh Hn) as (k' & Hk' & Hcase).
    assert (k' = k) by congruence. subst k'. rewrite Hlast in Hcase.
    rewrite Ht, In_uniq, in_app_iff. right. apply Hcase.
    apply truthy_true. intros ->. discriminate.
  - intros s0 Hs0 Hk0 Hne Hnot. rewrite Hu. apply filter_In. split.
    + rewrite Hspec. apply in_app_iff. now left.
    + apply negb_true_iff. destruct (setHas (endpoints_tested report) s0) eqn:E;
        [|reflexivity].
      exfalso. apply setHas_In in E. rewrite Ht, In_uniq, in_app_iff in E.
      destruct E as [E|E].
      * apply filter_In in E. destruct E as [_ E]. apply setHas_In in E. contradiction.
      * destruct (Hadd s0 E) as (h & k2 & _ & _ & _ & Hm).
        pose proof (Hkeyed _ _ Hm) as Hk2.
        assert (k2 = k) by congruence. subst k2. congruence.
Qed.

(** ** The error map: under which key an error is counted *)

Lemma findTemplateKey_first (existingKeys : list string) (key templateKey : string) :
  findTemplateKey existingKeys key = Some templateKey ->
  (templateKey = key /\
   forall t, In t existingKeys -> isTemplate t = true ->
     endpointMatchesTemplate key t = Some false) \/
  (exists before after,
     existingKeys = before ++ templateKey :: after /\
     isTemplate templateKey = true /\
     endpointMatchesTemplate key templateKey = Some true /\
     forall t, In t before -> isTemplate t = true ->
       endpointMatchesTemplate key t = Some false).
Proof.
  induction existingKeys as [|e l IH]; simpl.
  - intros [= <-]. left. split; [reflexivity|intros ? []].
  - assert (Hskip : (isTemplate e = true -> endpointMatchesTemplate key e = Some false) ->
              findTemplateKey l key = Some templateKey ->
              (templateKey = key /\
               forall t, e = t \/ In t l -> isTemplate t = true ->
                 endpointMatchesTemplate key t = Some false) \/
              (exists before after,
                 e :: l = before ++ templateKey :: after /\
                 isTemplate templateKey = true /\
                 endpointMatchesTemplate key templateKey = Some true /\
                 forall t, In t before -> isTemplate t = true ->
                   endpointMatchesTemplate key t = Some false)).
    { intros He H. destruct (IH H) as [[-> Hall]|(before & after & -> & Ht & Hm & Hb)].
      - left. split; [reflexivity|]. intros t [<-|Ht] Htt; auto.
      - right. exists (e :: before), after. split; [reflexivity|].
        split; [exact Ht|]. split; [exact Hm|].
        intros t [<-|Hin] Htt; auto. }
    destruct (isTemplate e) eqn:Et; [|apply Hskip; discriminate].
    destruct (endpointMatchesTemplate key e) as [[|]|] eqn:Em; [|now apply Hskip|discriminate].
    intros [= <-]. right. exists [], l. split; [reflexivity|].
    split; [exact Et|]. split; [exact Em|intros ? []].
Qed.

Lemma recordError_counts (m : list (string * IServerErrorRecord))
    (templateKey statusStr message : string) :
  measureAt err_count (recordError m templateKey statusStr message) templateKey
  = (measureAt err_count m templateKey + 1)%Z /\
  forall k, k <> templateKey ->
    objGet (recordError m templateKey statusStr message) k = objGet m k.
Proof.
  unfold recordError, measureAt. split.
  - rewrite objGet_mapSet_eq. simpl. now destruct (objGet m templateKey).
  - intros k Hk. apply objGet_mapSet_ne. congruence.
Qed.



(** ** The clean-up of slashes after a substitution *)

Lemma collapseSlashes_slash (s : string) :
  collapseSlashes (String "/" s) =
  if startsWith "/" s then collapseSlashes s else String "/" (collapseSlashes s).
Proof. reflexivity. Qed.

Lemma collapseSlashes_other (c : ascii) (s : string) :
  c <> "/"%char -> collapseSlashes (String c s) = String c (collapseSlashes s).
Proof.
  intros Hc. apply Ascii.eqb_neq in Hc.
  change (collapseSlashes (String c s))
    with (if Ascii.eqb c "/" && startsWith "/" s then collapseSlashes s
          else String c (collapseSlashes s)).
  now rewrite Hc.
Qed.

Lemma startsWith_slash_cons (c : ascii) (s : string) :
  startsWith "/" (String c s) = Ascii.eqb "/" c.
Proof. simpl. apply andb_true_r. Qed.

Lemma includes_double_cons (c : ascii) (s : string) :
  includes "//" (String c s) =
  Ascii.eqb "/" c && startsWith "/" s || includes "//" s.
Proof. reflexivity. Qed.

Lemma collapseSlashes_head (s : string) :
  startsWith "/" (collapseSlashes s) = startsWith "/" s.
Proof.
  induction s as [|c s IH]; [reflexivity|].
  destruct (Ascii.eqb_spec c "/") as [->|Hc].
  - rewrite collapseSlashes_slash. destruct (startsWith "/" s) eqn:Es.
    + now rewrite IH.
    + reflexivity.
  - rewrite collapseSlashes_other by exact Hc. now rewrite !startsWith_slash_cons.
Qed.

Lemma collapseSlashes_no_double (s : string) :
  includes "//" (collapseSlashes s) = false.
Proof.
  induction s as [|c s IH]; [reflexivity|].
  destruct (Ascii.eqb_spec c "/") as [->|Hc].
  - rewrite collapseSlashes_slash. destruct (startsWith "/" s) eqn:Es; [exact IH|].
    rewrite includes_double_cons, collapseSlashes_head, Es, IH. reflexivity.
  - rewrite collapseSlashes_other by exact Hc.
    rewrite includes_double_cons, IH.
    apply not_eq_sym in Hc. apply Ascii.eqb_neq in Hc. now rewrite Hc.
Qed.

Lemma collapseSlashes_split (s : string) :
  exists h t t',
    split "/" s = h :: t /\ split "/" (collapseSlashes s) = h :: t' /\
    filterBoolean t = filterBoolean t'.
Proof.
  induction s as [|c s (h & t & t' & Hs & Hc & Hf)].
  - exists "", [], []. auto.
  - destruct (Ascii.eqb_spec c "/") as [->|Hne].
    + rewrite collapseSlashes_slash.
      change (split "/" (String "/" s)) with ("" :: split "/" s).
      destruct (startsWith "/" s) eqn:Es.
      * destruct s as [|c' s]; [discriminate|].
        rewrite startsWith_slash_cons in Es. apply Ascii.eqb_eq in Es. subst c'.
        change (split "/" (String "/" s)) with ("" :: split "/" s) in Hs.
        injection Hs as <- Ht.
        exists "", ("" :: split "/" s), t'. split; [reflexivity|].
        split; [exact Hc|]. rewrite <- Hf, <- Ht. reflexivity.
      * change (split "/" (String "/" (collapseSlashes s)))
          with ("" :: split "/" (collapseSlashes s)).
        rewrite Hs, Hc. exists "", (h :: t), (h :: t'). split; [reflexivity|].
        split; [reflexivity|]. unfold filterBoolean in *. simpl. now rewrite Hf.
    + rewrite collapseSlashes_other by exact Hne.
      apply Ascii.eqb_neq in Hne. simpl split. rewrite Hne, Hs, Hc.
      exists (String c h), t, t'. auto.
Qed.

(** X25: the clean-up [replace(/\/+/g, '/')] that [normalizeEndpoints]
    applies after a substitution leaves no two slashes in a row, does not
    change the segments of the path, keeps a leading slash, and changes
    nothing when applied again. *)
Theorem collapseSlashes_keeps_segments (s : string) :
  includes "//" (collapseSlashes s) = false /\
  segments (collapseSlashes s) = segments s /\
  startsWith "/" (collapseSlashes s) = startsWith "/" s /\
  collapseSlashes (collapseSlashes s) = collapseSlashes s.
Proof.
  split; [apply collapseSlashes_no_double|]. split; [|split].
  - destruct (collapseSlashes_split s) as (h & t & t' & Hs & Hc & Hf).
    unfold segments. rewrite Hs, Hc. unfold filterBoolean in *. simpl.
    now rewrite Hf.
  - apply collapseSlashes_head.
  - pose proof (collapseSlashes_no_double s) as Hn.
    induction (collapseSlashes s) as [|c r IH]; [reflexivity|].
    rewrite includes_double_cons in Hn.
    apply orb_false_iff in Hn. destruct Hn as [Hh Hr].
    destruct (Ascii.eqb_spec c "/") as [->|Hc].
    + rewrite collapseSlashes_slash.
      change (Ascii.eqb "/" "/") with true in Hh. cbv beta iota delta [andb] in Hh.
      rewrite Hh, (IH Hr). reflexivity.
    + rewrite collapseSlashes_other by exact Hc. now rewrite (IH Hr).
Qed.

Section PatternLoopSlashes.

Variable newRegExp : string -> string -> option RegExp.

Lemma applyEndpointPattern_slashes (path : string) (p : IEndpointPattern) :
  applyEndpointPattern newRegExp path p = path \/
  includes "//" (applyEndpointPattern newRegExp path p) = false.
Proof.
  unfold applyEndpointPattern.
  destruct (newRegExp (ep_pattern p) "") as [regex|]; [|now left].
  destruct (re_test regex path) as [[|]|]; try now left.
  destruct (re_replace regex path _) as [replaced|]; [|now left].
  right. apply collapseSlashes_no_double.
Qed.

Lemma applyEndpointPatterns_keeps_single_slashes (patterns : list IEndpointPattern) :
  forall path, includes "//" path = false ->
    includes "//" (applyEndpointPatterns newRegExp path patterns) = false.
Proof.
  unfold applyEndpointPatterns.
  induction patterns as [|p patterns IH]; intros path Hpath; [exact Hpath|].
  simpl. apply IH.
  destruct (applyEndpointPattern_slashes path p) as [-> | H]; assumption.
Qed.

(** X26: the loop of [normalizeEndpoints] over the patterns either hands
    on the path of a hit exactly as it was, or a path without two slashes in
    a row, whatever the patterns and the regular-expression engine do. *)
Theorem applyEndpointPatterns_unchanged_or_single_slashes
    (patterns : list IEndpointPattern) (path : string) :
  applyEndpointPatterns newRegExp path patterns = path \/
  includes "//" (applyEndpointPatterns newRegExp path patterns) = false.
Proof.
  revert path. induction patterns as [|p patterns IH]; intros path; [now left|].
  change (applyEndpointPatterns newRegExp path (p :: patterns))
    with (applyEndpointPatterns newRegExp (applyEndpointPattern newRegExp path p)
            patterns).
  destruct (applyEndpointPattern_slashes path p) as [Hsame | Hsingle].
  - rewrite Hsame. apply IH.
  - right. now apply applyEndpointPatterns_keeps_single_slashes.
Qed.

End PatternLoopSlashes.
